(** * kafka-pixy: the consumer core ([consumer/consumer.go])

    A shallow embedding of the partition assignment algorithm, the exclusive
    consumer, the topic consumer and the group consumer's control loop,
    together with the properties the design document states about them. *)

From stdpp Require Import gmap strings list fin_maps sorting.
From Stdlib Require Import ZArith Lia.

Local Open Scope Z_scope.

(** * Go's fixed-width integers

    [int64] values are integers in [-2^63, 2^63); arithmetic wraps around. *)
Module Int64.

Definition min_int : Z := - 2 ^ 63.
Definition max_int : Z := 2 ^ 63 - 1.

Definition in_range (z : Z) : Prop := min_int ≤ z ≤ max_int.

(** The value an [int64] holds after a computation whose exact result is [z]. *)
Definition wrap (z : Z) : Z := (z + 2 ^ 63) `mod` 2 ^ 64 - 2 ^ 63.

Definition add (a b : Z) : Z := wrap (a + b).
Definition sub (a b : Z) : Z := wrap (a - b).

End Int64.

Local Close Scope Z_scope.

(** * Partition assignment ([assignPartitionsToSubscribers]) *)
Module Assignment.

(** [map[string]map[int32]bool]: a subscriber's partitions are the keys of
    its inner map; the code only ever stores [true] there. *)
Abbreviation assignment := (gmap string (gmap Z bool)).

(** [sort.Sort(Int32Slice(p))] and [sort.Sort(sort.StringSlice(s))]: the
    orders are [p[i] < p[j]] on [int32] and Go's bytewise [<] on strings.
    Both are total orders on values, so the sorted slice is determined by
    the multiset of its elements whatever algorithm [sort.Sort] runs. *)
Definition sortInt32 (p : list Z) : list Z := merge_sort Z.le p.
Definition sortStrings (s : list string) : list string := merge_sort String.le s.

(** [m[subscriberID]] read from a possibly nil or missing entry. *)
Definition assigned_to (m : assignment) (subscriberID : string) : gmap Z bool :=
  default ∅ (m !! subscriberID).

(** [m[subscriberID][partition]]: a missing key reads as [false]. *)
Definition is_assigned (m : assignment) (subscriberID : string) (partition : Z) : bool :=
  default false (assigned_to m subscriberID !! partition).

(** [partitions[begin:end]]; Go panics when the bounds are out of range
    ([None]). *)
Definition subslice {A} (l : list A) (begin end_ : nat) : option (list A) :=
  if decide (begin ≤ end_ ∧ end_ ≤ length l)
  then Some (take (end_ - begin) (drop begin l))
  else None.

(** The body of the inner loop: create the subscriber's map on first use and
    record the partition in it. *)
Definition add_partition (m : assignment) (subscriberID : string) (partition : Z) : assignment :=
  <[subscriberID := <[partition := true]> (assigned_to m subscriberID)]> m.

(** The loop over the sorted subscribers, threading [begin] and [extra]. *)
Fixpoint assign_loop (partitions : list Z) (partitionsPerSubscriber : nat)
    (subscribers : list string) (begin extra : nat) (m : assignment)
    : option assignment :=
  match subscribers with
  | [] => Some m
  | subscriberID :: rest =>
      let end0 := begin + partitionsPerSubscriber in
      let '(end_, extra') :=
        if decide (extra ≠ 0) then (S end0, extra - 1) else (end0, extra) in
      match subslice partitions begin end_ with
      | None => None
      | Some block =>
          assign_loop partitions partitionsPerSubscriber rest end_ extra'
            (foldl (λ m partition, add_partition m subscriberID partition) m block)
      end
  end.

(** What a call leaves behind: the returned map ([None] when the call
    panics) and the contents of the two argument slices, which the sort
    rewrites in place. *)
Record outcome := Outcome {
  result : option assignment;
  partitions_after : list Z;
  subscribers_after : list string;
}.

Definition assignPartitionsToSubscribers (partitions : list Z) (subscribers : list string)
    : outcome :=
  let partitionCount := length partitions in
  let subscriberCount := length subscribers in
  if decide (partitionCount = 0 ∨ subscriberCount = 0)
  then Outcome (Some ∅) partitions subscribers
  else
    let partitions := sortInt32 partitions in
    let subscribers := sortStrings subscribers in
    let partitionsPerSubscriber := partitionCount / subscriberCount in
    let extra := partitionCount - subscriberCount * partitionsPerSubscriber in
    Outcome (assign_loop partitions partitionsPerSubscriber subscribers 0 extra ∅)
            partitions subscribers.

(** ** The reference algorithm, in the design document's words

    With both lists sorted, [q = len(partitions) div len(subscribers)] and
    [r = len(partitions) mod len(subscribers)], the subscriber at position
    [i] gets [q] consecutive partitions, one more when [i < r]; its block
    starts where the blocks of the positions before it end. *)
Definition reference_block (partitions : list Z) (subscriberCount i : nat) : list Z :=
  let q := length partitions / subscriberCount in
  let r := length partitions `mod` subscriberCount in
  take (q + (if decide (i < r) then 1 else 0)) (drop (i * q + i `min` r) partitions).

Definition reference_assignment (partitions : list Z) (subscribers : list string)
    (subscriberID : string) : gset Z :=
  match partitions, subscribers with
  | [], _ | _, [] => ∅
  | _, _ =>
      let sorted := sortInt32 partitions in
      let subs := sortStrings subscribers in
      ⋃ (imap (λ i s, if decide (s = subscriberID)
                       then list_to_set (reference_block sorted (length subs) i)
                       else ∅) subs)
  end.

(** The partitions a subscriber holds in a returned map, and the map's
    well-formedness: every stored flag is [true]. *)
Definition partitions_of (m : assignment) (subscriberID : string) : gset Z :=
  dom (assigned_to m subscriberID).

Definition all_true (m : assignment) : Prop :=
  ∀ s p b, assigned_to m s !! p = Some b → b = true.

(** [block_at] is the block the loop hands to the subscriber [j] positions
    further on, when it is entered with the given [begin] and [extra]. *)
Definition block_at (partitions : list Z) (q begin extra j : nat) : list Z :=
  take (q + (if decide (j < extra) then 1 else 0))
       (drop (begin + j * q + j `min` extra) partitions).

(** The index at which the block of position [i] starts, for [n] partitions
    and [k] subscribers. *)
Definition block_start (n k i : nat) : nat := i * (n / k) + i `min` (n `mod` k).

(** What the design document concludes about a returned map: every
    partition goes to a subscriber, none goes to two, and the numbers of
    partitions of any two subscribers differ by at most one. *)
Definition exact_and_balanced (partitions : list Z) (subscribers : list string)
    (m : assignment) : Prop :=
  (∀ p, p ∈ partitions ↔ ∃ s, s ∈ subscribers ∧ is_assigned m s p = true) ∧
  (∀ s1 s2 p, is_assigned m s1 p = true → is_assigned m s2 p = true → s1 = s2) ∧
  (∀ s1 s2, s1 ∈ subscribers → s2 ∈ subscribers →
     size (assigned_to m s1) ≤ size (assigned_to m s2) + 1).

(** ** The argument slices in the caller's memory

    A Go slice is a window [base, base + len) of a backing array that the
    caller and the callee share; sorting the slice rewrites that window of
    the array. *)
Record sliceHeader := SliceHeader { base : nat; len : nat }.

Definition view {A} (array : list A) (s : sliceHeader) : list A :=
  take (len s) (drop (base s) array).

Definition store {A} (array : list A) (s : sliceHeader) (contents : list A) : list A :=
  take (base s) array ++ contents ++ drop (base s + len s) array.

Record memory := Memory { int32s : list Z; strings : list string }.

(** The call as the caller sees it: the returned map and the memory after
    the call. *)
Definition call (mem : memory) (partitions subscribers : sliceHeader)
    : option assignment * memory :=
  let out := assignPartitionsToSubscribers (view (int32s mem) partitions)
                                           (view (strings mem) subscribers) in
  (result out,
   Memory (store (int32s mem) partitions (partitions_after out))
          (store (strings mem) subscribers (subscribers_after out))).

End Assignment.

(** * The exclusive consumer ([exclusiveConsumer.run])

    The goroutine is a sequential state machine driven by what its [select]
    statements receive.  An [event] is one such receipt; an [action] is a
    call the goroutine makes on a collaborator. *)
Module ExclusiveConsumer.

Local Open Scope Z_scope.

(** [sarama.ConsumerMessage], reduced to the fields the consumer reads. *)
Record ConsumerMessage := Message { Offset : Z; Value : string }.

(** [sarama.OffsetNewest]. *)
Definition OffsetNewest : Z := -1.

Inductive event :=
  | InitialOffset (offset : Z)      (* [<-pom.InitialOffset()] *)
  | Fetched (msg : ConsumerMessage) (* [<-pc.Messages()] *)
  | Committed (offset : Z)          (* [<-pom.CommittedOffsets()] *)
  | CommittedClosed                 (* [pom.CommittedOffsets()] is closed *)
  | Offered                         (* [ec.messagesCh <- msg] went through *)
  | Acked                           (* [<-ec.acksCh] *)
  | Stopping.                       (* [<-ec.stoppingCh] *)

Inductive action :=
  | ClaimPartition                  (* [ec.registry.claimPartition(...)] *)
  | ManagePartition                 (* [ec.offsetMgr.ManagePartition(...)] *)
  | ConsumePartition (offset : Z)   (* [ec.dumbConsumer.ConsumePartition(...)] *)
  | SubmitOffset (offset : Z)       (* [pom.SubmitOffset(offset, "")] *)
  | NotifyFirstMessage              (* [firstMessageFetchedCh <- ec] *)
  | LogWaiting (committed : Z)      (* the "waiting for the last offset" line *)
  | ClosePartitionConsumer          (* deferred [pc.Close()] *)
  | ClosePom                        (* deferred [pom.Close()] *)
  | ReleaseClaim                    (* the deferred release of the claim *)
  | Panic.

Inductive phase :=
  | WaitInitialOffset               (* the first [select] *)
  | Fetching                        (* the inner [for]/[select] *)
  | Offering (msg : ConsumerMessage)(* the [offerAndAck] loop *)
  | Draining                        (* [range pom.CommittedOffsets()] *)
  | Returned                        (* [run] has returned *)
  | Panicked.

Record state := State {
  at_ : phase;
  lastSubmittedOffset : Z;
  lastCommittedOffset : Z;
  firstMessageFetched : bool;
  deferred : list action;           (* pending deferred calls, innermost first *)
}.

Global Instance ConsumerMessage_eq_dec : EqDecision ConsumerMessage.
Proof. solve_decision. Defined.
Global Instance event_eq_dec : EqDecision event.
Proof. solve_decision. Defined.
Global Instance action_eq_dec : EqDecision action.
Proof. solve_decision. Defined.
Global Instance phase_eq_dec : EqDecision phase.
Proof. solve_decision. Defined.

Section Run.
(** The collaborators' answers: whether [ManagePartition] succeeds, the
    concrete offset [ConsumePartition] returns ([None]: an error), and
    whether the test hook channel [firstMessageFetchedCh] is set. *)
Variable managePartitionOk : bool.
Variable consumePartition : Z → option Z.
Variable firstMessageFetchedCh : bool.

(** [return]: the deferred calls run, innermost first. *)
Definition return_ (s : state) : state * list action :=
  (State Returned (lastSubmittedOffset s) (lastCommittedOffset s)
         (firstMessageFetched s) [],
   deferred s).

(** [panic(...)]: the deferred calls still run, then the goroutine dies. *)
Definition panic_ (s : state) : state * list action :=
  (State Panicked (lastSubmittedOffset s) (lastCommittedOffset s)
         (firstMessageFetched s) [],
   deferred s ++ [Panic]).

Definition goto (p : phase) (s : state) : state :=
  State p (lastSubmittedOffset s) (lastCommittedOffset s)
        (firstMessageFetched s) (deferred s).

Definition set_committed (offset : Z) (s : state) : state :=
  State (at_ s) (lastSubmittedOffset s) offset (firstMessageFetched s) (deferred s).

Definition set_submitted (offset : Z) (s : state) : state :=
  State (at_ s) offset (lastCommittedOffset s) (firstMessageFetched s) (deferred s).

Definition defer (a : action) (s : state) : state :=
  State (at_ s) (lastSubmittedOffset s) (lastCommittedOffset s)
        (firstMessageFetched s) (a :: deferred s).

(** From the entry of [run] to the first [select]. *)
Definition start : state * list action :=
  let s := State WaitInitialOffset 0 0 false [ReleaseClaim] in
  if managePartitionOk
  then (defer ClosePom s, [ClaimPartition; ManagePartition])
  else let '(s', acts) := panic_ s in (s', [ClaimPartition; ManagePartition] ++ acts).

(** The [done:] label. *)
Definition done (s : state) : state * list action :=
  if decide (lastCommittedOffset s = lastSubmittedOffset s)
  then return_ s
  else (goto Draining s, [LogWaiting (lastCommittedOffset s)]).

(** One receipt.  [None]: no [select] of the current state waits for the
    event. *)
Definition step (s : state) (e : event) : option (state * list action) :=
  match at_ s, e with
  | WaitInitialOffset, InitialOffset initialOffset =>
      match consumePartition initialOffset with
      | None =>
          let '(s', acts) := panic_ s in
          Some (s', ConsumePartition initialOffset :: acts)
      | Some concreteOffset =>
          let s := defer ClosePartitionConsumer s in
          if decide (initialOffset = OffsetNewest)
          then Some (goto Fetching (set_submitted concreteOffset s),
                     [ConsumePartition initialOffset; SubmitOffset concreteOffset])
          else Some (goto Fetching s, [ConsumePartition initialOffset])
      end
  | WaitInitialOffset, Stopping => Some (return_ s)
  | Fetching, Fetched msg =>
      if negb (firstMessageFetched s) && firstMessageFetchedCh
      then Some (State (Offering msg) (lastSubmittedOffset s) (lastCommittedOffset s)
                       true (deferred s),
                 [NotifyFirstMessage])
      else Some (goto (Offering msg) s, [])
  | Fetching, Committed offset => Some (set_committed offset s, [])
  | Fetching, CommittedClosed => Some (set_committed 0 s, [])
  | Fetching, Stopping => Some (done s)
  | Offering msg, Offered => Some (s, [])
  | Offering msg, Acked =>
      let offset := Int64.add (Offset msg) 1 in
      Some (goto Fetching (set_submitted offset s), [SubmitOffset offset])
  | Offering msg, Committed offset => Some (set_committed offset s, [])
  | Offering msg, CommittedClosed => Some (set_committed 0 s, [])
  | Offering msg, Stopping => Some (done s)
  | Draining, Committed offset =>
      if decide (offset = lastSubmittedOffset s)
      then Some (return_ s)
      else Some (s, [LogWaiting offset])
  | Draining, CommittedClosed => Some (return_ s)
  | _, _ => None
  end.

(** A schedule of receipts, played from a state.  An event the current
    state does not wait for is not consumed and changes nothing. *)
Fixpoint exec (s : state) (events : list event) : state * list action :=
  match events with
  | [] => (s, [])
  | e :: events =>
      match step s e with
      | None => exec s events
      | Some (s', acts) =>
          let '(s'', acts') := exec s' events in (s'', acts ++ acts')
      end
  end.

(** [run] under a schedule: the final state and everything it did. *)
Definition run (events : list event) : state * list action :=
  let '(s, acts) := start in
  let '(s', acts') := exec s events in
  (s', acts ++ acts').

(** The states [run] can be in: the one [start] leaves, and every state a
    receipt leads to from there. *)
Inductive reachable : state → Prop :=
  | reachable_start : reachable start.1
  | reachable_step s e s' acts :
      reachable s → step s e = Some (s', acts) → reachable s'.

(** The only calls [run] ever defers. *)
Definition deferred_ok (s : state) : Prop :=
  ∀ a, a ∈ deferred s → a = ClosePartitionConsumer ∨ a = ClosePom ∨ a = ReleaseClaim.

End Run.

End ExclusiveConsumer.

(** * The topic consumer ([topicConsumer.run]) and [T.Consume] *)
Module TopicConsumer.

Import ExclusiveConsumer.
Local Open Scope Z_scope.

(** The three error types of the package. *)
Inductive error := ErrSetup | ErrBufferOverflow | ErrRequestTimeout.

Record consumeResult := Result {
  Msg : option ConsumerMessage;
  Err : option error;
}.

(** A reply channel is identified by a number; [Consume] makes a fresh one
    for every call. *)
Record consumeRequest := Request {
  timestamp : Z;     (* [time.Time], in nanoseconds *)
  group : string;
  topic : string;
  replyCh : nat;
}.

Global Instance error_eq_dec : EqDecision error.
Proof. solve_decision. Defined.
Global Instance consumeResult_eq_dec : EqDecision consumeResult.
Proof. solve_decision. Defined.

(** [t.Sub(u)]: a [time.Duration] is an [int64] count of nanoseconds, and
    [Sub] returns the largest or smallest duration when the difference does
    not fit. *)
Definition time_sub (t u : Z) : Z :=
  Int64.min_int `max` (Int64.max_int `min` (t - u)).

Definition timeoutResult : consumeResult := Result None (Some ErrRequestTimeout).

(** Which case of the [select] over [tc.messagesCh] and [time.After(ttl)]
    fires. *)
Inductive selected :=
  | MessageReceived (msg : ConsumerMessage)
  | TimerFired.

(** What handling one request does: the reply sent on its reply channel,
    the message taken from [tc.messagesCh] (if any), and the timer armed by
    [time.After] (if any). *)
Record served := Served {
  reply : nat * consumeResult;
  taken : option ConsumerMessage;
  timer : option Z;
}.

Section Run.
(** [tc.cfg.Consumer.LongPollingTimeout], a [time.Duration]. *)
Variable LongPollingTimeout : Z.

Definition ttl_of (now : Z) (consumeReq : consumeRequest) : Z :=
  let requestAge := time_sub now (timestamp consumeReq) in
  Int64.sub LongPollingTimeout requestAge.

(** The body of the [for consumeReq := range tc.requestsCh] loop; [now] is
    what [time.Now().UTC()] reads. *)
Definition serve (consumeReq : consumeRequest) (now : Z) (sel : selected) : served :=
  let ttl := ttl_of now consumeReq in
  if decide (ttl ≤ 0)
  then Served (replyCh consumeReq, timeoutResult) None None
  else match sel with
       | MessageReceived msg =>
           Served (replyCh consumeReq, Result (Some msg) None) (Some msg) (Some ttl)
       | TimerFired =>
           Served (replyCh consumeReq, timeoutResult) None (Some ttl)
       end.

(** The loop over the requests it dequeues, each with the clock reading
    and the [select] outcome it meets: the replies sent, in order. *)
Definition run (dequeued : list (consumeRequest * Z * selected)) : list (nat * consumeResult) :=
  (λ '(consumeReq, now, sel), reply (serve consumeReq now sel)) <$> dequeued.

End Run.

(** ** The request queue between the dispatcher and the topic consumer *)

Definition overflowResult : consumeResult := Result None (Some ErrBufferOverflow).

(** Modelled from the spec: the dispatcher's hand-off ([dispatcher.go] is not
    among the sources).  "Forward the request onto the child's requests
    channel using a non-blocking offer; if the child's queue is full, reply
    with BUFFER_OVERFLOW."  The result is the queue afterwards and the reply
    the dispatcher sends itself, if any. *)
Definition offer (ChannelBufferSize : nat) (queue : list consumeRequest)
    (req : consumeRequest) : list consumeRequest * option (nat * consumeResult) :=
  if decide (length queue < ChannelBufferSize)%nat
  then (queue ++ [req], None)
  else (queue, Some (replyCh req, overflowResult)).

(** [tc.requestsCh] with everything sent on reply channels so far. *)
Record pipeline := Pipeline {
  requestsCh : list consumeRequest;   (* buffered requests, oldest first *)
  closed : bool;                      (* [tc.stop()] has closed the queue *)
  dispatched : list consumeRequest;   (* every request handed to the dispatcher *)
  delivered : list (nat * consumeResult);
}.

Inductive pipeline_event :=
  | Dispatch (req : consumeRequest)   (* the dispatcher offers a request *)
  | Dequeue (now : Z) (sel : selected)(* the [range] loop takes the next one *)
  | Stop.                             (* [close(tc.requestsCh)] *)

Section Pipeline.
Variable LongPollingTimeout : Z.
Variable ChannelBufferSize : nat.

Definition pipeline_step (p : pipeline) (e : pipeline_event) : option pipeline :=
  match e with
  | Dispatch req =>
      if closed p then None
      else
        let '(queue, overflow) := offer ChannelBufferSize (requestsCh p) req in
        Some (Pipeline queue false (dispatched p ++ [req])
                       (delivered p ++ option_list overflow))
  | Dequeue now sel =>
      match requestsCh p with
      | [] => None
      | consumeReq :: queue =>
          Some (Pipeline queue (closed p) (dispatched p)
                  (delivered p ++ [reply (serve LongPollingTimeout consumeReq now sel)]))
      end
  | Stop => if closed p then None else Some (Pipeline (requestsCh p) true (dispatched p) (delivered p))
  end.

Fixpoint pipeline_exec (p : pipeline) (events : list pipeline_event) : pipeline :=
  match events with
  | [] => p
  | e :: events =>
      match pipeline_step p e with
      | None => pipeline_exec p events
      | Some p' => pipeline_exec p' events
      end
  end.

(** The [range] loop ends when the queue is closed and empty. *)
Definition loop_exited (p : pipeline) : bool :=
  closed p && bool_decide (requestsCh p = []).

End Pipeline.

Definition empty_pipeline : pipeline := Pipeline [] false [] [].

(** ** [T.Consume] *)

(** What arrives on one reply channel, in order. *)
Definition received_on (ch : nat) (delivered : list (nat * consumeResult)) : list consumeResult :=
  snd <$> filter (λ d, d.1 = ch) delivered.

(** [result := <-replyCh; return result.Msg, result.Err]: the first value
    on the channel, [None] while nothing has arrived. *)
Definition Consume (ch : nat) (delivered : list (nat * consumeResult))
    : option (option ConsumerMessage * option error) :=
  match received_on ch delivered with
  | [] => None
  | result :: _ => Some (Msg result, Err result)
  end.

(** A reply carries exactly one of: a message, the timeout error, the
    buffer overflow error. *)
Definition well_formed (result : consumeResult) : Prop :=
  (∃ msg, result = Result (Some msg) None) ∨
  result = timeoutResult ∨ result = overflowResult.

(** What holds of the pipeline at all times: the requests handed to the
    dispatcher are those replied to together with those still queued. *)
Definition balanced (p : pipeline) : Prop :=
  replyCh <$> dispatched p ≡ₚ (delivered p).*1 ++ (replyCh <$> requestsCh p) ∧
  Forall (λ r, well_formed r.2) (delivered p).

End TopicConsumer.

(** * The group consumer: [managePartitions], [rebalance],
      [rewireMultiplexer], [resolvePartitions] *)
Module GroupConsumer.

Import Assignment.

(** A [*topicConsumer]: the topic it serves and its identity. *)
Record topicConsumer := TopicConsumer { tc_topic : string; tc_id : nat }.

(** ** The control loop of [managePartitions] *)

(** [nilOrRetryCh]: nil, the channel of a [time.After(timeout)] that has not
    fired yet, or such a channel after its only value was received. *)
Inductive timerCh := NilTimer | Armed (timeout : Z) | Expired.

(** The local variables of the loop. *)
Record loop := Loop {
  topicConsumers : gmap string topicConsumer;
  topics : list string;
  memberSubscriptions : gmap string (list string);
  nilOrRetryCh : timerCh;
  nilOrRegistryTopicsCh : bool;     (* [false]: nil *)
  shouldRebalance : bool;
  canRebalance : bool;
}.

(** The loop together with what surrounds it: the buffer of
    [rebalanceResultCh] (capacity 1), the [rebalance] goroutines that were
    spawned and have not sent their result yet, and whether the loop has
    left through [done]. *)
Record world := World {
  vars : loop;
  rebalanceResultCh : list (option string);
  running : nat;
  exited : bool;
}.

Inductive event :=
  | AddTopicConsumer (tc : topicConsumer)        (* [<-gc.addTopicConsumerCh] *)
  | DeleteTopicConsumer (tc : topicConsumer)     (* [<-gc.deleteTopicConsumerCh] *)
  | TopicsSent                                   (* [nilOrRegistryTopicsCh <- topics] *)
  | MembershipChanged (subscriptions : gmap string (list string))
  | MembershipClosed                             (* [membershipChanges()] is closed *)
  | RebalanceResult                              (* [<-rebalanceResultCh] *)
  | RetryTimer                                   (* [<-nilOrRetryCh] *)
  | RebalanceFinished (err : option string).     (* a [rebalance] sends its result *)

Inductive action :=
  | SendTopics (topics : list string)
  | LogRebalanceFailed (err : string)
  | SpawnRebalance (topicConsumerCopy : gmap string topicConsumer)
                   (memberSubscriptions : gmap string (list string)).

(** How a [select] case ends: [continue], falling out of the [select] to
    the rebalance check, or [goto done]. *)
Inductive control := Continue | FallThrough | Done.

Definition listTopics (topicConsumers : gmap string topicConsumer) : list string :=
  (map_to_list topicConsumers).*1.

Definition init : world :=
  World (Loop ∅ [] ∅ NilTimer false false true) [] 0 false.

Section ManagePartitions.
(** [gc.cfg.Consumer.BackOffTimeout]. *)
Variable BackOffTimeout : Z.

(** The [select] statement: the case that receives [e].  [None]: no case
    can take [e] in the current state. *)
Definition select (l : loop) (resultCh : list (option string)) (e : event)
    : option (loop * control * list action) :=
  match e with
  | AddTopicConsumer tc =>
      let topicConsumers := <[tc_topic tc := tc]> (topicConsumers l) in
      Some (Loop topicConsumers (listTopics topicConsumers) (memberSubscriptions l)
                 (nilOrRetryCh l) true (shouldRebalance l) (canRebalance l),
            Continue, [])
  | DeleteTopicConsumer tc =>
      let topicConsumers := delete (tc_topic tc) (topicConsumers l) in
      Some (Loop topicConsumers (listTopics topicConsumers) (memberSubscriptions l)
                 (nilOrRetryCh l) true (shouldRebalance l) (canRebalance l),
            Continue, [])
  | TopicsSent =>
      if nilOrRegistryTopicsCh l
      then Some (Loop (topicConsumers l) (topics l) (memberSubscriptions l)
                      (nilOrRetryCh l) false (shouldRebalance l) (canRebalance l),
                 Continue, [SendTopics (topics l)])
      else None
  | MembershipChanged subscriptions =>
      Some (Loop (topicConsumers l) (topics l) subscriptions
                 NilTimer (nilOrRegistryTopicsCh l) true (canRebalance l),
            FallThrough, [])
  | MembershipClosed =>
      Some (Loop (topicConsumers l) (topics l) ∅
                 (nilOrRetryCh l) (nilOrRegistryTopicsCh l)
                 (shouldRebalance l) (canRebalance l),
            Done, [])
  | RebalanceResult =>
      match resultCh with
      | [] => None
      | Some err :: _ =>
          Some (Loop (topicConsumers l) (topics l) (memberSubscriptions l)
                     (Armed BackOffTimeout) (nilOrRegistryTopicsCh l)
                     (shouldRebalance l) true,
                Continue, [LogRebalanceFailed err])
      | None :: _ =>
          Some (Loop (topicConsumers l) (topics l) (memberSubscriptions l)
                     (nilOrRetryCh l) (nilOrRegistryTopicsCh l)
                     (shouldRebalance l) true,
                FallThrough, [])
      end
  | RetryTimer =>
      match nilOrRetryCh l with
      | Armed _ =>
          Some (Loop (topicConsumers l) (topics l) (memberSubscriptions l)
                     Expired (nilOrRegistryTopicsCh l) true (canRebalance l),
                FallThrough, [])
      | _ => None
      end
  | RebalanceFinished _ => None
  end.

(** [if shouldRebalance && canRebalance { ... }] after the [select]. *)
Definition maybeRebalance (l : loop) : loop * list action :=
  if shouldRebalance l && canRebalance l
  then (Loop (topicConsumers l) (topics l) (memberSubscriptions l)
             (nilOrRetryCh l) (nilOrRegistryTopicsCh l) false false,
        [SpawnRebalance (topicConsumers l) (memberSubscriptions l)])
  else (l, []).

(** One iteration of the loop, or one [rebalance] goroutine sending its
    result (a send that needs room in the channel's buffer). *)
Definition step (w : world) (e : event) : option (world * list action) :=
  match e with
  | RebalanceFinished err =>
      if decide (0 < running w ∧ length (rebalanceResultCh w) < 1)
      then Some (World (vars w) (rebalanceResultCh w ++ [err]) (running w - 1) (exited w), [])
      else None
  | _ =>
      if exited w then None
      else match select (vars w) (rebalanceResultCh w) e with
           | None => None
           | Some (l, ctl, acts) =>
               let ch := match e with
                         | RebalanceResult => tail (rebalanceResultCh w)
                         | _ => rebalanceResultCh w
                         end in
               match ctl with
               | Continue => Some (World l ch (running w) false, acts)
               | Done => Some (World l ch (running w) true, acts)
               | FallThrough =>
                   let '(l', spawned) := maybeRebalance l in
                   Some (World l' ch (running w + length spawned) false, acts ++ spawned)
               end
           end
  end.

(** A schedule played from a state; an event that cannot happen in the
    current state is skipped. *)
Fixpoint exec (w : world) (events : list event) : world * list action :=
  match events with
  | [] => (w, [])
  | e :: events =>
      match step w e with
      | None => exec w events
      | Some (w', acts) => let '(w'', acts') := exec w' events in (w'', acts ++ acts')
      end
  end.

(** The states the loop and its surroundings can be in. *)
Inductive reachable : world → Prop :=
  | reachable_init : reachable init
  | reachable_step w e w' acts :
      reachable w → step w e = Some (w', acts) → reachable w'.

(** The token that serialises rebalances: it is with the loop
    ([canRebalance]), with a running [rebalance], or in the result
    channel; and a pending retry timer means the loop holds it. *)
Definition serialised (w : world) : Prop :=
  running w + length (rebalanceResultCh w)
    + (if canRebalance (vars w) then 1 else 0) = 1 ∧
  (∀ timeout, nilOrRetryCh (vars w) = Armed timeout → canRebalance (vars w) = true).

End ManagePartitions.

(** ** Topic gears and [rewireMultiplexer] *)

(** An [*exclusiveConsumer], as [spawnExclusiveConsumer(topic, partition)]
    makes it. *)
Record exclusiveConsumer := ExclusiveConsumer { ec_topic : string; ec_partition : Z }.

(** A [topicGear]; the multiplexer is nil or wired to a list of inputs. *)
Record topicGear := TopicGear {
  gear_topicConsumer : topicConsumer;
  multiplexer : option (list exclusiveConsumer);
  exclusiveConsumers : gmap Z exclusiveConsumer;
}.

Inductive wiring :=
  | StopMultiplexer
  | StopExclusiveConsumer (ec : exclusiveConsumer)
  | SpawnExclusiveConsumer (ec : exclusiveConsumer)
  | SpawnMultiplexer (muxIns : list exclusiveConsumer).

Global Instance exclusiveConsumer_eq_dec : EqDecision exclusiveConsumer.
Proof. solve_decision. Defined.

(** [if tg.multiplexer != nil { tg.multiplexer.stop(); tg.multiplexer = nil }] *)
Definition stopMultiplexer (g : topicGear * list wiring) : topicGear * list wiring :=
  match multiplexer g.1 with
  | Some _ =>
      (TopicGear (gear_topicConsumer g.1) None (exclusiveConsumers g.1),
       g.2 ++ [StopMultiplexer])
  | None => g
  end.

(** The body of the first loop, over the gear's exclusive consumers. *)
Definition stop_unassigned (assigned : gmap Z bool) (g : topicGear * list wiring)
    (entry : Z * exclusiveConsumer) : topicGear * list wiring :=
  if negb (default false (assigned !! entry.1))
  then let g := stopMultiplexer g in
       (TopicGear (gear_topicConsumer g.1) (multiplexer g.1)
                  (delete entry.1 (exclusiveConsumers g.1)),
        g.2 ++ [StopExclusiveConsumer entry.2])
  else g.

(** The body of the second loop, over the keys of [assigned]. *)
Definition start_assigned (g : topicGear * list wiring) (partition : Z)
    : topicGear * list wiring :=
  match exclusiveConsumers g.1 !! partition with
  | Some _ => g
  | None =>
      let g := stopMultiplexer g in
      let ec := ExclusiveConsumer (tc_topic (gear_topicConsumer g.1)) partition in
      (TopicGear (gear_topicConsumer g.1) (multiplexer g.1)
                 (<[partition := ec]> (exclusiveConsumers g.1)),
       g.2 ++ [SpawnExclusiveConsumer ec])
  end.

(** The final [if]: a fresh multiplexer over all exclusive consumers. *)
Definition wire (g : topicGear * list wiring) : topicGear * list wiring :=
  if decide (multiplexer g.1 = None ∧ 0 < size (exclusiveConsumers g.1))
  then let muxIns := (map_to_list (exclusiveConsumers g.1)).*2 in
       (TopicGear (gear_topicConsumer g.1) (Some muxIns) (exclusiveConsumers g.1),
        g.2 ++ [SpawnMultiplexer muxIns])
  else g.

(** The gear after the call, and what the call did.  A nil [assigned] is the
    empty map. *)
Definition rewireMultiplexer (tg : topicGear) (assigned : gmap Z bool)
    : topicGear * list wiring :=
  let g := foldl (stop_unassigned assigned) (tg, [])
                 (map_to_list (exclusiveConsumers tg)) in
  let g := foldl start_assigned g (map_to_list assigned).*1 in
  wire g.

(** A gear as [rebalance] creates it. *)
Definition new_gear (tc : topicConsumer) : topicGear := TopicGear tc None ∅.

(** The gear [rebalance] created for [tc], after the given calls of
    [rewireMultiplexer] on it, run one after another: each call has
    returned before the next begins. *)
Definition rewired (tc : topicConsumer) (calls : list (gmap Z bool)) : topicGear :=
  foldl (λ tg assigned, (rewireMultiplexer tg assigned).1) (new_gear tc) calls.

(** The invariant of a gear between calls: the multiplexer is present
    exactly when there are exclusive consumers, and it is wired to all of
    them. *)
Definition gear_invariant (tg : topicGear) : Prop :=
  match multiplexer tg with
  | None => exclusiveConsumers tg = ∅
  | Some muxIns =>
      exclusiveConsumers tg ≠ ∅ ∧ muxIns = (map_to_list (exclusiveConsumers tg)).*2
  end.

(** Every gear is the outcome of rewiring, with its topic's assignment, a
    gear that satisfied the invariant. *)
Definition rewired_with (assignedPartitions : gmap string (gmap Z bool))
    (topicGears : gmap string topicGear) : Prop :=
  ∀ topic tg, topicGears !! topic = Some tg →
    ∃ tg0, gear_invariant tg0 ∧
           tg = (rewireMultiplexer tg0 (default ∅ (assignedPartitions !! topic))).1.

(** ** [resolvePartitions] and [rebalance] *)

Inductive resolution :=
  | Resolved (assignedPartitions : gmap string (gmap Z bool))
  | ResolveFailed (topic : string)    (* the partition list could not be read *)
  | ResolvePanicked.

Inductive rebalanced :=
  | Rebalanced (topicGears : gmap string topicGear)   (* sends nil *)
  | RebalanceFailed (topic : string)                  (* sends the error *)
  | RebalancePanicked.

Section Rebalance.
(** [gc.cfg.ClientID] and [gc.kafkaClient.Partitions] ([None]: an error). *)
Variable ClientID : string.
Variable Partitions : string → option (list Z).

Definition invert (subscribersToTopics : gmap string (list string))
    : gmap string (list string) :=
  foldl (λ acc entry,
           foldl (λ acc topic, <[topic := default [] (acc !! topic) ++ [entry.1]]> acc)
                 acc entry.2)
        ∅ (map_to_list subscribersToTopics).

Definition resolve_topic (topicsToSubscribers : gmap string (list string))
    (acc : resolution) (topic : string) : resolution :=
  match acc with
  | Resolved assignedPartitions =>
      match Partitions topic with
      | None => ResolveFailed topic
      | Some topicPartitions =>
          match result (assignPartitionsToSubscribers topicPartitions
                          (default [] (topicsToSubscribers !! topic))) with
          | None => ResolvePanicked
          | Some partitionsToSubscribers =>
              Resolved (<[topic := assigned_to partitionsToSubscribers ClientID]>
                          assignedPartitions)
          end
      end
  | _ => acc
  end.

Definition resolvePartitions (subscribersToTopics : gmap string (list string))
    : resolution :=
  let topicsToSubscribers := invert subscribersToTopics in
  let subscribedTopics : gset string :=
    list_to_set (default [] (subscribersToTopics !! ClientID)) in
  foldl (resolve_topic topicsToSubscribers) (Resolved ∅) (elements subscribedTopics).

(** The body of the loop that starts consuming topics with no gear yet. *)
Definition add_gear (topicConsumers : gmap string topicConsumer)
    (topicGears : gmap string topicGear) (entry : string * gmap Z bool)
    : gmap string topicGear :=
  match topicConsumers !! entry.1, topicGears !! entry.1 with
  | Some tc, None =>
      <[entry.1 := (rewireMultiplexer (new_gear tc) entry.2).1]> topicGears
  | _, _ => topicGears
  end.

Definition rebalance (topicGears : gmap string topicGear)
    (topicConsumers : gmap string topicConsumer)
    (memberSubscriptions : gmap string (list string)) : rebalanced :=
  match resolvePartitions memberSubscriptions with
  | ResolveFailed topic => RebalanceFailed topic
  | ResolvePanicked => RebalancePanicked
  | Resolved assignedPartitions =>
      let topicGears :=
        map_imap (λ topic tg,
                    Some (rewireMultiplexer tg (default ∅ (assignedPartitions !! topic))).1)
                 topicGears in
      let topicGears :=
        foldl (add_gear topicConsumers) topicGears (map_to_list assignedPartitions) in
      Rebalanced (filter (λ entry, multiplexer entry.2 ≠ None) topicGears)
  end.

End Rebalance.

End GroupConsumer.

(** * [Int32Slice]: the [sort.Interface] of a slice of partitions *)
Module Int32Slice.

Definition Len (p : list Z) : nat := length p.

(** [p[i] < p[j]]; an index out of range panics ([None]). *)
Definition Less (p : list Z) (i j : nat) : option bool :=
  pi ← p !! i; pj ← p !! j; Some (bool_decide (pi < pj)%Z).

(** [p[i], p[j] = p[j], p[i]]; an index out of range panics ([None]). *)
Definition Swap (p : list Z) (i j : nat) : option (list Z) :=
  pi ← p !! i; pj ← p !! j; Some (<[j := pi]> (<[i := pj]> p)).

End Int32Slice.

(** * Reading the maps of [resolvePartitions] *)
Module Resolve.

Import Assignment GroupConsumer.

(** [topicsToSubscribers[topic]]: a missing key reads as the nil slice. *)
Definition subscribers_of (topicsToSubscribers : gmap string (list string))
    (topic : string) : list string :=
  default [] (topicsToSubscribers !! topic).

(** What the loop of [resolvePartitions] stores for one topic: the
    partitions [assignPartitionsToSubscribers] gives to [ClientID] among
    the topic's subscribers ([None] when the partition list cannot be
    read). *)
Definition resolved_entry (ClientID : string) (Partitions : string → option (list Z))
    (topicsToSubscribers : gmap string (list string)) (topic : string)
    : option (gmap Z bool) :=
  topicPartitions ← Partitions topic;
  partitionsToSubscribers ←
    result (assignPartitionsToSubscribers topicPartitions
              (subscribers_of topicsToSubscribers topic));
  Some (assigned_to partitionsToSubscribers ClientID).

End Resolve.

(** * The order of what [rewireMultiplexer] does *)
Module Rewire.

Import GroupConsumer.

(** A state of the two loops, for a gear whose multiplexer was [mux0] on
    entry: no multiplexer has been spawned, and the old multiplexer is
    either still running with nothing done yet, or was stopped once, as the
    very first thing. *)
Definition tidy (mux0 : option (list exclusiveConsumer)) (g : topicGear * list wiring)
    : Prop :=
  (∀ muxIns, SpawnMultiplexer muxIns ∉ g.2) ∧
  match mux0 with
  | Some _ =>
      (multiplexer g.1 = mux0 ∧ g.2 = []) ∨
      (multiplexer g.1 = None ∧
       ∃ rest, g.2 = StopMultiplexer :: rest ∧ StopMultiplexer ∉ rest)
  | None => multiplexer g.1 = None ∧ StopMultiplexer ∉ g.2
  end.

End Rewire.

(** * Reading the schedules and traces of the exclusive consumer *)
Module ExclusiveConsumerTrace.

Import ExclusiveConsumer.

(** The offsets a trace submits, in order. *)
Definition submitted (acts : list action) : list Z :=
  omap (λ a, match a with SubmitOffset offset => Some offset | _ => None end) acts.

(** The message being offered in a state, if any. *)
Definition pending (s : state) : list ConsumerMessage :=
  match at_ s with Offering msg => [msg] | _ => [] end.

(** [run] is over: it has returned or panicked. *)
Definition finished (s : state) : bool :=
  match at_ s with Returned | Panicked => true | _ => false end.

(** The calls [run] defers: [pc.Close()], [pom.Close()] and the release of
    the claim. *)
Definition is_deferred_call (a : action) : bool :=
  match a with
  | ClosePartitionConsumer | ClosePom | ReleaseClaim => true
  | _ => false
  end.

(** How often a trace sends on [firstMessageFetchedCh]. *)
Definition notifications (acts : list action) : nat :=
  length (filter (λ a, a = NotifyFirstMessage) acts).

Section Fetched.
Variable consumePartition : Z → option Z.
Variable firstMessageFetchedCh : bool.

(** The messages the consumer receives from [pc.Messages()] under a
    schedule, in order. *)
Fixpoint fetched (s : state) (events : list event) : list ConsumerMessage :=
  match events with
  | [] => []
  | e :: events =>
      match step consumePartition firstMessageFetchedCh s e with
      | None => fetched s events
      | Some (s', _) =>
          match e with
          | Fetched msg => msg :: fetched s' events
          | _ => fetched s' events
          end
      end
  end.

End Fetched.

End ExclusiveConsumerTrace.

(** * Calls of [rewireMultiplexer] that overlap on one gear *)
Module Overlap.

Import GroupConsumer.

(** Where the goroutine of a call is: before the first loop, in
    [wg.Wait()] between the two loops, or back from the call. *)
Inductive position := AtEntry | AtWait | AtReturn.

Record call := Call { assigned : gmap Z bool; position_of : position }.

(** The gear the calls work on, what has been done to it so far, and the
    calls.  Nothing in [rewireMultiplexer] or its callers locks a gear. *)
Record shared := Shared { gear : topicGear; log : list wiring; calls : list call }.

(** The call up to [wg.Wait()]: the first loop. *)
Definition until_wait (assigned : gmap Z bool) (g : topicGear * list wiring)
    : topicGear * list wiring :=
  foldl (stop_unassigned assigned) g (map_to_list (exclusiveConsumers g.1)).

(** The call from [wg.Wait()] on: the second loop and the final [if]. *)
Definition after_wait (assigned : gmap Z bool) (g : topicGear * list wiring)
    : topicGear * list wiring :=
  wire (foldl start_assigned g (map_to_list assigned).*1).

(** The goroutine of call [i] runs on to its next stop: from the entry to
    [wg.Wait()], where it waits for the exclusive consumers it stopped, or
    from there to the return.  [None]: there is no such call, or it has
    returned.  A goroutine may also give way inside a loop; those
    interleavings are not described here. *)
Definition advance (st : shared) (i : nat) : option shared :=
  c ← calls st !! i;
  match position_of c with
  | AtEntry =>
      let g := until_wait (assigned c) (gear st, log st) in
      Some (Shared g.1 g.2 (<[i := Call (assigned c) AtWait]> (calls st)))
  | AtWait =>
      let g := after_wait (assigned c) (gear st, log st) in
      Some (Shared g.1 g.2 (<[i := Call (assigned c) AtReturn]> (calls st)))
  | AtReturn => None
  end.

(** A schedule names the goroutine that runs next; a goroutine that cannot
    run is passed over. *)
Fixpoint interleave (st : shared) (schedule : list nat) : shared :=
  match schedule with
  | [] => st
  | i :: schedule => interleave (default st (advance st i)) schedule
  end.

(** The call [managePartitions] spawns for a gear after [done:]. *)
Definition exit_call : call := Call ∅ AtEntry.

End Overlap.

(** * Facts about fixed-width arithmetic *)
Module Int64Facts.
Import Int64.
Local Open Scope Z_scope.

Lemma wrap_in_range (z : Z) : in_range (wrap z).
Proof.
  unfold in_range, wrap, min_int, max_int.
  pose proof (Z.mod_pos_bound (z + 2 ^ 63) (2 ^ 64)). lia.
Qed.

Lemma wrap_id (z : Z) : in_range z → wrap z = z.
Proof.
  unfold in_range, wrap, min_int, max_int. intros Hz.
  rewrite Z.mod_small; lia.
Qed.

End Int64Facts.

(** * Facts about the partition assignment *)
Module AssignmentFacts.
Import Assignment.

(** ** Sorting *)

Lemma sortInt32_sorted p : StronglySorted Z.le (sortInt32 p).
Proof. apply StronglySorted_merge_sort; apply _. Qed.

Lemma sortInt32_perm p : sortInt32 p ≡ₚ p.
Proof. apply merge_sort_Permutation. Qed.

Lemma sortStrings_sorted s : StronglySorted String.le (sortStrings s).
Proof. apply StronglySorted_merge_sort; apply _. Qed.

Lemma sortStrings_perm s : sortStrings s ≡ₚ s.
Proof. apply merge_sort_Permutation. Qed.

Lemma sortInt32_length p : length (sortInt32 p) = length p.
Proof. by rewrite sortInt32_perm. Qed.

Lemma sortStrings_length s : length (sortStrings s) = length s.
Proof. by rewrite sortStrings_perm. Qed.

(** The sorted slice depends only on the multiset of the elements. *)
Lemma sortInt32_unique p p' : p ≡ₚ p' → sortInt32 p = sortInt32 p'.
Proof.
  intros Hp. apply (StronglySorted_unique Z.le); auto using sortInt32_sorted.
  by rewrite !sortInt32_perm.
Qed.

Lemma sortStrings_unique s s' : s ≡ₚ s' → sortStrings s = sortStrings s'.
Proof.
  intros Hs. apply (StronglySorted_unique String.le); auto using sortStrings_sorted.
  by rewrite !sortStrings_perm.
Qed.

(** ** The inner loop *)

Lemma assigned_to_add_partition m s p s' :
  assigned_to (add_partition m s p) s' =
    if decide (s = s') then <[p := true]> (assigned_to m s) else assigned_to m s'.
Proof.
  unfold add_partition. unfold assigned_to at 1.
  rewrite lookup_insert. by case_decide.
Qed.

Lemma partitions_of_fill m s block s' :
  partitions_of (foldl (λ m p, add_partition m s p) m block) s' =
    if decide (s = s') then list_to_set block ∪ partitions_of m s' else partitions_of m s'.
Proof.
  revert m. induction block as [|p block IH]; intros m; simpl.
  - case_decide; set_solver.
  - rewrite IH. unfold partitions_of. rewrite assigned_to_add_partition.
    case_decide; [|done]. subst s'. rewrite dom_insert_L. set_solver.
Qed.

Lemma all_true_fill m s block :
  all_true m → all_true (foldl (λ m p, add_partition m s p) m block).
Proof.
  revert m. induction block as [|p block IH]; intros m Hm; simpl; [done|].
  apply IH. intros s' p' b. rewrite assigned_to_add_partition.
  case_decide; [|apply Hm]. subst s'.
  rewrite lookup_insert. case_decide; [naive_solver|apply Hm].
Qed.

Lemma block_at_shift partitions q begin extra j :
  extra ≠ 0 →
  block_at partitions q (S (begin + q)) (extra - 1) j =
  block_at partitions q begin extra (S j).
Proof.
  intros Hextra. unfold block_at.
  replace (S (begin + q) + j * q + j `min` (extra - 1))
    with (begin + S j * q + S j `min` extra) by lia.
  destruct (decide (j < extra - 1)), (decide (S j < extra)); (done || lia).
Qed.

Lemma block_at_shift0 partitions q begin j :
  block_at partitions q (begin + q) 0 j = block_at partitions q begin 0 (S j).
Proof.
  unfold block_at.
  replace (begin + q + j * q + j `min` 0) with (begin + S j * q + S j `min` 0) by lia.
  destruct (decide (j < 0)), (decide (S j < 0)); (done || lia).
Qed.

Lemma assign_loop_spec partitions q subscribers : ∀ begin extra m,
  begin + length subscribers * q + extra `min` length subscribers ≤ length partitions →
  ∃ m', assign_loop partitions q subscribers begin extra m = Some m' ∧
    (all_true m → all_true m') ∧
    ∀ s p, p ∈ partitions_of m' s ↔
      p ∈ partitions_of m s ∨
      ∃ j, subscribers !! j = Some s ∧ p ∈ block_at partitions q begin extra j.
Proof.
  induction subscribers as [|sub rest IH]; intros begin extra m Hlen; simpl in *.
  - exists m. split_and!; [done..|]. intros s p. split; [auto|].
    intros [?|(j & Hj & _)]; [done|]. by rewrite lookup_nil in Hj.
  - destruct (decide (extra ≠ 0)) as [Hextra|Hextra].
    + unfold subslice. rewrite decide_True by lia.
      destruct (IH (S (begin + q)) (extra - 1)
                  (foldl (λ m p, add_partition m sub p) m
                     (take (S (begin + q) - begin) (drop begin partitions))))
        as (m' & Hrun & Htrue & Hdom); [lia|].
      exists m'. split_and!; [done|auto using all_true_fill|].
      intros s p. rewrite Hdom, partitions_of_fill. clear Hdom IH Hrun Htrue.
      setoid_rewrite block_at_shift; [|done].
      split.
      * intros [Hp|(j & Hj & Hp)]; [|right; by exists (S j)].
        case_decide; [|by left]. subst s.
        apply elem_of_union in Hp as [Hp|Hp]; [|by left].
        right. exists 0. split; [done|]. unfold block_at.
        rewrite decide_True by lia.
        apply elem_of_list_to_set in Hp.
        by replace (q + 1) with (S (begin + q) - begin) by lia;
           replace (begin + 0 * q + 0 `min` extra) with begin by lia.
      * intros [Hp|(j & Hj & Hp)].
        { left. case_decide; set_solver. }
        destruct j as [|j]; [|right; by exists j].
        simpl in Hj. injection Hj as ->. left. rewrite decide_True by done.
        apply elem_of_union_l, elem_of_list_to_set. unfold block_at in Hp.
        rewrite decide_True in Hp by lia.
        by replace (q + 1) with (S (begin + q) - begin) in Hp by lia;
           replace (begin + 0 * q + 0 `min` extra) with begin in Hp by lia.
    + assert (extra = 0) as -> by lia.
      unfold subslice. rewrite decide_True by lia.
      destruct (IH (begin + q) 0
                  (foldl (λ m p, add_partition m sub p) m
                     (take (begin + q - begin) (drop begin partitions))))
        as (m' & Hrun & Htrue & Hdom); [lia|].
      exists m'. split_and!; [done|auto using all_true_fill|].
      intros s p. rewrite Hdom, partitions_of_fill. clear Hdom IH Hrun Htrue.
      setoid_rewrite block_at_shift0.
      split.
      * intros [Hp|(j & Hj & Hp)]; [|right; by exists (S j)].
        case_decide; [|by left]. subst s.
        apply elem_of_union in Hp as [Hp|Hp]; [|by left].
        right. exists 0. split; [done|]. unfold block_at.
        rewrite decide_False by lia.
        apply elem_of_list_to_set in Hp.
        by replace (q + 0) with (begin + q - begin) by lia;
           replace (begin + 0 * q + 0 `min` 0) with begin by lia.
      * intros [Hp|(j & Hj & Hp)].
        { left. case_decide; set_solver. }
        destruct j as [|j]; [|right; by exists j].
        simpl in Hj. injection Hj as ->. left. rewrite decide_True by done.
        apply elem_of_union_l, elem_of_list_to_set. unfold block_at in Hp.
        rewrite decide_False in Hp by lia.
        by replace (q + 0) with (begin + q - begin) in Hp by lia;
           replace (begin + 0 * q + 0 `min` 0) with begin in Hp by lia.
Qed.

(** ** Where the blocks of the reference algorithm lie *)

Lemma block_start_S n k i :
  block_start n k (S i) =
  block_start n k i + (n / k + (if decide (i < n `mod` k) then 1 else 0)).
Proof. unfold block_start. case_decide; lia. Qed.

Lemma block_start_mono n k i j : i ≤ j → block_start n k i ≤ block_start n k j.
Proof. unfold block_start. intros Hij. nia. Qed.

Lemma block_start_end n k : k ≠ 0 → block_start n k k = n.
Proof.
  intros Hk. unfold block_start.
  pose proof (Nat.mod_upper_bound n k Hk). pose proof (Nat.div_mod_eq n k). lia.
Qed.

Lemma extra_is_remainder n k : k ≠ 0 → n - k * (n / k) = n `mod` k.
Proof. intros Hk. pose proof (Nat.div_mod_eq n k). lia. Qed.

Lemma block_locate_below n k x j :
  x < block_start n k j →
  ∃ i, i < j ∧ block_start n k i ≤ x < block_start n k (S i).
Proof.
  induction j as [|j IH]; intros Hx.
  - unfold block_start in Hx. lia.
  - destruct (decide (block_start n k j ≤ x)) as [Hge|Hlt].
    + exists j. lia.
    + destruct IH as (i & Hi & Hin); [lia|]. exists i. lia.
Qed.

Lemma block_locate n k x :
  k ≠ 0 → x < n →
  ∃ i, i < k ∧ block_start n k i ≤ x < block_start n k (S i).
Proof.
  intros Hk Hx. apply block_locate_below. by rewrite block_start_end.
Qed.

Lemma elem_of_reference_block partitions k i p :
  p ∈ reference_block partitions k i ↔
  ∃ x, partitions !! x = Some p ∧
       block_start (length partitions) k i ≤ x < block_start (length partitions) k (S i).
Proof.
  rewrite block_start_S. unfold reference_block, block_start.
  rewrite elem_of_take. setoid_rewrite lookup_drop. split.
  - intros (x & Hx & Hlt). eexists. split; [exact Hx|]. lia.
  - intros (x & Hx & Hlo & Hhi).
    exists (x - (i * (length partitions / k) + i `min` (length partitions `mod` k))).
    split; [|lia]. rewrite <-Hx. f_equal. lia.
Qed.

Lemma length_reference_block partitions k i :
  k ≠ 0 → i < k →
  length (reference_block partitions k i) =
  length partitions / k + (if decide (i < length partitions `mod` k) then 1 else 0).
Proof.
  intros Hk Hi.
  pose proof (block_start_mono (length partitions) k (S i) k ltac:(lia)) as Hle.
  rewrite block_start_end, block_start_S in Hle by done.
  unfold reference_block. fold (block_start (length partitions) k i).
  rewrite length_take_le; [done|]. rewrite length_drop. lia.
Qed.

Lemma block_at_reference partitions k j :
  k ≠ 0 →
  block_at partitions (length partitions / k) 0
           (length partitions - k * (length partitions / k)) j =
  reference_block partitions k j.
Proof.
  intros Hk. unfold block_at, reference_block.
  by rewrite extra_is_remainder.
Qed.

(** ** The function as a whole *)

Lemma is_assigned_partitions_of m s p :
  all_true m → is_assigned m s p = true ↔ p ∈ partitions_of m s.
Proof.
  intros Hm. unfold is_assigned, partitions_of. rewrite elem_of_dom.
  destruct (assigned_to m s !! p) as [b|] eqn:Hb; simpl.
  - rewrite (Hm _ _ _ Hb). naive_solver.
  - split; [done|]. by intros [? ?].
Qed.

Lemma reference_assignment_positions partitions subscribers s p :
  partitions ≠ [] → subscribers ≠ [] →
  p ∈ reference_assignment partitions subscribers s ↔
  ∃ i, sortStrings subscribers !! i = Some s ∧
       p ∈ reference_block (sortInt32 partitions) (length subscribers) i.
Proof.
  intros Hp Hs. unfold reference_assignment.
  destruct partitions as [|p0 partitions]; [done|].
  destruct subscribers as [|s0 subscribers]; [done|].
  rewrite elem_of_union_list. setoid_rewrite elem_of_lookup_imap.
  rewrite sortStrings_length. split.
  - intros (X & (i & s' & -> & Hi) & Hin).
    case_decide; [|set_solver]. subst s'. exists i. split; [done|].
    by apply elem_of_list_to_set in Hin.
  - intros (i & Hi & Hin). eexists. split; [by exists i, s|].
    rewrite decide_True by done. by apply elem_of_list_to_set.
Qed.

Lemma assign_nonempty partitions subscribers :
  partitions ≠ [] → subscribers ≠ [] →
  ∃ m, result (assignPartitionsToSubscribers partitions subscribers) = Some m ∧
       all_true m ∧
       ∀ s p, p ∈ partitions_of m s ↔
         ∃ i, sortStrings subscribers !! i = Some s ∧
              p ∈ reference_block (sortInt32 partitions) (length subscribers) i.
Proof.
  intros Hp Hs. unfold assignPartitionsToSubscribers.
  assert (length partitions ≠ 0) by (by destruct partitions).
  assert (length subscribers ≠ 0) as Hk by (by destruct subscribers).
  rewrite decide_False by lia. simpl.
  destruct (assign_loop_spec (sortInt32 partitions)
              (length partitions / length subscribers) (sortStrings subscribers) 0
              (length partitions - length subscribers * (length partitions / length subscribers))
              ∅) as (m & Hrun & Htrue & Hdom).
  { rewrite sortInt32_length, sortStrings_length, extra_is_remainder by done.
    pose proof (Nat.mod_upper_bound (length partitions) _ Hk).
    pose proof (Nat.div_mod_eq (length partitions) (length subscribers)). lia. }
  exists m. split_and!; [done| |].
  - apply Htrue. intros s p b. unfold assigned_to. by rewrite lookup_empty.
  - intros s p. rewrite Hdom.
    assert (∀ j, block_at (sortInt32 partitions)
                   (length partitions / length subscribers) 0
                   (length partitions
                    - length subscribers * (length partitions / length subscribers)) j
                 = reference_block (sortInt32 partitions) (length subscribers) j) as Hblock.
    { intros j. rewrite <-block_at_reference by done. by rewrite sortInt32_length. }
    setoid_rewrite Hblock.
    unfold partitions_of, assigned_to. rewrite lookup_empty. simpl.
    rewrite dom_empty_L. set_solver.
Qed.

Lemma assign_empty partitions subscribers :
  partitions = [] ∨ subscribers = [] →
  assignPartitionsToSubscribers partitions subscribers = Outcome (Some ∅) partitions subscribers.
Proof.
  intros Hempty. unfold assignPartitionsToSubscribers.
  rewrite decide_True; [done|].
  destruct Hempty as [-> | ->]; auto.
Qed.

Lemma reference_assignment_empty partitions subscribers s :
  partitions = [] ∨ subscribers = [] →
  reference_assignment partitions subscribers s = ∅.
Proof.
  unfold reference_assignment.
  intros [-> | ->]; [done|]. by destruct partitions.
Qed.

(** The returned map is the reference assignment, for every input. *)
Lemma assign_refines_reference partitions subscribers :
  ∃ m, result (assignPartitionsToSubscribers partitions subscribers) = Some m ∧
       all_true m ∧
       ∀ s, partitions_of m s = reference_assignment partitions subscribers s.
Proof.
  destruct (decide (partitions = [] ∨ subscribers = [])) as [Hempty|Hne].
  - exists ∅. rewrite assign_empty by done. split_and!; [done| |].
    + intros s p b. unfold assigned_to. by rewrite lookup_empty.
    + intros s. rewrite reference_assignment_empty by done.
      unfold partitions_of, assigned_to. rewrite lookup_empty. simpl.
      apply dom_empty_L.
  - assert (partitions ≠ [] ∧ subscribers ≠ []) as [Hp Hs] by tauto.
    destruct (assign_nonempty partitions subscribers Hp Hs) as (m & Hm & Htrue & Hdom).
    exists m. split_and!; [done..|].
    intros s. apply set_eq. intros p.
    by rewrite Hdom, reference_assignment_positions.
Qed.

(** The result does not depend on the order in which the caller lists the
    partitions and the subscribers. *)
Lemma assign_permutation partitions subscribers partitions' subscribers' :
  partitions ≡ₚ partitions' → subscribers ≡ₚ subscribers' →
  result (assignPartitionsToSubscribers partitions' subscribers') =
  result (assignPartitionsToSubscribers partitions subscribers).
Proof.
  intros Hp Hs. unfold assignPartitionsToSubscribers.
  rewrite <-(Permutation_length Hp), <-(Permutation_length Hs).
  case_decide; [done|]. simpl.
  by rewrite (sortInt32_unique _ _ Hp), (sortStrings_unique _ _ Hs).
Qed.

(** ** Consequences: cover, disjointness, balance *)

Section Consequences.
Variables (partitions : list Z) (subscribers : list string) (m : assignment).
Hypothesis Hpartitions : partitions ≠ [].
Hypothesis Hsubscribers : subscribers ≠ [].
Hypothesis Hresult :
  result (assignPartitionsToSubscribers partitions subscribers) = Some m.

Local Lemma positions s p :
  p ∈ partitions_of m s ↔
  ∃ i, sortStrings subscribers !! i = Some s ∧
       p ∈ reference_block (sortInt32 partitions) (length subscribers) i.
Proof.
  destruct (assign_nonempty partitions subscribers) as (m' & Hm' & _ & Hdom);
    [done..|].
  rewrite Hresult in Hm'. injection Hm' as <-. apply Hdom.
Qed.

Local Lemma subscriberCount_pos : length subscribers ≠ 0.
Proof. by destruct subscribers. Qed.

(** Every partition goes to some subscriber, and nothing else does. *)
Lemma assign_cover p :
  p ∈ partitions ↔ ∃ s, s ∈ subscribers ∧ p ∈ partitions_of m s.
Proof.
  split.
  - intros Hp. rewrite <-sortInt32_perm in Hp.
    apply list_elem_of_lookup in Hp as [x Hx].
    destruct (block_locate (length (sortInt32 partitions)) (length subscribers) x)
      as (i & Hi & Hin); [apply subscriberCount_pos|by eapply lookup_lt_Some|].
    destruct (lookup_lt_is_Some_2 (sortStrings subscribers) i) as [s Hs].
    { by rewrite sortStrings_length. }
    exists s. split.
    + rewrite <-sortStrings_perm. by eapply list_elem_of_lookup_2.
    + apply positions. exists i. split; [done|].
      apply elem_of_reference_block. by exists x.
  - intros (s & _ & Hp). apply positions in Hp as (i & _ & Hp).
    apply elem_of_reference_block in Hp as (x & Hx & _).
    rewrite <-sortInt32_perm. by eapply list_elem_of_lookup_2.
Qed.

(** With pairwise distinct partitions no partition goes to two
    subscribers. *)
Lemma assign_disjoint s1 s2 p :
  NoDup partitions →
  p ∈ partitions_of m s1 → p ∈ partitions_of m s2 → s1 = s2.
Proof.
  intros Hnodup (i1 & Hs1 & Hp1)%positions (i2 & Hs2 & Hp2)%positions.
  apply elem_of_reference_block in Hp1 as (x1 & Hx1 & Hin1).
  apply elem_of_reference_block in Hp2 as (x2 & Hx2 & Hin2).
  rewrite <-sortInt32_perm in Hnodup.
  pose proof (NoDup_lookup _ _ _ _ Hnodup Hx1 Hx2) as <-.
  assert (i1 = i2) as <-; [|congruence].
  set (n := length (sortInt32 partitions)) in *.
  set (k := length subscribers) in *.
  destruct (decide (i1 < i2)).
  { pose proof (block_start_mono n k (S i1) i2). lia. }
  destruct (decide (i2 < i1)); [|lia].
  pose proof (block_start_mono n k (S i2) i1). lia.
Qed.

(** With pairwise distinct subscribers, the subscriber at a position holds
    exactly the block of that position. *)
Lemma assign_block i s :
  NoDup subscribers →
  sortStrings subscribers !! i = Some s →
  partitions_of m s =
  list_to_set (reference_block (sortInt32 partitions) (length subscribers) i).
Proof.
  intros Hnodup Hi. apply set_eq. intros p.
  rewrite positions, elem_of_list_to_set.
  rewrite <-sortStrings_perm in Hnodup. split.
  - intros (j & Hj & Hp). by rewrite (NoDup_lookup _ _ _ _ Hnodup Hi Hj).
  - intros Hp. by exists i.
Qed.

Lemma assign_size i s :
  NoDup partitions → NoDup subscribers →
  sortStrings subscribers !! i = Some s →
  size (assigned_to m s) =
  length partitions / length subscribers
  + (if decide (i < length partitions `mod` length subscribers) then 1 else 0).
Proof.
  intros Hp Hs Hi. rewrite <-size_dom. fold (partitions_of m s).
  rewrite (assign_block i s Hs Hi), size_list_to_set.
  - rewrite length_reference_block, sortInt32_length;
      [done|apply subscriberCount_pos|].
    rewrite <-(sortStrings_length subscribers). by eapply lookup_lt_Some.
  - rewrite <-sortInt32_perm in Hp. unfold reference_block.
    eapply sublist_NoDup; [exact Hp|].
    etrans; [apply sublist_take|apply sublist_drop].
Qed.

Lemma assign_balanced s1 s2 :
  NoDup partitions → NoDup subscribers →
  s1 ∈ subscribers → s2 ∈ subscribers →
  size (assigned_to m s1) ≤ size (assigned_to m s2) + 1.
Proof.
  intros Hp Hs Hs1 Hs2.
  rewrite <-sortStrings_perm in Hs1, Hs2.
  apply list_elem_of_lookup in Hs1 as [i1 Hi1].
  apply list_elem_of_lookup in Hs2 as [i2 Hi2].
  rewrite (assign_size i1 s1), (assign_size i2 s2) by done.
  repeat case_decide; lia.
Qed.
End Consequences.

(** ** The claims about the assignment *)

(** Scenario S2 of the design document: three partitions and the
    subscribers A and B; A gets 0 and 1, B gets 2. *)
Example scenario_S2 :
  ∃ m, result (assignPartitionsToSubscribers [0; 1; 2]%Z ["A"; "B"]) = Some m ∧
       partitions_of m "A" = {[0; 1]}%Z ∧ partitions_of m "B" = {[2]}%Z.
Proof. eexists. split; [vm_compute; reflexivity|]. split; by vm_compute. Qed.

(** C1, as the design document states it, fails on inputs with repeated
    elements: with the partition 0 listed twice it goes to both
    subscribers, and with the subscriber A listed three times A holds
    three partitions and B one. *)
Lemma assignment_repeated_elements_counterexample :
  (∃ m, result (assignPartitionsToSubscribers [0; 0]%Z ["A"; "B"]) = Some m ∧
        ¬ exact_and_balanced [0; 0]%Z ["A"; "B"] m) ∧
  (∃ m, result (assignPartitionsToSubscribers [0; 1; 2; 3]%Z ["A"; "A"; "A"; "B"]) = Some m ∧
        ¬ exact_and_balanced [0; 1; 2; 3]%Z ["A"; "A"; "A"; "B"] m).
Proof.
  split.
  - destruct (assign_refines_reference [0; 0]%Z ["A"; "B"]) as (m & Hm & Htrue & Href).
    exists m. split; [done|]. intros (_ & Hdisjoint & _).
    assert (∀ s, s = "A" ∨ s = "B" → is_assigned m s 0%Z = true) as Hboth.
    { intros s Hs. apply is_assigned_partitions_of; [done|]. rewrite Href.
      destruct Hs as [-> | ->]; apply (bool_decide_unpack _); vm_compute; exact I. }
    by specialize (Hdisjoint "A" "B" 0%Z (Hboth _ (or_introl eq_refl))
                     (Hboth _ (or_intror eq_refl))).
  - destruct (assign_refines_reference [0; 1; 2; 3]%Z ["A"; "A"; "A"; "B"])
      as (m & Hm & Htrue & Href).
    exists m. split; [done|]. intros (_ & _ & Hbalanced).
    specialize (Hbalanced "A" "B").
    rewrite <-!size_dom in Hbalanced. fold (partitions_of m "A") in Hbalanced.
    fold (partitions_of m "B") in Hbalanced. rewrite !Href in Hbalanced.
    assert (size (reference_assignment [0; 1; 2; 3]%Z ["A"; "A"; "A"; "B"] "A") = 3)
      as HA by (by vm_compute).
    assert (size (reference_assignment [0; 1; 2; 3]%Z ["A"; "A"; "A"; "B"] "B") = 1)
      as HB by (by vm_compute).
    rewrite HA, HB in Hbalanced.
    assert (3 ≤ 1 + 1); [|lia].
    apply Hbalanced; [apply list_elem_of_here|].
    do 3 apply list_elem_of_further. apply list_elem_of_here.
Qed.

(** C1 (amended).  For every input the call returns a map (it never indexes
    out of range); the map is empty when either list is empty and is
    otherwise the reference assignment: a subscriber holds the union of the
    blocks of its positions in the sorted subscriber list.  The map depends
    only on the elements of the two lists, not on their order.  When no
    partition and no subscriber is listed twice, the subscriber at position
    [i] holds exactly its block of [q] partitions, plus one when [i < r],
    and the assigned sets partition the input and differ in size by at most
    one. *)
Theorem assignment_follows_reference (partitions : list Z) (subscribers : list string) :
  ∃ m, result (assignPartitionsToSubscribers partitions subscribers) = Some m ∧
    (partitions = [] ∨ subscribers = [] → m = ∅) ∧
    (∀ s p, is_assigned m s p = true ↔
            p ∈ reference_assignment partitions subscribers s) ∧
    (∀ partitions' subscribers',
       partitions ≡ₚ partitions' → subscribers ≡ₚ subscribers' →
       result (assignPartitionsToSubscribers partitions' subscribers') = Some m) ∧
    (partitions ≠ [] → subscribers ≠ [] → NoDup partitions → NoDup subscribers →
       (∀ i s, sortStrings subscribers !! i = Some s →
          partitions_of m s =
            list_to_set (reference_block (sortInt32 partitions) (length subscribers) i) ∧
          size (assigned_to m s) =
            length partitions / length subscribers
            + (if decide (i < length partitions `mod` length subscribers) then 1 else 0)) ∧
       exact_and_balanced partitions subscribers m).
Proof.
  destruct (assign_refines_reference partitions subscribers) as (m & Hm & Htrue & Href).
  exists m. split_and!; [done| | | |].
  - intros Hempty. rewrite assign_empty in Hm by done. by injection Hm as <-.
  - intros s p. by rewrite is_assigned_partitions_of, Href.
  - intros partitions' subscribers' Hp Hs.
    by rewrite (assign_permutation partitions subscribers).
  - intros Hp Hs Hnp Hns. split.
    + intros i s Hi. split.
      * by eapply assign_block.
      * by eapply assign_size.
    + split_and!.
      * intros p. setoid_rewrite is_assigned_partitions_of; [|done].
        by apply assign_cover.
      * intros s1 s2 p. rewrite !is_assigned_partitions_of by done.
        by eapply assign_disjoint.
      * intros s1 s2. by eapply assign_balanced.
Qed.

Lemma assignment_follows_reference_witness :
  ∃ m, result (assignPartitionsToSubscribers [2; 0; 1]%Z ["B"; "A"]) = Some m ∧
       exact_and_balanced [2; 0; 1]%Z ["B"; "A"] m.
Proof.
  destruct (assignment_follows_reference [2; 0; 1]%Z ["B"; "A"])
    as (m & Hm & _ & _ & _ & Hdistinct).
  exists m. split; [exact Hm|].
  apply Hdistinct; [done|done| |]; apply (bool_decide_unpack _); vm_compute; exact I.
Defined.

(** ** The side effect on the argument slices *)

Lemma length_view {A} (array : list A) (s : sliceHeader) :
  base s + len s ≤ length array → length (view array s) = len s.
Proof.
  intros Hin. unfold view. rewrite length_take_le; [done|].
  rewrite length_drop. lia.
Qed.

Lemma view_store {A} (array contents : list A) (s : sliceHeader) :
  base s + len s ≤ length array → length contents = len s →
  view (store array s contents) s = contents.
Proof.
  intros Hin Hlen. unfold view, store.
  rewrite drop_app_length'; [|rewrite length_take_le; lia].
  rewrite take_app_length'; done.
Qed.

Lemma store_view {A} (array : list A) (s : sliceHeader) :
  store array s (view array s) = array.
Proof.
  unfold view, store.
  by rewrite <-drop_drop, !take_drop.
Qed.

Lemma length_store {A} (array contents : list A) (s : sliceHeader) :
  base s + len s ≤ length array → length contents = len s →
  length (store array s contents) = length array.
Proof.
  intros Hin Hlen. unfold store.
  rewrite !length_app, length_take_le, length_drop by lia. lia.
Qed.

Lemma lookup_store_outside {A} (array contents : list A) (s : sliceHeader) i :
  base s + len s ≤ length array → length contents = len s →
  ¬ (base s ≤ i < base s + len s) →
  store array s contents !! i = array !! i.
Proof.
  intros Hin Hlen Hout. unfold store.
  destruct (decide (i < base s)) as [Hlt|Hge].
  - rewrite lookup_app_l by (rewrite length_take_le; lia).
    by rewrite lookup_take_lt.
  - rewrite lookup_app_r by (rewrite length_take_le; lia).
    rewrite length_take_le by lia.
    rewrite lookup_app_r by lia.
    rewrite lookup_drop. f_equal. lia.
Qed.

Lemma assign_sorts partitions subscribers :
  partitions ≠ [] → subscribers ≠ [] →
  partitions_after (assignPartitionsToSubscribers partitions subscribers)
    = sortInt32 partitions ∧
  subscribers_after (assignPartitionsToSubscribers partitions subscribers)
    = sortStrings subscribers.
Proof.
  intros Hp Hs. unfold assignPartitionsToSubscribers.
  rewrite decide_False; [done|].
  destruct partitions, subscribers; naive_solver.
Qed.

(** C10.  Whenever both argument slices are non-empty, the call leaves the
    caller's partitions slice sorted ascending and the caller's subscribers
    slice sorted lexicographically, each a rearrangement of what it held;
    the backing arrays keep their lengths and every element outside the two
    slices, and when either slice is empty the memory is left as it was. *)
Theorem assign_sorts_arguments_in_place (mem : memory) (partitions subscribers : sliceHeader) :
  base partitions + len partitions ≤ length (int32s mem) →
  base subscribers + len subscribers ≤ length (strings mem) →
  let mem' := (call mem partitions subscribers).2 in
  (len partitions ≠ 0 → len subscribers ≠ 0 →
     view (int32s mem') partitions = sortInt32 (view (int32s mem) partitions) ∧
     StronglySorted Z.le (view (int32s mem') partitions) ∧
     view (int32s mem') partitions ≡ₚ view (int32s mem) partitions ∧
     view (strings mem') subscribers = sortStrings (view (strings mem) subscribers) ∧
     StronglySorted String.le (view (strings mem') subscribers) ∧
     view (strings mem') subscribers ≡ₚ view (strings mem) subscribers) ∧
  (len partitions = 0 ∨ len subscribers = 0 → mem' = mem) ∧
  (∀ i, ¬ (base partitions ≤ i < base partitions + len partitions) →
        int32s mem' !! i = int32s mem !! i) ∧
  (∀ i, ¬ (base subscribers ≤ i < base subscribers + len subscribers) →
        strings mem' !! i = strings mem !! i) ∧
  length (int32s mem') = length (int32s mem) ∧
  length (strings mem') = length (strings mem).
Proof.
  intros Hp Hs. simpl.
  pose proof (length_view _ _ Hp) as Hlp. pose proof (length_view _ _ Hs) as Hls.
  set (ps := view (int32s mem) partitions) in *.
  set (ss := view (strings mem) subscribers) in *.
  assert (length (partitions_after (assignPartitionsToSubscribers ps ss)) = len partitions
          ∧ length (subscribers_after (assignPartitionsToSubscribers ps ss)) = len subscribers)
    as [Hlp' Hls'].
  { unfold assignPartitionsToSubscribers. case_decide; simpl; [done|].
    by rewrite sortInt32_length, sortStrings_length. }
  split_and!.
  - intros Hnp Hns.
    destruct (assign_sorts ps ss) as [-> ->].
    { intros Heq. by rewrite Heq in Hlp. }
    { intros Heq. by rewrite Heq in Hls. }
    rewrite !view_store by (done || by rewrite ?sortInt32_length, ?sortStrings_length).
    split_and!; auto using sortInt32_sorted, sortInt32_perm, sortStrings_sorted, sortStrings_perm.
  - intros Hempty.
    assert (ps = [] ∨ ss = []) as Hnil.
    { destruct Hempty as [H0|H0]; [left|right]; apply length_zero_iff_nil; lia. }
    rewrite (assign_empty _ _ Hnil). simpl. subst ps ss.
    rewrite !store_view. by destruct mem.
  - intros i Hi. by apply lookup_store_outside.
  - intros i Hi. by apply lookup_store_outside.
  - by apply length_store.
  - by apply length_store.
Qed.

Lemma assign_sorts_arguments_in_place_witness :
  view (int32s (call (Memory [9; 3; 1; 2; 7]%Z ["x"; "B"; "A"])
                     (SliceHeader 1 3) (SliceHeader 1 2)).2) (SliceHeader 1 3)
    = sortInt32 [3; 1; 2]%Z ∧
  view (strings (call (Memory [9; 3; 1; 2; 7]%Z ["x"; "B"; "A"])
                      (SliceHeader 1 3) (SliceHeader 1 2)).2) (SliceHeader 1 2)
    = sortStrings ["B"; "A"] ∧
  int32s (call (Memory [9; 3; 1; 2; 7]%Z ["x"; "B"; "A"])
               (SliceHeader 1 3) (SliceHeader 1 2)).2 !! 4 = Some 7%Z.
Proof.
  destruct (assign_sorts_arguments_in_place
              (Memory [9; 3; 1; 2; 7]%Z ["x"; "B"; "A"])
              (SliceHeader 1 3) (SliceHeader 1 2))
    as (Hsorted & _ & Hframe & _); [simpl; lia..|].
  destruct Hsorted as (Hp & _ & _ & Hs & _); [simpl; lia..|].
  split_and!; [exact Hp|exact Hs|].
  rewrite Hframe; [reflexivity|simpl; lia].
Defined.

Example in_place_example :
  (call (Memory [9; 3; 1; 2; 7]%Z ["x"; "B"; "A"]) (SliceHeader 1 3) (SliceHeader 1 2)).2
  = Memory [9; 1; 2; 3; 7]%Z ["x"; "A"; "B"].
Proof. by vm_compute. Qed.

End AssignmentFacts.
(** * Facts about the exclusive consumer *)
Module ExclusiveConsumerFacts.

Import ExclusiveConsumer.
Local Open Scope Z_scope.

(** Unfold one step and split on everything it branches on. *)
Ltac step_inv H :=
  unfold ExclusiveConsumer.step, done, return_, panic_, goto, set_committed,
    set_submitted, defer in H;
  simpl in H;
  repeat (case_match; simplify_eq/=; try done); try congruence.

(** Take apart memberships in explicit lists. *)
Ltac elem_inv :=
  repeat match goal with
    | H : _ ∈ [] |- _ => by apply elem_of_nil in H
    | H : _ ∈ _ :: _ |- _ => apply elem_of_cons in H as [H|H]; simplify_eq/=
    | H : _ ∈ _ ++ _ |- _ => apply elem_of_app in H as [H|H]
    end.

Section Facts.
Variable managePartitionOk : bool.
Variable consumePartition : Z → option Z.
Variable firstMessageFetchedCh : bool.

Local Abbreviation step := (step consumePartition firstMessageFetchedCh).
Local Abbreviation exec := (exec consumePartition firstMessageFetchedCh).
Local Abbreviation run := (run managePartitionOk consumePartition firstMessageFetchedCh).
Local Abbreviation reachable := (reachable managePartitionOk consumePartition firstMessageFetchedCh).

(** ** Exits *)

Lemma exec_finished s events :
  at_ s = Returned ∨ at_ s = Panicked → exec s events = (s, []).
Proof.
  intros Hs. induction events as [|e events IH]; simpl; [done|].
  assert (step s e = None) as ->; [|done].
  unfold ExclusiveConsumer.step. by destruct Hs as [-> | ->].
Qed.

Lemma exec_app s pre post :
  exec s (pre ++ post) =
  let '(s1, acts1) := exec s pre in
  let '(s2, acts2) := exec s1 post in
  (s2, acts1 ++ acts2).
Proof.
  revert s. induction pre as [|e pre IH]; intros s; simpl.
  - by destruct (exec s post).
  - destruct (step s e) as [[s' acts]|]; [|apply IH].
    rewrite IH. destruct (exec s' pre) as [s1 acts1].
    destruct (exec s1 post) as [s2 acts2]. by rewrite (assoc (++)).
Qed.

Lemma exec_reachable s events : reachable s → reachable (exec s events).1.
Proof.
  revert s. induction events as [|e events IH]; intros s Hs; simpl; [done|].
  destruct (step s e) as [[s' acts]|] eqn:Hstep; [|by apply IH].
  specialize (IH s' (reachable_step _ _ _ _ _ _ _ Hs Hstep)).
  by destruct (exec s' events).
Qed.

(** Before the initial offset arrives no offset has been touched, and the
    only deferred calls are the two of the prologue. *)
Lemma reachable_waiting s :
  reachable s → at_ s = WaitInitialOffset →
  lastSubmittedOffset s = 0 ∧ lastCommittedOffset s = 0 ∧
  deferred s = [ClosePom; ReleaseClaim].
Proof.
  induction 1 as [|s e s' acts Hs IH Hstep]; intros Hat.
  - unfold start in *. by destruct managePartitionOk.
  - step_inv Hstep.
Qed.

(** The deferred calls pending in each phase. *)
Lemma reachable_deferred s :
  reachable s →
  deferred s =
    match at_ s with
    | WaitInitialOffset => [ClosePom; ReleaseClaim]
    | Fetching | Offering _ | Draining =>
        [ClosePartitionConsumer; ClosePom; ReleaseClaim]
    | Returned | Panicked => []
    end.
Proof.
  induction 1 as [|s e s' acts Hs IH Hstep].
  - unfold start. by destruct managePartitionOk.
  - step_inv Hstep; rewrite ?IH; try done;
      repeat match goal with H : at_ _ = _ |- _ => rewrite H in * end; simpl; congruence.
Qed.

(** ** Shutdown (C2) *)

(** While draining, commits of other offsets are logged and change
    nothing. *)
Lemma exec_draining_idle s events :
  at_ s = Draining → CommittedClosed ∉ events →
  Committed (lastSubmittedOffset s) ∉ events →
  (exec s events).1 = s ∧
  ∀ a, a ∈ (exec s events).2 → ∃ offset, a = LogWaiting offset.
Proof.
  intros Hat. induction events as [|e events IH]; intros Hclosed Hcommit; simpl.
  { split; [done|]. intros a Ha. elem_inv. }
  apply not_elem_of_cons in Hclosed as [Hclosed1 Hclosed].
  apply not_elem_of_cons in Hcommit as [Hcommit1 Hcommit].
  destruct (IH Hclosed Hcommit) as [Hstate Hacts].
  unfold ExclusiveConsumer.step. rewrite Hat.
  destruct e as [offset|msg|offset| | | |]; try done.
  rewrite decide_False by congruence.
  destruct (exec s events) as [s' acts']. simpl in *. split; [done|].
  intros a Ha. elem_inv; eauto.
Qed.

(** The first commit of the last submitted offset ends the draining: the
    deferred calls run and nothing follows. *)
Lemma exec_draining_commit s pre post :
  at_ s = Draining → CommittedClosed ∉ pre →
  Committed (lastSubmittedOffset s) ∉ pre →
  at_ (exec s (pre ++ Committed (lastSubmittedOffset s) :: post)).1 = Returned ∧
  (exec s (pre ++ Committed (lastSubmittedOffset s) :: post)).2
    = (exec s pre).2 ++ deferred s.
Proof.
  intros Hat Hclosed Hcommit.
  destruct (exec_draining_idle s pre Hat Hclosed Hcommit) as [Hstate _].
  rewrite exec_app. destruct (exec s pre) as [s1 acts1]. simpl in Hstate. subst s1.
  cbn [ExclusiveConsumer.exec]. unfold ExclusiveConsumer.step. rewrite Hat.
  rewrite decide_True by done. unfold return_.
  rewrite exec_finished by (by left). simpl. by rewrite app_nil_r.
Qed.

(** C2.  A stop signal received in the fetch/offer loop: when the last
    committed offset equals the last submitted one, [run] returns at once
    and its deferred calls, the release of the claim last, are all it still
    does.  Otherwise it drains the committed offsets: as long as no commit
    of the last submitted offset has arrived it stays in the drain loop and
    the claim is not released; the first such commit makes it return, and
    only then do the deferred calls run, the release of the claim last.
    The stream of committed offsets is taken not to end while [run] is
    running: [pom.Close()] is a deferred call of [run] itself. *)
Theorem release_only_after_commit (s : state) (events : list event) :
  reachable s → (at_ s = Fetching ∨ ∃ msg, at_ s = Offering msg) →
  CommittedClosed ∉ events →
  let closing := [ClosePartitionConsumer; ClosePom; ReleaseClaim] in
  let stopped := exec s (Stopping :: events) in
  if decide (lastCommittedOffset s = lastSubmittedOffset s)
  then at_ stopped.1 = Returned ∧ stopped.2 = closing
  else
    lastSubmittedOffset stopped.1 = lastSubmittedOffset s ∧
    (Committed (lastSubmittedOffset s) ∉ events →
       at_ stopped.1 = Draining ∧ ReleaseClaim ∉ stopped.2) ∧
    (∀ pre post, events = pre ++ Committed (lastSubmittedOffset s) :: post →
       Committed (lastSubmittedOffset s) ∉ pre →
       at_ stopped.1 = Returned ∧
       ReleaseClaim ∉ (exec s (Stopping :: pre)).2 ∧
       stopped.2 = (exec s (Stopping :: pre)).2 ++ closing).
Proof.
  intros Hs Hat Hclosed. cbv zeta.
  pose proof (reachable_deferred s Hs) as Hdeferred.
  assert (deferred s = [ClosePartitionConsumer; ClosePom; ReleaseClaim]) as Hclosing.
  { by destruct Hat as [Hat|[msg Hat]]; rewrite Hat in Hdeferred. }
  assert (step s Stopping = Some (done s)) as Hstop.
  { unfold ExclusiveConsumer.step. by destruct Hat as [->|[msg ->]]. }
  cbn [ExclusiveConsumer.exec]. rewrite Hstop. unfold done.
  destruct (decide (lastCommittedOffset s = lastSubmittedOffset s)) as [Heq|Hne].
  - unfold return_. rewrite exec_finished by (by left). simpl.
    by rewrite app_nil_r.
  - set (s1 := goto Draining s).
    assert (at_ s1 = Draining) as Hat1 by done.
    assert (lastSubmittedOffset s1 = lastSubmittedOffset s) as Hsub by done.
    assert (deferred s1 = deferred s) as Hdef by done.
    assert (∀ l, CommittedClosed ∉ l → Committed (lastSubmittedOffset s) ∉ l →
              at_ (exec s1 l).1 = Draining ∧
              lastSubmittedOffset (exec s1 l).1 = lastSubmittedOffset s ∧
              ReleaseClaim ∉ LogWaiting (lastCommittedOffset s) :: (exec s1 l).2)
      as Hidle.
    { intros l Hl1 Hl2. rewrite <-Hsub in Hl2.
      destruct (exec_draining_idle s1 l Hat1 Hl1 Hl2) as [Hstate Hacts].
      rewrite Hstate. split_and!; [done..|].
      intros [?|Hin]%elem_of_cons; [done|].
      by destruct (Hacts _ Hin). }
    split_and!.
    + destruct (decide (Committed (lastSubmittedOffset s) ∈ events)) as [Hin|Hnotin].
      * apply list_elem_of_split_l in Hin as (pre & post & -> & Hpre).
        apply not_elem_of_app in Hclosed as [Hclosed _].
        rewrite <-Hsub in Hpre |- *.
        destruct (exec_draining_idle s1 pre Hat1 Hclosed Hpre) as [Hstate _].
        rewrite exec_app. destruct (exec s1 pre) as [s2 acts2]. simpl in Hstate. subst s2.
        cbn [ExclusiveConsumer.exec]. unfold ExclusiveConsumer.step. rewrite Hat1.
        rewrite decide_True by done. unfold return_.
        by rewrite exec_finished by (by left).
      * destruct (Hidle events Hclosed Hnotin) as (_ & Hsub' & _).
        by destruct (exec s1 events).
    + intros Hnotin. destruct (Hidle events Hclosed Hnotin) as (Hat' & _ & Hrel).
      by destruct (exec s1 events).
    + intros pre post -> Hpre.
      apply not_elem_of_app in Hclosed as [Hclosed _].
      destruct (Hidle pre Hclosed Hpre) as (_ & _ & Hrel).
      rewrite <-Hsub in Hpre |- *.
      destruct (exec_draining_commit s1 pre post Hat1 Hclosed Hpre) as [Hret Hacts].
      rewrite Hdef, Hclosing in Hacts.
      destruct (exec s1 (pre ++ _)) as [s2 acts2].
      destruct (exec s1 pre) as [s3 acts3]. simpl in *.
      split_and!; [done|done|]. by rewrite Hacts.
Qed.

(** ** Acknowledgement and submission (C3) *)

(** The message being offered was fetched earlier in the schedule. *)
Lemma exec_offering s events msg :
  at_ (exec s events).1 = Offering msg →
  at_ s = Offering msg ∨ Fetched msg ∈ events.
Proof.
  revert s. induction events as [|e events IH]; intros s; simpl; [auto|].
  destruct (step s e) as [[s' acts]|] eqn:Hstep.
  - specialize (IH s'). destruct (exec s' events) as [s'' acts'']. simpl in *.
    intros [Hs'|Hin]%IH; [|set_solver].
    step_inv Hstep; first [left; congruence | right; apply list_elem_of_here].
  - intros [?|?]%IH; set_solver.
Qed.

(** Every submission in a schedule is the priming one, made when the
    initial offset arrives, or answers an acknowledgement of a message
    fetched before it. *)
Lemma start_deferred_ok : deferred_ok (start managePartitionOk).1.
Proof.
  unfold start, deferred_ok. destruct managePartitionOk; simpl; intros a Ha; elem_inv; auto.
Qed.

Lemma step_deferred_ok s e s' acts :
  deferred_ok s → step s e = Some (s', acts) → deferred_ok s'.
Proof.
  unfold deferred_ok. intros Hok Hstep a Ha.
  step_inv Hstep; elem_inv; auto.
Qed.

Lemma reachable_deferred_ok s : reachable s → deferred_ok s.
Proof.
  induction 1; eauto using start_deferred_ok, step_deferred_ok.
Qed.


Lemma step_not_waiting s e s' acts :
  step s e = Some (s', acts) → at_ s' ≠ WaitInitialOffset.
Proof. intros Hstep Hat. step_inv Hstep. Qed.




(** ** Stop before the initial offset (C9) *)

Lemma exec_waiting_stop s events :
  at_ s = WaitInitialOffset →
  (∀ offset, InitialOffset offset ∉ events) → Stopping ∈ events →
  exec s events = return_ s.
Proof.
  intros Hat Hnone Hstop.
  induction events as [|e events IH]; [set_solver|]. simpl.
  destruct (decide (e = Stopping)) as [->|Hne].
  - unfold ExclusiveConsumer.step. rewrite Hat. unfold return_. simpl.
    rewrite exec_finished by (by left).
    by rewrite (right_id [] (++)).
  - assert (step s e = None) as ->.
    { unfold ExclusiveConsumer.step. rewrite Hat.
      destruct e; try done. set_solver. }
    apply IH; set_solver.
Qed.

Lemma exec_waiting_idle s events :
  at_ s = WaitInitialOffset →
  (∀ offset, InitialOffset offset ∉ events) → Stopping ∉ events →
  exec s events = (s, []).
Proof.
  intros Hat Hnone Hstop.
  induction events as [|e events IH]; [done|]. simpl.
  assert (step s e = None) as ->.
  { unfold ExclusiveConsumer.step. rewrite Hat.
    destruct e; try done; set_solver. }
  apply IH; set_solver.
Qed.

(** C9.  When [ManagePartition] has succeeded, no initial offset arrives
    and the stop signal fires, [run] does exactly this: it claims the
    partition, opens the offset manager, and on the stop signal closes the
    offset manager and releases the claim.  It submits no offset, never
    calls [ConsumePartition], and after every prefix of the schedule it is
    either still waiting for the initial offset or has returned. *)
Theorem stop_before_initial_offset (events : list event) :
  managePartitionOk = true →
  (∀ offset, InitialOffset offset ∉ events) → Stopping ∈ events →
  at_ (run events).1 = Returned ∧
  (run events).2 = [ClaimPartition; ManagePartition; ClosePom; ReleaseClaim] ∧
  (∀ offset, SubmitOffset offset ∉ (run events).2) ∧
  (∀ offset, ConsumePartition offset ∉ (run events).2) ∧
  (∀ pre post, events = pre ++ post →
     at_ (run pre).1 = WaitInitialOffset ∨ at_ (run pre).1 = Returned).
Proof.
  intros Hok Hnone Hstop. unfold ExclusiveConsumer.run, start. rewrite Hok.
  rewrite exec_waiting_stop by done. simpl.
  split_and!; [done|done|set_solver|set_solver|].
  intros pre post ->.
  destruct (decide (Stopping ∈ pre)) as [Hin|Hnotin].
  - rewrite exec_waiting_stop; [by right|done|set_solver|done].
  - left. rewrite exec_waiting_idle; [done|done|set_solver|done].
Qed.

End Facts.

Lemma stop_before_initial_offset_witness :
  (ExclusiveConsumer.run true (λ offset, Some offset) false
     [Committed 3; Stopping; Acked]).2
  = [ClaimPartition; ManagePartition; ClosePom; ReleaseClaim].
Proof.
  apply (stop_before_initial_offset true (λ offset, Some offset) false
           [Committed 3; Stopping; Acked]);
    [reflexivity| |].
  - intros offset Hin. elem_inv.
  - apply list_elem_of_further, list_elem_of_here.
Defined.

Lemma release_only_after_commit_witness :
  (ExclusiveConsumer.exec (λ offset, Some offset) false
     (State Fetching 6 0 false [ClosePartitionConsumer; ClosePom; ReleaseClaim])
     [Stopping; Committed 5; Acked; Committed 6; Committed 7]).2
  = [LogWaiting 0; LogWaiting 5; ClosePartitionConsumer; ClosePom; ReleaseClaim].
Proof.
  pose proof (release_only_after_commit true (λ offset, Some offset) false
    (State Fetching 6 0 false [ClosePartitionConsumer; ClosePom; ReleaseClaim])
    [Committed 5; Acked; Committed 6; Committed 7]) as Hstop.
  cbv zeta in Hstop. rewrite decide_False in Hstop by done.
  destruct Hstop as (_ & _ & Hcommit).
  - exact (exec_reachable true (λ offset, Some offset) false (start true).1
             [InitialOffset 5; Fetched (Message 5 "m"); Offered; Acked]
             (reachable_start _ _ _)).
  - by left.
  - intros Hin. elem_inv.
  - destruct (Hcommit [Committed 5; Acked] [Committed 7] eq_refl) as (_ & _ & ->).
    + intros Hin. elem_inv.
    + reflexivity.
Defined.



End ExclusiveConsumerFacts.

(** * Facts about the topic consumer and [Consume] *)
Module TopicConsumerFacts.

Import ExclusiveConsumer TopicConsumer.
Local Open Scope Z_scope.

(** ** One request (C4) *)

Lemma time_sub_exact now timestamp :
  Int64.in_range (now - timestamp) → time_sub now timestamp = now - timestamp.
Proof. unfold Int64.in_range, time_sub. lia. Qed.

(** C4.  For a dequeued request the consumer computes
    [ttl = LongPollingTimeout - (now - timestamp)] (exactly so whenever the
    two differences fit in a [time.Duration]).  If [ttl <= 0] it replies
    with the timeout error at once, takes nothing from the messages channel
    and arms no timer; otherwise it arms a timer of [ttl] and replies with
    the message when one is received, and with the timeout error when the
    timer fires first. *)
Theorem serve_respects_ttl (LongPollingTimeout now : Z) (consumeReq : consumeRequest)
    (sel : selected) :
  let ttl := ttl_of LongPollingTimeout now consumeReq in
  (Int64.in_range (now - timestamp consumeReq) →
   Int64.in_range (LongPollingTimeout - (now - timestamp consumeReq)) →
   ttl = LongPollingTimeout - (now - timestamp consumeReq)) ∧
  (ttl ≤ 0 →
   serve LongPollingTimeout consumeReq now sel
   = Served (replyCh consumeReq, timeoutResult) None None) ∧
  (0 < ttl →
   serve LongPollingTimeout consumeReq now sel
   = match sel with
     | MessageReceived msg =>
         Served (replyCh consumeReq, Result (Some msg) None) (Some msg) (Some ttl)
     | TimerFired =>
         Served (replyCh consumeReq, timeoutResult) None (Some ttl)
     end).
Proof.
  simpl. split_and!.
  - intros Hage Httl. unfold ttl_of, Int64.sub.
    rewrite time_sub_exact by done. by apply Int64Facts.wrap_id.
  - intros Httl. unfold serve. by rewrite decide_True.
  - intros Httl. unfold serve. rewrite decide_False by lia. by destruct sel.
Qed.

Lemma serve_respects_ttl_witness :
  serve 3000 (Request 1000 "g" "t" 7%nat) 5000 (MessageReceived (Message 4 "m"))
  = Served (7%nat, timeoutResult) None None ∧
  serve 3000 (Request 1000 "g" "t" 7%nat) 2500 (MessageReceived (Message 4 "m"))
  = Served (7%nat, Result (Some (Message 4 "m")) None) (Some (Message 4 "m")) (Some 1500) ∧
  ttl_of 3000 2500 (Request 1000 "g" "t" 7%nat) = 1500.
Proof.
  split_and!.
  - apply (serve_respects_ttl 3000 5000 (Request 1000 "g" "t" 7%nat)). by vm_compute.
  - apply (serve_respects_ttl 3000 2500 (Request 1000 "g" "t" 7%nat)
             (MessageReceived (Message 4 "m"))). by vm_compute.
  - apply (serve_respects_ttl 3000 2500 (Request 1000 "g" "t" 7%nat) TimerFired);
      unfold Int64.in_range, Int64.min_int, Int64.max_int; simpl; lia.
Defined.

(** ** Every request gets one reply (C7) *)

Lemma serve_reply_channel lpt consumeReq now sel :
  (reply (serve lpt consumeReq now sel)).1 = replyCh consumeReq.
Proof. unfold serve. case_decide; [done|]. by destruct sel. Qed.

Lemma serve_reply_kind lpt consumeReq now sel :
  (∃ msg, (reply (serve lpt consumeReq now sel)).2 = Result (Some msg) None) ∨
  (reply (serve lpt consumeReq now sel)).2 = timeoutResult.
Proof.
  unfold serve. case_decide; simpl; [auto|].
  destruct sel; simpl; eauto.
Qed.

Lemma serve_reply_well_formed lpt consumeReq now sel :
  well_formed (reply (serve lpt consumeReq now sel)).2.
Proof.
  unfold well_formed. destruct (serve_reply_kind lpt consumeReq now sel); auto.
Qed.

Lemma run_replies lpt dequeued :
  (run lpt dequeued).*1 = (λ d, replyCh d.1.1) <$> dequeued ∧
  Forall (λ r, (∃ msg, r.2 = Result (Some msg) None) ∨ r.2 = timeoutResult)
         (run lpt dequeued).
Proof.
  unfold run. induction dequeued as [|[[consumeReq now] sel] dequeued [IH1 IH2]];
    [by split|].
  rewrite !fmap_cons. split.
  - f_equal; [apply serve_reply_channel|exact IH1].
  - constructor; [apply serve_reply_kind|exact IH2].
Qed.

Lemma pipeline_step_balanced lpt cap p e p' :
  balanced p → pipeline_step lpt cap p e = Some p' → balanced p'.
Proof.
  intros [Hperm Hwf] Hstep. unfold balanced, pipeline_step, offer in *.
  destruct e as [req|now sel|].
  - destruct (closed p); [done|].
    case_decide; simplify_eq/=.
    + rewrite (right_id [] (++)). split; [|done].
      rewrite !fmap_app, Hperm. by rewrite (assoc (++)).
    + rewrite !fmap_app, Hperm. simpl. split.
      * rewrite <-!(assoc (++)). f_equiv. apply Permutation_app_comm.
      * apply Forall_app. split; [done|].
        constructor; [|done]. unfold well_formed. auto.
  - destruct (requestsCh p) as [|consumeReq queue] eqn:Hqueue; simplify_eq/=.
    rewrite fmap_app, Hperm. simpl. rewrite serve_reply_channel. split.
    + rewrite <-(assoc (++)). done.
    + apply Forall_app. split; [done|].
      constructor; [apply serve_reply_well_formed|done].
  - destruct (closed p); by simplify_eq/=.
Qed.

Lemma pipeline_exec_balanced lpt cap p events :
  balanced p → balanced (pipeline_exec lpt cap p events).
Proof.
  revert p. induction events as [|e events IH]; intros p Hp; simpl; [done|].
  destruct (pipeline_step lpt cap p e) as [p'|] eqn:Hstep; [|by apply IH].
  eauto using pipeline_step_balanced.
Qed.

Lemma received_once (delivered : list (nat * consumeResult)) ch :
  NoDup delivered.*1 → ch ∈ delivered.*1 →
  ∃ result, received_on ch delivered = [result] ∧ (ch, result) ∈ delivered.
Proof.
  unfold received_on.
  induction delivered as [|[ch' result'] delivered IH]; simpl.
  { intros _ Hin. by apply elem_of_nil in Hin. }
  intros [Hnotin Hnodup]%NoDup_cons Hin.
  rewrite filter_cons. simpl. case_decide as Hch.
  - subst ch'. exists result'. split; [|apply list_elem_of_here].
    simpl. f_equal.
    assert (filter (λ d : nat * consumeResult, d.1 = ch) delivered = []) as ->; [|done].
    destruct (filter (λ d : nat * consumeResult, d.1 = ch) delivered)
      as [|[c r] rest] eqn:Hfilter; [done|]. exfalso.
    assert ((c, r) ∈ filter (λ d : nat * consumeResult, d.1 = ch) delivered) as Hd.
    { rewrite Hfilter. apply list_elem_of_here. }
    apply list_elem_of_filter in Hd as [Hc Hd]. simpl in Hc. subst c.
    apply Hnotin. apply list_elem_of_fmap. by exists (ch, r).
  - apply elem_of_cons in Hin as [?|Hin]; [done|].
    destruct (IH Hnodup Hin) as (result & Hone & Hmem).
    exists result. split; [done|by apply list_elem_of_further].
Qed.

(** The queue can always be emptied: the loop takes the buffered requests
    one by one, also after [Stop] has closed the queue. *)
Lemma pipeline_drains lpt cap p now sel :
  let p' := pipeline_exec lpt cap p (replicate (length (requestsCh p)) (Dequeue now sel)) in
  requestsCh p' = [] ∧ closed p' = closed p ∧ dispatched p' = dispatched p ∧
  length (delivered p') = (length (delivered p) + length (requestsCh p))%nat.
Proof.
  simpl. destruct p as [queue closed dispatched delivered]. simpl.
  revert delivered. induction queue as [|consumeReq queue IH]; intros delivered; simpl.
  - split_and!; (done || lia).
  - destruct (IH (delivered ++ [reply (serve lpt consumeReq now sel)]))
      as (-> & -> & -> & ->).
    split_and!; try done. rewrite length_app. simpl. lia.
Qed.

(** C7.  The topic consumer sends one reply per request it dequeues, in
    the order it dequeues them, each a message or the timeout error.  In
    the pipeline made of the dispatcher's hand-off and the consumer's loop,
    the requests handed to the dispatcher are at all times those replied to
    together with those still queued, and every reply is a message, the
    timeout error or the overflow error; the loop can always empty the
    queue, also after [Stop] has closed it.  So once the queue is empty,
    every request (each with its own reply channel) has received exactly
    one reply, and that reply is what [Consume] returns. *)
Theorem exactly_one_reply (LongPollingTimeout : Z) (ChannelBufferSize : nat) :
  (∀ dequeued,
     (run LongPollingTimeout dequeued).*1 = (λ d, replyCh d.1.1) <$> dequeued ∧
     Forall (λ r, (∃ msg, r.2 = Result (Some msg) None) ∨ r.2 = timeoutResult)
            (run LongPollingTimeout dequeued)) ∧
  (∀ events,
     balanced (pipeline_exec LongPollingTimeout ChannelBufferSize empty_pipeline events)) ∧
  (∀ p now sel,
     requestsCh (pipeline_exec LongPollingTimeout ChannelBufferSize p
                   (replicate (length (requestsCh p)) (Dequeue now sel))) = []) ∧
  (∀ events req,
     let p := pipeline_exec LongPollingTimeout ChannelBufferSize empty_pipeline events in
     requestsCh p = [] → NoDup (replyCh <$> dispatched p) → req ∈ dispatched p →
     ∃ result,
       received_on (replyCh req) (delivered p) = [result] ∧
       well_formed result ∧
       Consume (replyCh req) (delivered p) = Some (Msg result, Err result)).
Proof.
  split_and!.
  - apply run_replies.
  - intros events. apply pipeline_exec_balanced. by split.
  - intros p now sel. apply pipeline_drains.
  - intros events req p Hempty Hnodup Hreq.
    destruct (pipeline_exec_balanced LongPollingTimeout ChannelBufferSize
                empty_pipeline events) as [Hperm Hwf]; [by split|].
    fold p in Hperm, Hwf. rewrite Hempty, (right_id [] (++)) in Hperm.
    destruct (received_once (delivered p) (replyCh req)) as (result & Hone & Hin).
    { by rewrite <-Hperm. }
    { rewrite <-Hperm. by apply list_elem_of_fmap_2. }
    exists result. split_and!; [done| |].
    + rewrite Forall_forall in Hwf. apply (Hwf _ Hin).
    + unfold Consume. by rewrite Hone.
Qed.

Lemma exactly_one_reply_witness :
  ∃ result,
    received_on 2 (delivered (pipeline_exec 1000 1 empty_pipeline
      [Dispatch (Request 0 "g" "t" 1); Dispatch (Request 0 "g" "t" 2); Stop;
       Dequeue 10 (MessageReceived (Message 4 "m"))])) = [result] ∧
    well_formed result ∧
    Consume 2 (delivered (pipeline_exec 1000 1 empty_pipeline
      [Dispatch (Request 0 "g" "t" 1); Dispatch (Request 0 "g" "t" 2); Stop;
       Dequeue 10 (MessageReceived (Message 4 "m"))])) = Some (Msg result, Err result).
Proof.
  destruct (exactly_one_reply 1000 1) as (_ & _ & _ & Hone).
  apply (Hone [Dispatch (Request 0 "g" "t" 1); Dispatch (Request 0 "g" "t" 2); Stop;
               Dequeue 10 (MessageReceived (Message 4 "m"))]
              (Request 0 "g" "t" 2)).
  - reflexivity.
  - apply (bool_decide_unpack _). vm_compute. exact I.
  - apply list_elem_of_further, list_elem_of_here.
Defined.

Example overflow_example :
  delivered (pipeline_exec 1000 1 empty_pipeline
    [Dispatch (Request 0 "g" "t" 1); Dispatch (Request 0 "g" "t" 2); Stop;
     Dequeue 10 (MessageReceived (Message 4 "m"))])
  = [(2%nat, overflowResult); (1%nat, Result (Some (Message 4 "m")) None)].
Proof. by vm_compute. Qed.

End TopicConsumerFacts.
(** * Facts about the group consumer *)
Module GroupConsumerFacts.

Import Assignment GroupConsumer.

(** Unfold one iteration of the control loop and split on its branches. *)
Ltac loop_inv H :=
  unfold step, select, maybeRebalance in H; simpl in H;
  repeat (case_match; simplify_eq/=; try done); try congruence.

Ltac elem_inv :=
  repeat match goal with
    | H : _ ∈ [] |- _ => by apply elem_of_nil in H
    | H : _ ∈ _ :: _ |- _ => apply elem_of_cons in H as [H|H]; simplify_eq/=
    | H : _ ∈ _ ++ _ |- _ => apply elem_of_app in H as [H|H]
    end.

Section ManagePartitions.
Variable BackOffTimeout : Z.

Local Abbreviation step := (step BackOffTimeout).
Local Abbreviation exec := (exec BackOffTimeout).
Local Abbreviation reachable := (reachable BackOffTimeout).

Lemma step_serialised w e w' acts :
  serialised w → step w e = Some (w', acts) → serialised w'.
Proof.
  unfold serialised. intros [Htoken Harmed] Hstep.
  destruct w as [l ch n ex]. simpl in *.
  destruct e; loop_inv Hstep;
    repeat match goal with
      | H : _ && _ = true |- _ => apply andb_prop in H as [? ?]
      | H : canRebalance _ = _ |- _ => rewrite H in *
      end;
    simpl in *; (split; [try lia|]); try done; eauto.
  - exfalso. lia.
  - rewrite length_app. simpl. destruct (canRebalance l); simpl in *; lia.
Qed.

Lemma reachable_serialised w : reachable w → serialised w.
Proof.
  induction 1 as [|w e w' acts _ IH Hstep]; [|by eapply step_serialised].
  split; [done|]. by intros timeout.
Qed.

Lemma loop_exec_reachable w events : reachable w → reachable (exec w events).1.
Proof.
  revert w. induction events as [|e events IH]; intros w Hw; simpl; [done|].
  destruct (GroupConsumer.step BackOffTimeout w e) as [[w' acts]|] eqn:Hstep; [|by apply IH].
  specialize (IH w' (reachable_step _ _ _ _ _ Hw Hstep)).
  by destruct (GroupConsumer.exec BackOffTimeout w' events).
Qed.

(** ** At most one rebalance at a time (C5) *)

(** C5.  In every reachable state of the control loop the rebalance token
    is in exactly one place, so at most one [rebalance] is running and a
    finishing [rebalance] always finds room in the result channel.  A
    [rebalance] is spawned only by an iteration whose [select] falls
    through with [shouldRebalance] and [canRebalance] both true; the spawn
    clears both flags, and it happens while no other [rebalance] is
    running.  [canRebalance] turns from false to true only when a result is
    received from [rebalanceResultCh]. *)
Theorem at_most_one_rebalance :
  (∀ w, reachable w →
        running w ≤ 1 ∧
        running w + length (rebalanceResultCh w)
          + (if canRebalance (vars w) then 1 else 0) = 1) ∧
  (∀ w e w' acts topicConsumerCopy subscriptions,
     reachable w → step w e = Some (w', acts) →
     SpawnRebalance topicConsumerCopy subscriptions ∈ acts →
     (∃ l acts0,
        select BackOffTimeout (vars w) (rebalanceResultCh w) e
          = Some (l, FallThrough, acts0) ∧
        shouldRebalance l = true ∧ canRebalance l = true ∧
        topicConsumerCopy = topicConsumers l ∧
        subscriptions = memberSubscriptions l) ∧
     shouldRebalance (vars w') = false ∧ canRebalance (vars w') = false ∧
     running w = 0 ∧ running w' = 1) ∧
  (∀ w e w' acts,
     step w e = Some (w', acts) →
     canRebalance (vars w) = false → canRebalance (vars w') = true →
     e = RebalanceResult).
Proof.
  split_and!.
  - intros w [Htoken _]%reachable_serialised. split; [|done].
    destruct (canRebalance (vars w)); lia.
  - intros w e w' acts topicConsumerCopy subscriptions Hw Hstep Hspawn.
    pose proof (reachable_serialised _ Hw) as [Htoken _].
    pose proof (reachable_serialised _ (reachable_step _ _ _ _ _ Hw Hstep)) as [Htoken' _].
    destruct e; loop_inv Hstep; elem_inv;
      repeat match goal with
        | H : _ && _ = true |- _ => apply andb_prop in H as [? ?]
        end;
      simpl in *;
      (split; [eauto 10|]);
      repeat match goal with
        | H : canRebalance _ = _ |- _ => rewrite H in *
        end;
      split_and!; try done; lia.
  - intros w e w' acts Hstep Hfalse Htrue.
    destruct e; loop_inv Hstep.
Qed.

(** ** A failed rebalance is retried after the backoff (C8) *)

(** C8.  When a rebalance result is received, the [select] case sets
    [canRebalance] to true.  If the result is an error, the failure is
    logged, a retry timer of [BackOffTimeout] is armed and the iteration
    ends there.  When that timer fires, its [select] case sets
    [shouldRebalance] to true again and the iteration spawns the rebalance
    again, with the current topic consumers and subscriptions.  Hence an
    error result followed by the firing of the timer it armed always ends
    in exactly one new rebalance. *)
Theorem failed_rebalance_retried_after_backoff :
  (∀ w w' acts,
     reachable w → step w RebalanceResult = Some (w', acts) →
     (∃ l ctl acts0,
        select BackOffTimeout (vars w) (rebalanceResultCh w) RebalanceResult
          = Some (l, ctl, acts0) ∧
        canRebalance l = true) ∧
     ∀ err rest, rebalanceResultCh w = Some err :: rest →
       canRebalance (vars w') = true ∧
       nilOrRetryCh (vars w') = Armed BackOffTimeout ∧
       shouldRebalance (vars w') = shouldRebalance (vars w) ∧
       acts = [LogRebalanceFailed err] ∧
       running w' = 0) ∧
  (∀ w w' acts,
     reachable w → step w RetryTimer = Some (w', acts) →
     (∃ timeout, nilOrRetryCh (vars w) = Armed timeout) ∧
     (∃ l acts0,
        select BackOffTimeout (vars w) (rebalanceResultCh w) RetryTimer
          = Some (l, FallThrough, acts0) ∧
        shouldRebalance l = true) ∧
     acts = [SpawnRebalance (topicConsumers (vars w)) (memberSubscriptions (vars w))] ∧
     running w' = 1 ∧
     shouldRebalance (vars w') = false ∧ canRebalance (vars w') = false) ∧
  (∀ w err rest,
     reachable w → exited w = false → rebalanceResultCh w = Some err :: rest →
     (exec w [RebalanceResult; RetryTimer]).2
       = [LogRebalanceFailed err;
          SpawnRebalance (topicConsumers (vars w)) (memberSubscriptions (vars w))] ∧
     running (exec w [RebalanceResult; RetryTimer]).1 = 1).
Proof.
  split_and!.
  - intros w w' acts Hw Hstep.
    pose proof (reachable_serialised _ Hw) as [Htoken _].
    split.
    + unfold GroupConsumer.step in Hstep.
      destruct (exited w); [done|].
      destruct (select BackOffTimeout (vars w) (rebalanceResultCh w) RebalanceResult)
        as [[[l ctl] acts0]|] eqn:Hselect; [|done].
      exists l, ctl, acts0. split; [done|].
      unfold select in Hselect. by repeat (case_match; simplify_eq/=).
    + intros err rest Hch. rewrite Hch in *. loop_inv Hstep.
      all: split_and!; try done; simpl in *; lia.
  - intros w w' acts Hw Hstep.
    pose proof (reachable_serialised _ Hw) as [Htoken Harmed].
    unfold GroupConsumer.step, select in Hstep |- *.
    destruct (exited w); [done|].
    destruct (nilOrRetryCh (vars w)) as [|timeout|] eqn:Htimer; try done.
    pose proof (Harmed timeout eq_refl) as Hcan.
    unfold maybeRebalance in Hstep. simpl in Hstep.
    rewrite Hcan in Hstep, Htoken. simpl in Hstep. simplify_eq/=.
    split_and!; eauto. lia.
  - intros w err rest Hw Hrun Hch.
    pose proof (reachable_serialised _ Hw) as [Htoken _].
    cbn [GroupConsumer.exec]. unfold GroupConsumer.step, select, maybeRebalance.
    rewrite Hrun, Hch in *. cbn in *. split; [done|lia].
Qed.

End ManagePartitions.

Lemma at_most_one_rebalance_witness :
  running (GroupConsumer.exec 100 init
             [MembershipChanged ∅; MembershipChanged ∅; RebalanceFinished None;
              RebalanceResult]).1 ≤ 1.
Proof.
  destruct (at_most_one_rebalance 100) as [Hone _].
  apply Hone. apply loop_exec_reachable, reachable_init.
Defined.

Lemma failed_rebalance_retried_after_backoff_witness :
  canRebalance
    (vars (GroupConsumer.exec 5000 init
             [MembershipChanged ∅; RebalanceFinished (Some "no partitions");
              RebalanceResult]).1) = true.
Proof.
  destruct (failed_rebalance_retried_after_backoff 5000) as [Hresult _].
  refine (proj1 (proj2 (Hresult
            (GroupConsumer.exec 5000 init
               [MembershipChanged ∅; RebalanceFinished (Some "no partitions")]).1
            _ [LogRebalanceFailed "no partitions"] _ _) "no partitions" [] _)).
  - apply loop_exec_reachable, reachable_init.
  - reflexivity.
  - reflexivity.
Defined.

Example retry_example :
  (GroupConsumer.exec 5000 init
     [MembershipChanged ∅; RebalanceFinished (Some "no partitions");
      RebalanceResult; RetryTimer]).2
  = [SpawnRebalance ∅ ∅; LogRebalanceFailed "no partitions"; SpawnRebalance ∅ ∅].
Proof. by vm_compute. Qed.

(** ** Rewiring a gear, one call at a time *)

Lemma stopMultiplexer_spec g :
  gear_topicConsumer (stopMultiplexer g).1 = gear_topicConsumer g.1 ∧
  exclusiveConsumers (stopMultiplexer g).1 = exclusiveConsumers g.1 ∧
  multiplexer (stopMultiplexer g).1 = None.
Proof. unfold stopMultiplexer. by destruct (multiplexer g.1) eqn:Hmux. Qed.

Lemma stop_loop_spec assigned entries : ∀ g,
  let g' := foldl (stop_unassigned assigned) g entries in
  gear_topicConsumer g'.1 = gear_topicConsumer g.1 ∧
  (∀ p, exclusiveConsumers g'.1 !! p =
        if decide (p ∈ entries.*1 ∧ default false (assigned !! p) = false)
        then None else exclusiveConsumers g.1 !! p) ∧
  (multiplexer g'.1 = None ∨ g'.1 = g.1).
Proof.
  induction entries as [|[partition ec] entries IH]; intros g; cbn [foldl].
  { split_and!; [done| |by right]. intros p. rewrite decide_False; [done|].
    intros [Hin _]. by apply elem_of_nil in Hin. }
  destruct (IH (stop_unassigned assigned g (partition, ec))) as (Htc & Hecs & Hmux).
  destruct (stopMultiplexer_spec g) as (Htc0 & Hecs0 & Hmux0).
  cbv zeta. rewrite Htc. split_and!.
  - unfold stop_unassigned. cbn [fst snd]. by destruct (default false (assigned !! partition)).
  - intros p. rewrite Hecs. rewrite fmap_cons. cbn [fst].
    unfold stop_unassigned. cbn [fst snd].
    destruct (default false (assigned !! partition)) eqn:Hassigned; cbn [negb fst snd exclusiveConsumers gear_topicConsumer multiplexer].
    + destruct (decide (p ∈ entries.*1 ∧ default false (assigned !! p) = false)) as [[Hin Hp]|Hn].
      * rewrite decide_True; [done|]. split; [by apply list_elem_of_further|done].
      * rewrite decide_False; [done|]. intros [Hin Hp]. apply Hn. split; [|done].
        apply elem_of_cons in Hin as [->|Hin]; [congruence|done].
    + rewrite Hecs0.
      destruct (decide (p ∈ entries.*1 ∧ default false (assigned !! p) = false)) as [[Hin Hp]|Hn].
      * rewrite decide_True; [done|]. split; [by apply list_elem_of_further|done].
      * destruct (decide (p = partition)) as [->|Hne].
        { rewrite lookup_delete_eq, decide_True; [done|]. split; [apply list_elem_of_here|done]. }
        rewrite lookup_delete_ne by done.
        destruct (decide (p ∈ partition :: entries.*1 ∧ default false (assigned !! p) = false)) as [[Hin Hp]|Hn']; [|done].
        destruct Hn. split; [|done]. apply elem_of_cons in Hin as [->|Hin]; done.
  - destruct Hmux as [Hnone|Heq]; [by left|]. rewrite Heq.
    unfold stop_unassigned. cbn [fst snd].
    destruct (default false (assigned !! partition)); cbn [negb fst snd exclusiveConsumers gear_topicConsumer multiplexer]; [by right|].
    by left.
Qed.

Lemma start_loop_spec partitions : ∀ g,
  let g' := foldl start_assigned g partitions in
  gear_topicConsumer g'.1 = gear_topicConsumer g.1 ∧
  dom (exclusiveConsumers g'.1) = dom (exclusiveConsumers g.1) ∪ list_to_set partitions ∧
  (multiplexer g'.1 = None ∨ g'.1 = g.1).
Proof.
  induction partitions as [|partition partitions IH]; intros g; cbn [foldl].
  { split_and!; [done|set_solver|by right]. }
  destruct (IH (start_assigned g partition)) as (Htc & Hecs & Hmux).
  destruct (stopMultiplexer_spec g) as (Htc0 & Hecs0 & Hmux0).
  cbv zeta. rewrite Htc, Hecs. clear Htc Hecs IH.
  unfold start_assigned in *.
  destruct (exclusiveConsumers g.1 !! partition) as [ec|] eqn:Hlookup;
    cbn [fst snd exclusiveConsumers gear_topicConsumer multiplexer] in *.
  - split_and!; [done| |done].
    assert (partition ∈ dom (exclusiveConsumers g.1)) by (by apply elem_of_dom).
    set_solver.
  - split_and!; [done| |].
    + rewrite dom_insert_L, Hecs0. set_solver.
    + left. destruct Hmux as [Hnone|Heq]; [done|]. by rewrite Heq.
Qed.

Lemma wire_spec g :
  gear_topicConsumer (wire g).1 = gear_topicConsumer g.1 ∧
  exclusiveConsumers (wire g).1 = exclusiveConsumers g.1 ∧
  (multiplexer g.1 = None → gear_invariant (wire g).1) ∧
  (multiplexer g.1 ≠ None → (wire g).1 = g.1).
Proof.
  unfold wire. case_decide as Hwire; cbn [fst snd exclusiveConsumers gear_topicConsumer multiplexer].
  - destruct Hwire as [Hnone Hsize]. split_and!; [done..| |congruence].
    intros _. unfold gear_invariant. cbn [exclusiveConsumers multiplexer]. split; [|done].
    intros Hempty. rewrite Hempty, map_size_empty in Hsize. lia.
  - split_and!; [done..| |done].
    intros Hnone. unfold gear_invariant. rewrite Hnone.
    destruct (decide (exclusiveConsumers g.1 = ∅)) as [|Hne]; [done|].
    destruct Hwire. split; [done|].
    destruct (size (exclusiveConsumers g.1)) eqn:Hsize; [|lia].
    by apply map_size_empty_inv in Hsize.
Qed.

Lemma rewireMultiplexer_spec tg assigned :
  gear_invariant tg →
  let tg' := (rewireMultiplexer tg assigned).1 in
  gear_topicConsumer tg' = gear_topicConsumer tg ∧
  dom (exclusiveConsumers tg') = dom assigned ∧
  gear_invariant tg'.
Proof.
  intros Hinv. unfold rewireMultiplexer. cbv zeta.
  destruct (stop_loop_spec assigned (map_to_list (exclusiveConsumers tg)) (tg, []))
    as (Htc1 & Hecs1 & Hmux1).
  set (g1 := foldl (stop_unassigned assigned) (tg, [])
               (map_to_list (exclusiveConsumers tg))) in *.
  destruct (start_loop_spec (map_to_list assigned).*1 g1) as (Htc2 & Hecs2 & Hmux2).
  set (g2 := foldl start_assigned g1 (map_to_list assigned).*1) in *.
  destruct (wire_spec g2) as (Htc3 & Hecs3 & Hwire & Hkeep).
  cbn [fst] in *. split_and!.
  - congruence.
  - rewrite Hecs3, Hecs2. apply set_eq. intros p.
    rewrite elem_of_union, elem_of_list_to_set.
    assert (p ∈ (map_to_list assigned).*1 ↔ p ∈ dom assigned) as ->.
    { rewrite elem_of_dom, list_elem_of_fmap. split.
      - intros ([p' b] & -> & Hin). apply elem_of_map_to_list in Hin. by eexists.
      - intros [b Hb]. exists (p, b). split; [done|]. by apply elem_of_map_to_list. }
    split; [|by right]. intros [Hin|?]; [|done].
    apply elem_of_dom in Hin as [ec Hec].
    rewrite Hecs1 in Hec. case_decide as Hcase; [done|].
    apply elem_of_dom.
    destruct (assigned !! p) eqn:Hp; [by eexists|]. exfalso. apply Hcase. split; [|done].
    apply list_elem_of_fmap. exists (p, ec). split; [done|].
    by apply elem_of_map_to_list.
  - destruct (multiplexer g2.1) as [muxIns|] eqn:Hmux; [|by apply Hwire].
    rewrite Hkeep by congruence.
    destruct Hmux2 as [Hnone|Heq2]; [congruence|].
    rewrite Heq2 in Hmux |- *.
    destruct Hmux1 as [Hnone|Heq1]; [congruence|].
    by rewrite Heq1.
Qed.

Lemma new_gear_invariant tc : gear_invariant (new_gear tc).
Proof. done. Qed.

Lemma rewired_invariant tc calls : gear_invariant (rewired tc calls).
Proof.
  unfold rewired. induction calls as [|assigned calls IH] using rev_ind.
  - apply new_gear_invariant.
  - rewrite foldl_app. cbn [foldl]. by apply rewireMultiplexer_spec.
Qed.

Lemma gear_invariant_multiplexer tg :
  gear_invariant tg → (is_Some (multiplexer tg) ↔ exclusiveConsumers tg ≠ ∅).
Proof.
  unfold gear_invariant. destruct (multiplexer tg); split; naive_solver.
Qed.

Section Rebalance.
Variable ClientID : string.
Variable Partitions : string → option (list Z).

Lemma add_gear_rewired_with assignedPartitions topicConsumers entries : ∀ topicGears,
  (∀ entry, entry ∈ entries → assignedPartitions !! entry.1 = Some entry.2) →
  rewired_with assignedPartitions topicGears →
  rewired_with assignedPartitions (foldl (add_gear topicConsumers) topicGears entries).
Proof.
  induction entries as [|[topic assigned] entries IH]; intros topicGears Hentries Hgears;
    cbn [foldl]; [done|].
  apply IH.
  { intros entry Hin. apply Hentries. by apply list_elem_of_further. }
  unfold add_gear. cbn [fst snd].
  destruct (topicConsumers !! topic) as [tc|]; [|done].
  destruct (topicGears !! topic) eqn:Hgear; [done|].
  intros topic' tg. rewrite lookup_insert. case_decide as Htopic; [|apply Hgears].
  subst topic'. intros [= <-]. exists (new_gear tc). split; [done|].
  pose proof (Hentries (topic, assigned) (list_elem_of_here _ _)) as Hassigned.
  cbn [fst snd] in Hassigned. by rewrite Hassigned.
Qed.

Lemma rebalance_spec topicGears topicConsumers subscriptions topicGears' :
  (∀ topic tg, topicGears !! topic = Some tg → gear_invariant tg) →
  rebalance ClientID Partitions topicGears topicConsumers subscriptions
    = Rebalanced topicGears' →
  ∃ assignedPartitions,
    resolvePartitions ClientID Partitions subscriptions = Resolved assignedPartitions ∧
    (∀ topic tg, topicGears' !! topic = Some tg →
       is_Some (multiplexer tg) ∧ exclusiveConsumers tg ≠ ∅ ∧
       dom (exclusiveConsumers tg) = dom (default ∅ (assignedPartitions !! topic)) ∧
       gear_invariant tg) ∧
    (∀ topic, default ∅ (assignedPartitions !! topic) = ∅ → topicGears' !! topic = None).
Proof.
  intros Hinv. unfold rebalance.
  destruct (resolvePartitions ClientID Partitions subscriptions)
    as [assignedPartitions| |]; [|done..].
  intros [= <-]. exists assignedPartitions. split; [done|].
  set (gears1 := map_imap _ topicGears).
  assert (rewired_with assignedPartitions
            (foldl (add_gear topicConsumers) gears1 (map_to_list assignedPartitions)))
    as Hrewired.
  { apply add_gear_rewired_with.
    - intros [topic assigned] Hin. by apply elem_of_map_to_list in Hin.
    - intros topic tg. unfold gears1. rewrite map_lookup_imap.
      destruct (topicGears !! topic) as [tg0|] eqn:Hgear; [|done].
      cbn. intros [= <-]. exists tg0. split; [by eapply Hinv|done]. }
  split.
  - intros topic tg [Hgear Hmux]%map_lookup_filter_Some. cbn [snd] in Hmux.
    destruct (Hrewired topic tg Hgear) as (tg0 & Hinv0 & ->).
    destruct (rewireMultiplexer_spec tg0 (default ∅ (assignedPartitions !! topic)) Hinv0)
      as (_ & Hdom & Hinv').
    assert (is_Some (multiplexer
              (rewireMultiplexer tg0 (default ∅ (assignedPartitions !! topic))).1))
      as Hsome.
    { destruct (multiplexer _); [by eexists|done]. }
    split_and!; [done| |done..].
    by apply gear_invariant_multiplexer.
  - intros topic Hempty.
    apply map_lookup_filter_None. right. intros tg Hgear. cbn [snd].
    destruct (Hrewired topic tg Hgear) as (tg0 & Hinv0 & ->).
    destruct (rewireMultiplexer_spec tg0 (default ∅ (assignedPartitions !! topic)) Hinv0)
      as (_ & Hdom & Hinv').
    rewrite Hempty in Hdom |- *. rewrite dom_empty_L in Hdom.
    apply dom_empty_inv_L in Hdom.
    unfold gear_invariant in Hinv'. rewrite Hempty in Hinv'.
    destruct (multiplexer (rewireMultiplexer tg0 ∅).1); [|naive_solver].
    by destruct Hinv'.
Qed.

End Rebalance.

(** Calls that run one after another on a gear keep its invariants.  On a
    gear that [rebalance] created, after any earlier calls each of which
    returned before the next began, a call of [rewireMultiplexer] that
    runs without another call on the gear leaves it with exclusive
    consumers for exactly the keys of [assigned] (the partitions that read
    [true] there, as all entries of a computed assignment do), with a
    multiplexer if and only if it has exclusive consumers, wired to all of
    them.  A rebalance whose calls find gears that satisfy the invariant
    keeps, when it completes, only gears with a multiplexer: every gear
    left has exclusive consumers for exactly the partitions assigned for
    its topic, and no gear is left for a topic without assigned
    partitions. *)
Theorem rewire_keeps_gear_invariants :
  (∀ tc calls assigned,
     let tg := (rewireMultiplexer (rewired tc calls) assigned).1 in
     dom (exclusiveConsumers tg) = dom assigned ∧
     (is_Some (multiplexer tg) ↔ exclusiveConsumers tg ≠ ∅) ∧
     (∀ muxIns, multiplexer tg = Some muxIns →
                muxIns = (map_to_list (exclusiveConsumers tg)).*2) ∧
     ((∀ p b, assigned !! p = Some b → b = true) →
      ∀ p, is_Some (exclusiveConsumers tg !! p) ↔ default false (assigned !! p) = true)) ∧
  (∀ ClientID Partitions topicGears topicConsumers subscriptions topicGears',
     (∀ topic tg, topicGears !! topic = Some tg → gear_invariant tg) →
     rebalance ClientID Partitions topicGears topicConsumers subscriptions
       = Rebalanced topicGears' →
     ∃ assignedPartitions,
       resolvePartitions ClientID Partitions subscriptions = Resolved assignedPartitions ∧
       (∀ topic tg, topicGears' !! topic = Some tg →
          is_Some (multiplexer tg) ∧ exclusiveConsumers tg ≠ ∅ ∧
          dom (exclusiveConsumers tg) = dom (default ∅ (assignedPartitions !! topic)) ∧
          gear_invariant tg) ∧
       (∀ topic, default ∅ (assignedPartitions !! topic) = ∅ →
                 topicGears' !! topic = None)).
Proof.
  split.
  - intros tc calls assigned.
    destruct (rewireMultiplexer_spec (rewired tc calls) assigned (rewired_invariant tc calls))
      as (_ & Hdom & Hinv).
    cbv zeta. split_and!; [done|by apply gear_invariant_multiplexer| |].
    + intros muxIns Hmux. unfold gear_invariant in Hinv. rewrite Hmux in Hinv.
      by destruct Hinv.
    + intros Htrue p. rewrite <-elem_of_dom, Hdom, elem_of_dom. split.
      * intros [b Hb]. rewrite Hb. simpl. by eapply Htrue.
      * destruct (assigned !! p); [by eexists|done].
  - intros ClientID Partitions. apply rebalance_spec.
Qed.

Lemma rewire_keeps_gear_invariants_witness :
  ∃ topicGears',
    rebalance "me" (λ _, Some [1; 0]%Z) ∅ {["t" := TopicConsumer "t" 0]}
              {["me" := ["t"]]} = Rebalanced topicGears' ∧
    ∀ topic tg, topicGears' !! topic = Some tg → is_Some (multiplexer tg).
Proof.
  eexists. split; [vm_compute; reflexivity|].
  intros topic tg Hgear.
  destruct rewire_keeps_gear_invariants as [_ Hrebalance].
  destruct (Hrebalance "me" (λ _, Some [1; 0]%Z) ∅ {["t" := TopicConsumer "t" 0]}
              {["me" := ["t"]]} _
              ltac:(intros ? ? H; by rewrite lookup_empty in H) eq_refl)
    as (assignedPartitions & _ & Hkept & _).
  by destruct (Hkept topic tg Hgear).
Defined.

End GroupConsumerFacts.

(** * More about the partition assignment *)
Module AssignmentMore.

Import Assignment AssignmentFacts.

(** ** Entries of the returned map *)

Lemma lookup_add_partition m s p s' :
  add_partition m s p !! s' =
    if decide (s = s') then Some (<[p := true]> (assigned_to m s)) else m !! s'.
Proof. unfold add_partition. rewrite lookup_insert. by case_decide. Qed.

Lemma fill_no_empty m s block :
  (∀ s' ps, m !! s' = Some ps → ps ≠ ∅) →
  ∀ s' ps, foldl (λ m p, add_partition m s p) m block !! s' = Some ps → ps ≠ ∅.
Proof.
  revert m. induction block as [|p block IH]; intros m Hm; cbn [foldl]; [done|].
  apply IH. intros s' ps. rewrite lookup_add_partition.
  case_decide; [|apply Hm]. intros [= <-]. apply insert_non_empty.
Qed.

Lemma assign_loop_no_empty partitions q subscribers : ∀ begin extra m m',
  (∀ s ps, m !! s = Some ps → ps ≠ ∅) →
  assign_loop partitions q subscribers begin extra m = Some m' →
  ∀ s ps, m' !! s = Some ps → ps ≠ ∅.
Proof.
  induction subscribers as [|sub rest IH]; intros begin extra m m' Hm; cbn [assign_loop].
  { by intros [= <-]. }
  destruct (decide (extra ≠ 0));
    (destruct (subslice partitions begin _) as [block|]; [|done]);
    apply IH; by apply fill_no_empty.
Qed.

(** The returned map has an entry only for a subscriber, every entry holds
    at least one partition, and everything stored is a partition of the
    input flagged [true]. *)
Theorem assign_entries (partitions : list Z) (subscribers : list string) (m : assignment) :
  result (assignPartitionsToSubscribers partitions subscribers) = Some m →
  (∀ s ps, m !! s = Some ps → s ∈ subscribers ∧ ps ≠ ∅) ∧
  (∀ s p b, assigned_to m s !! p = Some b → b = true ∧ p ∈ partitions).
Proof.
  intros Hm.
  destruct (decide (partitions = [] ∨ subscribers = [])) as [Hempty|Hne].
  { rewrite assign_empty in Hm by done. injection Hm as <-.
    split; [intros s ps|intros s p b; unfold assigned_to];
      by rewrite lookup_empty. }
  assert (partitions ≠ [] ∧ subscribers ≠ []) as [Hp Hs] by tauto.
  destruct (assign_nonempty partitions subscribers Hp Hs) as (m' & Hm' & Htrue & Hdom).
  rewrite Hm in Hm'. injection Hm' as <-.
  assert (∀ s p, p ∈ partitions_of m s → s ∈ subscribers ∧ p ∈ partitions) as Hin.
  { intros s p (i & Hi & Hblock)%Hdom. split.
    - rewrite <-sortStrings_perm. by eapply list_elem_of_lookup_2.
    - apply elem_of_reference_block in Hblock as (x & Hx & _).
      rewrite <-sortInt32_perm. by eapply list_elem_of_lookup_2. }
  assert (∀ s ps, m !! s = Some ps → ps ≠ ∅) as Hnonempty.
  { unfold assignPartitionsToSubscribers in Hm.
    rewrite decide_False in Hm.
    - cbn [result] in Hm. eapply assign_loop_no_empty; [|exact Hm].
      intros s ps. by rewrite lookup_empty.
    - destruct partitions, subscribers; naive_solver. }
  split.
  - intros s ps Hps. split; [|by eapply Hnonempty].
    pose proof (Hnonempty s ps Hps) as Hne'.
    destruct (map_choose ps Hne') as (p & b & Hb).
    apply (Hin s p). unfold partitions_of, assigned_to. rewrite Hps.
    apply elem_of_dom. by eexists.
  - intros s p b Hb. split; [by eapply Htrue|].
    apply (Hin s p). unfold partitions_of. apply elem_of_dom. by eexists.
Qed.

Lemma assign_entries_witness :
  ∃ m, result (assignPartitionsToSubscribers [4; 7]%Z ["b"; "a"; "c"]) = Some m ∧
       ∀ s ps, m !! s = Some ps → s ∈ ["b"; "a"; "c"] ∧ ps ≠ ∅.
Proof.
  destruct (assign_refines_reference [4; 7]%Z ["b"; "a"; "c"]) as (m & Hm & _).
  exists m. split; [exact Hm|]. by apply (assign_entries [4; 7]%Z ["b"; "a"; "c"]).
Defined.

(** ** Fewer partitions than subscribers *)

(** With fewer partitions than subscribers (no repeats), the first
    subscribers in sorted order get one partition each, in ascending order,
    and the remaining subscribers have no entry in the returned map. *)
Theorem fewer_partitions_than_subscribers (partitions : list Z) (subscribers : list string)
    (m : assignment) :
  result (assignPartitionsToSubscribers partitions subscribers) = Some m →
  NoDup partitions → NoDup subscribers →
  partitions ≠ [] → length partitions < length subscribers →
  ∀ i s, sortStrings subscribers !! i = Some s →
    if decide (i < length partitions)
    then ∃ p, sortInt32 partitions !! i = Some p ∧ partitions_of m s = {[p]}
    else m !! s = None.
Proof.
  intros Hm Hnp Hns Hp Hlt i s Hi.
  assert (subscribers ≠ []) as Hs by (intros ->; simpl in Hlt; lia).
  pose proof (assign_block partitions subscribers m Hp Hs Hm i s Hns Hi) as Hblock.
  pose proof (assign_size partitions subscribers m Hp Hs Hm i s Hnp Hns Hi) as Hsize.
  rewrite Nat.div_small, Nat.mod_small in Hsize by done.
  case_decide as Hin.
  - destruct (lookup_lt_is_Some_2 (sortInt32 partitions) i) as [p Hp'].
    { by rewrite sortInt32_length. }
    exists p. split; [done|]. rewrite Hblock. unfold reference_block.
    rewrite sortInt32_length, Nat.div_small, Nat.mod_small by done.
    rewrite decide_True by done.
    replace (i * 0 + i `min` length partitions) with i by lia.
    rewrite (drop_S _ p i) by done. simpl. set_solver.
  - destruct (m !! s) as [ps|] eqn:Hps; [|done]. exfalso.
    destruct (assign_entries partitions subscribers m Hm) as [Hentries _].
    destruct (Hentries s ps Hps) as [_ Hne]. apply Hne.
    unfold assigned_to in Hsize. rewrite Hps in Hsize. simpl in Hsize.
    by apply map_size_empty_inv.
Qed.

Lemma fewer_partitions_than_subscribers_witness :
  ∃ m, result (assignPartitionsToSubscribers [4; 7]%Z ["b"; "a"; "c"]) = Some m ∧
       m !! "c" = None.
Proof.
  destruct (assign_refines_reference [4; 7]%Z ["b"; "a"; "c"]) as (m & Hm & _).
  exists m. split; [exact Hm|].
  apply (fewer_partitions_than_subscribers [4; 7]%Z ["b"; "a"; "c"] m Hm
           ltac:(apply (bool_decide_unpack _); vm_compute; exact I)
           ltac:(apply (bool_decide_unpack _); vm_compute; exact I)
           ltac:(done) ltac:(simpl; lia) 2 "c").
  by vm_compute.
Defined.

(** ** Calling again on the slices a call left behind *)

Lemma sortInt32_sorted_id p : StronglySorted Z.le p → sortInt32 p = p.
Proof.
  intros Hp. apply (StronglySorted_unique Z.le); [apply sortInt32_sorted|done|].
  apply sortInt32_perm.
Qed.

Lemma sortStrings_sorted_id s : StronglySorted String.le s → sortStrings s = s.
Proof.
  intros Hs. apply (StronglySorted_unique String.le); [apply sortStrings_sorted|done|].
  apply sortStrings_perm.
Qed.

(** A second call on the slices as the first call left them returns the
    same map and leaves the slices as they are. *)
Theorem assign_again (partitions : list Z) (subscribers : list string) :
  let first := assignPartitionsToSubscribers partitions subscribers in
  assignPartitionsToSubscribers (partitions_after first) (subscribers_after first) = first.
Proof.
  cbv zeta.
  destruct (decide (length partitions = 0 ∨ length subscribers = 0)) as [Hempty|Hne].
  - unfold assignPartitionsToSubscribers. cbv zeta.
    rewrite (decide_True (P := length partitions = 0 ∨ length subscribers = 0)) by exact Hempty.
    cbn [partitions_after subscribers_after].
    by rewrite (decide_True (P := length partitions = 0 ∨ length subscribers = 0)).
  - unfold assignPartitionsToSubscribers. cbv zeta.
    rewrite (decide_False (P := length partitions = 0 ∨ length subscribers = 0)) by exact Hne.
    cbn [partitions_after subscribers_after].
    rewrite sortInt32_length, sortStrings_length.
    rewrite (decide_False (P := length partitions = 0 ∨ length subscribers = 0)) by exact Hne.
    by rewrite (sortInt32_sorted_id _ (sortInt32_sorted _)),
               (sortStrings_sorted_id _ (sortStrings_sorted _)).
Qed.

End AssignmentMore.

(** * Facts about [Int32Slice] *)
Module Int32SliceFacts.

Import Assignment AssignmentFacts Int32Slice.

Lemma insert_Permutation_cons (l : list Z) j y a :
  l !! j = Some y → y :: <[j:=a]> l ≡ₚ a :: l.
Proof.
  revert j. induction l as [|b l IH]; intros [|j] Hj; simplify_eq/=.
  - apply perm_swap.
  - rewrite perm_swap, (IH j Hj). apply perm_swap.
Qed.

Lemma swap_Permutation (l : list Z) i j x y :
  l !! i = Some x → l !! j = Some y → <[j:=x]> (<[i:=y]> l) ≡ₚ l.
Proof.
  revert i j. induction l as [|a l IH]; intros [|i] [|j] Hi Hj; simplify_eq/=.
  - done.
  - by apply insert_Permutation_cons.
  - by apply insert_Permutation_cons.
  - f_equiv. by apply IH.
Qed.

(** [Swap] panics exactly when an index is out of range; otherwise it
    exchanges the two elements, keeps every other element and the length,
    rearranges the slice, and undoes itself when applied again. *)
Theorem Swap_exchanges (p : list Z) (i j : nat) :
  (is_Some (Swap p i j) ↔ i < Len p ∧ j < Len p) ∧
  ∀ p', Swap p i j = Some p' →
    Len p' = Len p ∧ p' !! i = p !! j ∧ p' !! j = p !! i ∧
    (∀ k, k ≠ i → k ≠ j → p' !! k = p !! k) ∧
    p' ≡ₚ p ∧ Swap p' i j = Some p.
Proof.
  unfold Swap, Len. split.
  - rewrite <-!lookup_lt_is_Some. split.
    + intros [p' Hp']. destruct (p !! i), (p !! j); naive_solver.
    + intros [[pi ->] [pj ->]]. by eexists.
  - intros p' Hp'.
    destruct (p !! i) as [pi|] eqn:Hi; [|done].
    destruct (p !! j) as [pj|] eqn:Hj; [|done].
    simpl in Hp'. injection Hp' as <-.
    pose proof (lookup_lt_Some _ _ _ Hi) as Hilt.
    pose proof (lookup_lt_Some _ _ _ Hj) as Hjlt.
    assert (<[j:=pi]> (<[i:=pj]> p) !! i = Some pj) as Hi'.
    { destruct (decide (i = j)) as [->|Hne].
      - rewrite list_lookup_insert_eq by (by rewrite length_insert). congruence.
      - rewrite list_lookup_insert_ne by done. by rewrite list_lookup_insert_eq. }
    assert (<[j:=pi]> (<[i:=pj]> p) !! j = Some pi) as Hj'.
    { by rewrite list_lookup_insert_eq by (by rewrite length_insert). }
    assert (∀ k, k ≠ i → k ≠ j → <[j:=pi]> (<[i:=pj]> p) !! k = p !! k) as Hk.
    { intros k Hki Hkj. by rewrite !list_lookup_insert_ne. }
    split_and!; [by rewrite !length_insert|congruence|congruence|done| |].
    + by apply swap_Permutation.
    + rewrite Hi', Hj'. simpl. f_equal.
      apply list_eq. intros k.
      destruct (decide (k = j)) as [->|Hkj].
      { by rewrite list_lookup_insert_eq by (by rewrite !length_insert). }
      rewrite list_lookup_insert_ne by done.
      destruct (decide (k = i)) as [->|Hki].
      { by rewrite list_lookup_insert_eq by (by rewrite !length_insert). }
      rewrite list_lookup_insert_ne by done. by apply Hk.
Qed.

Lemma Swap_exchanges_witness :
  Swap [5; 3; 9]%Z 0 2 = Some [9; 3; 5]%Z ∧ Swap [9; 3; 5]%Z 0 2 = Some [5; 3; 9]%Z.
Proof.
  split; [reflexivity|].
  by apply (Swap_exchanges [5; 3; 9]%Z 0 2).
Defined.

Lemma Less_adjacent_sorted (p : list Z) :
  (∀ i, 0 < i < Len p → Less p i (i - 1) = Some false) ↔ StronglySorted Z.le p.
Proof.
  unfold Len, Less. split.
  - intros Hless. apply Sorted_StronglySorted; [apply _|].
    induction p as [|a p IH]; [constructor|].
    constructor.
    + apply IH. intros i Hi. specialize (Hless (S i)).
      cbn [length] in Hless. specialize (Hless ltac:(lia)).
      destruct i as [|i]; [lia|].
      by replace (S (S i) - 1) with (S (S i - 1)) in Hless by lia.
    + destruct p as [|b p]; constructor.
      specialize (Hless 1 ltac:(simpl; lia)). simpl in Hless.
      injection Hless as Hless. apply bool_decide_eq_false in Hless. lia.
  - induction 1 as [|a p Hp IH Hall]; intros i Hi; [simpl in Hi; lia|].
    destruct i as [|[|i]]; [lia| |].
    + destruct p as [|b p]; [simpl in Hi; lia|]. simpl.
      apply Forall_cons in Hall as [Hab _].
      f_equal. apply bool_decide_eq_false. lia.
    + specialize (IH (S i)). cbn [length] in Hi. specialize (IH ltac:(lia)).
      by replace (S (S i) - 1) with (S (S i - 1)) by lia.
Qed.

(** [sort.Sort(Int32Slice(p))] leaves a rearrangement of [p] in which
    [Less] never puts an element before its left neighbour.  There is
    exactly one such slice, and it is [sortInt32 p]. *)
Theorem sorted_by_Less (p p' : list Z) :
  p' = sortInt32 p ↔
  p' ≡ₚ p ∧ ∀ i, 0 < i < Len p' → Less p' i (i - 1) = Some false.
Proof.
  rewrite Less_adjacent_sorted. split.
  - intros ->. split; [apply sortInt32_perm|apply sortInt32_sorted].
  - intros [Hperm Hsorted].
    apply (StronglySorted_unique Z.le); [done|apply sortInt32_sorted|].
    by rewrite sortInt32_perm.
Qed.

End Int32SliceFacts.

(** * Facts about [resolvePartitions] *)
Module ResolveFacts.

Import Assignment AssignmentFacts GroupConsumer Resolve.

(** ** Inverting the subscriptions *)

Lemma invert_topics_spec (s : string) topics : ∀ acc t,
  ∃ n, subscribers_of
         (foldl (λ acc topic, <[topic := default [] (acc !! topic) ++ [s]]> acc) acc topics) t
       = subscribers_of acc t ++ replicate n s ∧
       (0 < n ↔ t ∈ topics) ∧ (NoDup topics → n ≤ 1).
Proof.
  induction topics as [|t0 topics IH]; intros acc t; cbn [foldl].
  { exists 0. rewrite (right_id [] (++)). split_and!; [done| |lia].
    split; [lia|]. intros Hin. by apply elem_of_nil in Hin. }
  destruct (IH (<[t0 := default [] (acc !! t0) ++ [s]]> acc) t) as (n & Heq & Hpos & Hle).
  rewrite Heq. unfold subscribers_of at 1. rewrite lookup_insert.
  destruct (decide (t0 = t)) as [->|Hne]; simpl.
  - exists (S n). split_and!.
    + by rewrite <-(assoc (++)).
    + split; [intros _; apply list_elem_of_here|lia].
    + intros [Hnotin Hnodup]%NoDup_cons. specialize (Hle Hnodup).
      destruct n; [lia|]. exfalso. apply Hnotin, Hpos. lia.
  - exists n. split_and!; [done| |].
    + rewrite Hpos. split; [by apply list_elem_of_further|].
      intros [?|?]%elem_of_cons; done.
    + intros [_ Hnodup]%NoDup_cons. auto.
Qed.

Lemma invert_entries_spec entries : ∀ acc t,
  let acc' :=
    foldl (λ acc (entry : string * list string),
             foldl (λ acc topic, <[topic := default [] (acc !! topic) ++ [entry.1]]> acc)
                   acc entry.2) acc entries in
  (∀ s, s ∈ subscribers_of acc' t ↔
        s ∈ subscribers_of acc t ∨ ∃ topics, (s, topics) ∈ entries ∧ t ∈ topics) ∧
  (NoDup entries.*1 → (∀ entry, entry ∈ entries → NoDup entry.2) →
   (∀ s, s ∈ subscribers_of acc t → s ∉ entries.*1) →
   NoDup (subscribers_of acc t) → NoDup (subscribers_of acc' t)).
Proof.
  induction entries as [|[s0 topics0] entries IH]; intros acc t; cbn [foldl].
  { split; [|done]. intros s. split; [auto|]. intros [?|(topics & Hin & _)]; [done|].
    by apply elem_of_nil in Hin. }
  cbn [fst snd].
  destruct (invert_topics_spec s0 topics0 acc t) as (n & Heq & Hpos & Hle).
  set (acc1 := foldl (λ acc topic, <[topic := default [] (acc !! topic) ++ [s0]]> acc)
                     acc topics0) in *.
  destruct (IH acc1 t) as [Hmem Hnodup]. cbv zeta in *. split.
  - intros s. rewrite Hmem, Heq, elem_of_app. split.
    + intros [[?|Hrep]|(topics & Hin & Ht)]; [by left| |].
      * apply elem_of_replicate in Hrep as [-> Hn]. right. exists topics0.
        split; [apply list_elem_of_here|]. apply Hpos. lia.
      * right. exists topics. split; [by apply list_elem_of_further|done].
    + intros [?|(topics & Hin & Ht)]; [by left; left|].
      apply elem_of_cons in Hin as [[= -> ->]|Hin].
      * left. right. apply elem_of_replicate. split; [done|]. apply Hpos in Ht. lia.
      * right. by exists topics.
  - rewrite fmap_cons. cbn [fst].
    intros [Hs0 Hkeys]%NoDup_cons Htopics Hfresh Hacc.
    apply Hnodup; [done|..].
    + intros entry Hin. apply Htopics. by apply list_elem_of_further.
    + intros s. rewrite Heq, elem_of_app.
      intros [Hin|Hrep].
      * intros Hs. apply (Hfresh s Hin). by apply list_elem_of_further.
      * apply elem_of_replicate in Hrep as [-> _]. done.
    + rewrite Heq. apply NoDup_app. split_and!; [done| |].
      * intros s Hin Hrep. apply elem_of_replicate in Hrep as [-> _].
        apply (Hfresh s0 Hin). apply list_elem_of_here.
      * specialize (Hle (Htopics (s0, topics0) (list_elem_of_here _ _))).
        destruct n as [|[|n]]; [constructor|apply NoDup_singleton|lia].
Qed.

(** A subscriber is listed for a topic exactly when its subscription names
    the topic; when no subscription names a topic twice, no subscriber is
    listed twice. *)
Theorem invert_spec (subscribersToTopics : gmap string (list string)) (topic : string) :
  (∀ s, s ∈ subscribers_of (invert subscribersToTopics) topic ↔
        ∃ topics, subscribersToTopics !! s = Some topics ∧ topic ∈ topics) ∧
  ((∀ s topics, subscribersToTopics !! s = Some topics → NoDup topics) →
   NoDup (subscribers_of (invert subscribersToTopics) topic)).
Proof.
  destruct (invert_entries_spec (map_to_list subscribersToTopics) ∅ topic) as [Hmem Hnodup].
  unfold invert. cbv zeta in *. split.
  - intros s. rewrite Hmem. unfold subscribers_of at 1. rewrite lookup_empty. simpl.
    split.
    + intros [Hin|(topics & Hin & Ht)]; [by apply elem_of_nil in Hin|].
      exists topics. by apply elem_of_map_to_list in Hin.
    + intros (topics & Hs & Ht). right. exists topics.
      split; [by apply elem_of_map_to_list|done].
  - intros Htopics. apply Hnodup.
    + apply NoDup_fst_map_to_list.
    + intros [s topics] Hin. apply (elem_of_map_to_list subscribersToTopics s topics) in Hin.
      simpl. by eapply Htopics.
    + intros s. unfold subscribers_of. rewrite lookup_empty. simpl.
      intros Hin. by apply elem_of_nil in Hin.
    + unfold subscribers_of. rewrite lookup_empty. constructor.
Qed.

(** ** The loop over the subscribed topics *)

Section Resolve.
Variable ClientID : string.
Variable Partitions : string → option (list Z).

Lemma resolve_topic_stuck t2s r topics :
  (∀ m, r ≠ Resolved m) → foldl (resolve_topic ClientID Partitions t2s) r topics = r.
Proof.
  intros Hr. induction topics as [|t topics IH]; cbn [foldl]; [done|].
  destruct r; [by destruct (Hr assignedPartitions)|exact IH..].
Qed.

Lemma resolve_loop_spec t2s topics : ∀ acc,
  match foldl (resolve_topic ClientID Partitions t2s) (Resolved acc) topics with
  | Resolved m =>
      (∀ t, m !! t = if decide (t ∈ topics)
                     then resolved_entry ClientID Partitions t2s t else acc !! t) ∧
      (∀ t, t ∈ topics → is_Some (resolved_entry ClientID Partitions t2s t))
  | ResolveFailed t => t ∈ topics ∧ Partitions t = None
  | ResolvePanicked => False
  end.
Proof.
  induction topics as [|t0 topics IH]; intros acc; cbn [foldl].
  { split; [|by intros t Hin; apply elem_of_nil in Hin].
    intros t. rewrite decide_False; [done|]. intros Hin. by apply elem_of_nil in Hin. }
  unfold resolve_topic at 2.
  destruct (Partitions t0) as [topicPartitions|] eqn:Hpartitions.
  - destruct (assign_refines_reference topicPartitions (default [] (t2s !! t0)))
      as (out & Hout & _).
    rewrite Hout.
    assert (resolved_entry ClientID Partitions t2s t0 = Some (assigned_to out ClientID))
      as Hentry.
    { unfold resolved_entry, subscribers_of. rewrite Hpartitions. simpl. by rewrite Hout. }
    specialize (IH (<[t0 := assigned_to out ClientID]> acc)).
    destruct (foldl _ _ topics) as [m|t|]; [|destruct IH; split;
      [by apply list_elem_of_further|done]|done].
    destruct IH as [Hm Hsome]. split.
    + intros t. rewrite Hm.
      destruct (decide (t ∈ topics)) as [Hin|Hnotin].
      * rewrite decide_True; [done|]. by apply list_elem_of_further.
      * rewrite lookup_insert. destruct (decide (t0 = t)) as [->|Hne].
        { rewrite decide_True; [done|]. apply list_elem_of_here. }
        rewrite decide_False; [done|]. intros [?|?]%elem_of_cons; congruence.
    + intros t [->|Hin]%elem_of_cons; [by rewrite Hentry|by apply Hsome].
  - rewrite resolve_topic_stuck by done. split; [apply list_elem_of_here|done].
Qed.

(** [resolvePartitions] never panics.  It fails exactly when the partition
    list of a topic this member subscribed to cannot be read, and names
    such a topic.  Otherwise the returned map has an entry exactly for the
    topics this member subscribed to, each holding what
    [assignPartitionsToSubscribers] gives this member among the topic's
    subscribers, and every stored flag is [true]. *)
Theorem resolvePartitions_spec (subscribersToTopics : gmap string (list string)) :
  let subscribed := default [] (subscribersToTopics !! ClientID) in
  match resolvePartitions ClientID Partitions subscribersToTopics with
  | Resolved assignedPartitions =>
      (∀ topic, topic ∈ subscribed → is_Some (Partitions topic)) ∧
      (∀ topic,
         assignedPartitions !! topic =
         if decide (topic ∈ subscribed)
         then resolved_entry ClientID Partitions (invert subscribersToTopics) topic
         else None) ∧
      (∀ topic assigned p b,
         assignedPartitions !! topic = Some assigned → assigned !! p = Some b → b = true)
  | ResolveFailed topic => topic ∈ subscribed ∧ Partitions topic = None
  | ResolvePanicked => False
  end.
Proof.
  cbv zeta. unfold resolvePartitions.
  set (subscribed := default [] (subscribersToTopics !! ClientID)).
  pose proof (resolve_loop_spec (invert subscribersToTopics)
                (elements (list_to_set subscribed : gset string)) ∅) as Hloop.
  assert (∀ t, t ∈ elements (list_to_set subscribed : gset string) ↔ t ∈ subscribed) as Helem.
  { intros t. by rewrite elem_of_elements, elem_of_list_to_set. }
  destruct (foldl _ _ _) as [m|t|]; [|by rewrite <-Helem|done].
  destruct Hloop as [Hm Hsome].
  assert (∀ topic, m !! topic =
            if decide (topic ∈ subscribed)
            then resolved_entry ClientID Partitions (invert subscribersToTopics) topic
            else None) as Hm'.
  { intros topic. rewrite Hm, lookup_empty.
    destruct (decide (topic ∈ subscribed)) as [Hin|Hnotin].
    - rewrite decide_True; [done|]. by apply Helem.
    - rewrite decide_False; [done|]. by rewrite Helem. }
  split_and!; [|done|].
  - intros topic Hin. apply Helem, Hsome in Hin as [a Ha].
    unfold resolved_entry in Ha. destruct (Partitions topic); [by eexists|done].
  - intros topic assigned p b. rewrite Hm'. case_decide; [|done].
    unfold resolved_entry.
    destruct (Partitions topic) as [topicPartitions|]; [|done]. simpl.
    destruct (assign_refines_reference topicPartitions
                (subscribers_of (invert subscribersToTopics) topic))
      as (out & Hout & Htrue & _).
    rewrite Hout. simpl. intros [= <-]. apply Htrue.
Qed.

End Resolve.

Lemma invert_spec_witness :
  NoDup (subscribers_of (invert {["a" := ["t"; "u"]; "b" := ["t"]]}) "t").
Proof.
  apply (invert_spec {["a" := ["t"; "u"]; "b" := ["t"]]} "t").
  intros s topics Hs.
  destruct (decide (s = "a")) as [->|Ha].
  { vm_compute in Hs. injection Hs as <-. apply (bool_decide_unpack _). by vm_compute. }
  destruct (decide (s = "b")) as [->|Hb].
  { vm_compute in Hs. injection Hs as <-. apply (bool_decide_unpack _). by vm_compute. }
  rewrite lookup_insert_ne in Hs by done.
  by rewrite lookup_singleton_ne in Hs.
Defined.

Example resolve_example :
  resolvePartitions "a" (λ _, Some [0; 1; 2]%Z) {["a" := ["t"]; "b" := ["t"]]}
  = Resolved {["t" := {[0%Z := true; 1%Z := true]}]}.
Proof. by vm_compute. Qed.

Example resolve_failure_example :
  resolvePartitions "a" (λ _, None) {["a" := ["t"]; "b" := ["t"]]} = ResolveFailed "t".
Proof. by vm_compute. Qed.

End ResolveFacts.

(** * More about [rewireMultiplexer] and [rebalance] *)
Module RewireFacts.

Import Assignment GroupConsumer GroupConsumerFacts Rewire.

Ltac gear_simpl :=
  cbn [fst snd negb exclusiveConsumers gear_topicConsumer multiplexer] in *.

Lemma foldl_fixed {A B} (f : A → B → A) (a : A) (l : list B) :
  (∀ b, b ∈ l → f a b = a) → foldl f a l = a.
Proof.
  induction l as [|b l IH]; intros Hf; cbn [foldl]; [done|].
  rewrite (Hf b (list_elem_of_here _ _)). apply IH.
  intros b' Hb'. apply Hf. by apply list_elem_of_further.
Qed.

(** ** Nothing to do *)

(** When the gear already has exclusive consumers for exactly the assigned
    partitions, the call stops nothing, spawns nothing and keeps the
    multiplexer; in particular a call repeated with the same assignment
    does nothing. *)
Theorem rewire_settled (tg : topicGear) (assigned : gmap Z bool) :
  gear_invariant tg →
  (∀ p b, assigned !! p = Some b → b = true) →
  (dom (exclusiveConsumers tg) = dom assigned → rewireMultiplexer tg assigned = (tg, [])) ∧
  rewireMultiplexer (rewireMultiplexer tg assigned).1 assigned
    = ((rewireMultiplexer tg assigned).1, []).
Proof.
  intros Hinv Htrue.
  assert (∀ tg, gear_invariant tg → dom (exclusiveConsumers tg) = dom assigned →
                rewireMultiplexer tg assigned = (tg, [])) as Hsettled.
  { clear tg Hinv. intros tg Hinv Hdom. unfold rewireMultiplexer.
    rewrite (foldl_fixed (stop_unassigned assigned)).
    2:{ intros [p ec] Hin. apply elem_of_map_to_list in Hin.
        unfold stop_unassigned. gear_simpl.
        assert (p ∈ dom assigned) as [b Hb]%elem_of_dom.
        { rewrite <-Hdom. apply elem_of_dom. by eexists. }
        rewrite Hb. simpl. by rewrite (Htrue p b Hb). }
    rewrite (foldl_fixed start_assigned).
    2:{ intros p Hin. unfold start_assigned. gear_simpl.
        assert (p ∈ dom (exclusiveConsumers tg)) as [ec ->]%elem_of_dom; [|done].
        rewrite Hdom. apply list_elem_of_fmap in Hin as ([p' b] & -> & Hin).
        apply elem_of_map_to_list in Hin. apply elem_of_dom. by eexists. }
    unfold wire. gear_simpl. rewrite decide_False; [done|].
    intros [Hnone Hsize]. unfold gear_invariant in Hinv. rewrite Hnone in Hinv.
    rewrite Hinv, map_size_empty in Hsize. lia. }
  split; [by apply Hsettled|].
  destruct (rewireMultiplexer_spec tg assigned Hinv) as (_ & Hdom & Hinv').
  by apply Hsettled.
Qed.

(** ** What a call stops and spawns *)

Lemma stop_loop_log assigned entries : ∀ g,
  let g' := foldl (stop_unassigned assigned) g entries in
  (∀ ec, StopExclusiveConsumer ec ∈ g'.2 ↔
         StopExclusiveConsumer ec ∈ g.2 ∨
         ∃ p, (p, ec) ∈ entries ∧ default false (assigned !! p) = false) ∧
  (∀ ec, SpawnExclusiveConsumer ec ∈ g'.2 ↔ SpawnExclusiveConsumer ec ∈ g.2).
Proof.
  induction entries as [|[p0 ec0] entries IH]; intros g; cbn [foldl].
  { split; [|done]. intros ec. split; [auto|].
    intros [?|(p & Hin & _)]; [done|]. by apply elem_of_nil in Hin. }
  destruct (IH (stop_unassigned assigned g (p0, ec0))) as [Hstops Hspawns].
  cbv zeta. split.
  - intros ec. rewrite Hstops. unfold stop_unassigned, stopMultiplexer. gear_simpl.
    destruct (default false (assigned !! p0)) eqn:Hp0; gear_simpl.
    + split.
      * intros [?|(p & Hin & Hp)]; [by left|]. right. exists p.
        split; [by apply list_elem_of_further|done].
      * intros [?|(p & Hin & Hp)]; [by left|]. right.
        apply elem_of_cons in Hin as [[= -> ->]|Hin]; [congruence|by exists p].
    + split.
      * intros [Hlog|(p & Hin & Hp)].
        { apply elem_of_app in Hlog as [Hlog|Hlog].
          - left. destruct (multiplexer g.1); gear_simpl; [|done].
            apply elem_of_app in Hlog as [?|Hlog]; [done|].
            by apply list_elem_of_singleton in Hlog.
          - apply list_elem_of_singleton in Hlog as [= ->].
            right. exists p0. split; [apply list_elem_of_here|done]. }
        right. exists p. split; [by apply list_elem_of_further|done].
      * intros [Hlog|(p & Hin & Hp)].
        { left. apply elem_of_app. left.
          destruct (multiplexer g.1); gear_simpl; [|done].
          apply elem_of_app. by left. }
        apply elem_of_cons in Hin as [[= -> ->]|Hin]; [|right; by exists p].
        left. apply elem_of_app. right. apply list_elem_of_here.
  - intros ec. rewrite Hspawns. unfold stop_unassigned, stopMultiplexer. gear_simpl.
    destruct (default false (assigned !! p0)); gear_simpl; [done|].
    rewrite elem_of_app, list_elem_of_singleton.
    destruct (multiplexer g.1); gear_simpl;
      rewrite ?elem_of_app, ?list_elem_of_singleton; naive_solver.
Qed.

Lemma start_loop_log partitions : ∀ g,
  let g' := foldl start_assigned g partitions in
  (∀ ec, SpawnExclusiveConsumer ec ∈ g'.2 ↔
         SpawnExclusiveConsumer ec ∈ g.2 ∨
         ∃ p, p ∈ partitions ∧ exclusiveConsumers g.1 !! p = None ∧
              ec = ExclusiveConsumer (tc_topic (gear_topicConsumer g.1)) p) ∧
  (∀ ec, StopExclusiveConsumer ec ∈ g'.2 ↔ StopExclusiveConsumer ec ∈ g.2) ∧
  (∀ p ec, exclusiveConsumers g.1 !! p = Some ec → exclusiveConsumers g'.1 !! p = Some ec).
Proof.
  induction partitions as [|p0 partitions IH]; intros g; cbn [foldl].
  { split_and!; [|done..]. intros ec. split; [auto|].
    intros [?|(p & Hin & _)]; [done|]. by apply elem_of_nil in Hin. }
  destruct (IH (start_assigned g p0)) as (Hspawns & Hstops & Hkept).
  cbv zeta. unfold start_assigned, stopMultiplexer in *.
  destruct (exclusiveConsumers g.1 !! p0) as [ec0|] eqn:Hp0; gear_simpl.
  - split_and!; [|done..]. intros ec. rewrite Hspawns. split.
    + intros [?|(p & Hin & Hp & ->)]; [by left|]. right. exists p.
      split_and!; [by apply list_elem_of_further|done..].
    + intros [?|(p & Hin & Hp & ->)]; [by left|]. right.
      apply elem_of_cons in Hin as [->|Hin]; [congruence|]. by exists p.
  - assert (∀ a, a ∈ (if multiplexer g.1 is Some _
                      then (TopicGear (gear_topicConsumer g.1) None (exclusiveConsumers g.1),
                            g.2 ++ [StopMultiplexer])
                      else g).2 ++
                     [SpawnExclusiveConsumer
                        (ExclusiveConsumer
                           (tc_topic (gear_topicConsumer
                              (if multiplexer g.1 is Some _
                               then (TopicGear (gear_topicConsumer g.1) None
                                       (exclusiveConsumers g.1), g.2 ++ [StopMultiplexer])
                               else g).1)) p0)] ↔
                 a ∈ g.2 ∨ (multiplexer g.1 ≠ None ∧ a = StopMultiplexer) ∨
                 a = SpawnExclusiveConsumer
                       (ExclusiveConsumer (tc_topic (gear_topicConsumer g.1)) p0)) as Hlog.
    { intros a. destruct (multiplexer g.1); gear_simpl;
        rewrite ?elem_of_app, ?list_elem_of_singleton; naive_solver. }
    assert (gear_topicConsumer
              (if multiplexer g.1 is Some _
               then (TopicGear (gear_topicConsumer g.1) None (exclusiveConsumers g.1),
                     g.2 ++ [StopMultiplexer])
               else g).1 = gear_topicConsumer g.1) as Htc.
    { by destruct (multiplexer g.1). }
    assert (exclusiveConsumers
              (if multiplexer g.1 is Some _
               then (TopicGear (gear_topicConsumer g.1) None (exclusiveConsumers g.1),
                     g.2 ++ [StopMultiplexer])
               else g).1 = exclusiveConsumers g.1) as Hecs.
    { by destruct (multiplexer g.1). }
    split_and!.
    + intros ec. rewrite Hspawns, Hlog, Htc, Hecs. split.
      * intros [[?|[[_ ?]|[= ->]]]|(p & Hin & Hp & ->)]; [by left|done| |].
        { right. exists p0. split_and!; [apply list_elem_of_here|done..]. }
        right. exists p. rewrite lookup_insert in Hp. case_decide; [done|].
        split_and!; [by apply list_elem_of_further|done..].
      * intros [?|(p & Hin & Hp & ->)]; [by left; left|].
        apply elem_of_cons in Hin as [->|Hin]; [left; right; by right|].
        destruct (decide (p0 = p)) as [->|Hne]; [left; right; by right|].
        right. exists p. rewrite lookup_insert_ne by done. done.
    + intros ec. rewrite Hstops, Hlog. naive_solver.
    + intros p ec Hp. apply Hkept. rewrite Hecs.
      rewrite lookup_insert_ne; [done|]. congruence.
Qed.

(** A call stops exactly the exclusive consumers of partitions that are not
    assigned any more, spawns one exactly for each assigned partition that
    has none, and leaves the exclusive consumers of partitions that stay
    assigned in place. *)
Theorem rewire_stops_and_spawns (tg : topicGear) (assigned : gmap Z bool) :
  (∀ p b, assigned !! p = Some b → b = true) →
  let tg' := (rewireMultiplexer tg assigned).1 in
  let log := (rewireMultiplexer tg assigned).2 in
  (∀ ec, StopExclusiveConsumer ec ∈ log ↔
         ∃ p, exclusiveConsumers tg !! p = Some ec ∧ assigned !! p = None) ∧
  (∀ ec, SpawnExclusiveConsumer ec ∈ log ↔
         ∃ p, is_Some (assigned !! p) ∧ exclusiveConsumers tg !! p = None ∧
              ec = ExclusiveConsumer (tc_topic (gear_topicConsumer tg)) p) ∧
  (∀ p ec, exclusiveConsumers tg !! p = Some ec → is_Some (assigned !! p) →
           exclusiveConsumers tg' !! p = Some ec).
Proof.
  intros Htrue. cbv zeta. unfold rewireMultiplexer.
  destruct (stop_loop_spec assigned (map_to_list (exclusiveConsumers tg)) (tg, []))
    as (Htc1 & Hecs1 & _).
  destruct (stop_loop_log assigned (map_to_list (exclusiveConsumers tg)) (tg, []))
    as (Hstops1 & Hspawns1).
  set (g1 := foldl (stop_unassigned assigned) (tg, [])
               (map_to_list (exclusiveConsumers tg))) in *.
  destruct (start_loop_log (map_to_list assigned).*1 g1) as (Hspawns2 & Hstops2 & Hkept2).
  set (g2 := foldl start_assigned g1 (map_to_list assigned).*1) in *.
  assert (∀ a, (∀ ins, a ≠ SpawnMultiplexer ins) → a ∈ (wire g2).2 ↔ a ∈ g2.2) as Hwire.
  { intros a Ha. unfold wire. case_decide; gear_simpl; [|done].
    rewrite elem_of_app, list_elem_of_singleton. naive_solver. }
  assert (exclusiveConsumers (wire g2).1 = exclusiveConsumers g2.1) as Hwire_ecs.
  { unfold wire. by case_decide. }
  assert (∀ p, default false (assigned !! p) = false ↔ assigned !! p = None) as Hflag.
  { intros p. destruct (assigned !! p) as [b|] eqn:Hb; simpl; [|done].
    rewrite (Htrue p b Hb). naive_solver. }
  assert (∀ p, p ∈ (map_to_list assigned).*1 ↔ is_Some (assigned !! p)) as Hkeys.
  { intros p. rewrite list_elem_of_fmap. split.
    - intros ([p' b] & -> & Hin). apply elem_of_map_to_list in Hin. by eexists.
    - intros [b Hb]. exists (p, b). split; [done|]. by apply elem_of_map_to_list. }
  gear_simpl. split_and!.
  - intros ec. rewrite Hwire by done. rewrite Hstops2, Hstops1. split.
    + intros [Hnil|(p & Hin & Hp)]; [by apply elem_of_nil in Hnil|].
      exists p. split; [by apply elem_of_map_to_list|by apply Hflag].
    + intros (p & Hec & Hp). right. exists p.
      split; [by apply elem_of_map_to_list|by apply Hflag].
  - intros ec. rewrite Hwire by done. rewrite Hspawns2, Hspawns1, Htc1. gear_simpl. split.
    + intros [Hnil|(p & Hin & Hp & ->)]; [by apply elem_of_nil in Hnil|].
      apply Hkeys in Hin. exists p. split_and!; [done| |done].
      rewrite Hecs1 in Hp. case_decide as Hcase; [|done].
      destruct Hcase as [_ Hfalse]. apply Hflag in Hfalse.
      rewrite Hfalse in Hin. by destruct Hin.
    + intros (p & Hin & Hp & ->). right. exists p.
      split_and!; [by apply Hkeys| |done].
      rewrite Hecs1. by case_decide.
  - intros p ec Hec Hp. rewrite Hwire_ecs. apply Hkept2.
    rewrite Hecs1. rewrite decide_False; [done|]. intros [_ Hfalse].
    apply Hflag in Hfalse. rewrite Hfalse in Hp. by destruct Hp.
Qed.

(** ** The multiplexer is torn down first *)

Lemma tidy_change mux0 g tc ecs (a : wiring) :
  tidy mux0 g → a ≠ StopMultiplexer → (∀ muxIns, a ≠ SpawnMultiplexer muxIns) →
  tidy mux0 (TopicGear tc (multiplexer (stopMultiplexer g).1) ecs,
             (stopMultiplexer g).2 ++ [a]).
Proof.
  intros [Hspawn Hshape] Hstop Hmux. unfold tidy, stopMultiplexer in *.
  destruct mux0 as [muxIns0|].
  - destruct Hshape as [[Hsame Hnil]|[Hnone (rest & Hlog & Hrest)]].
    + rewrite Hsame, Hnil. gear_simpl. split.
      * intros muxIns [?|Hin%list_elem_of_singleton]%elem_of_cons; [done|].
        by apply (Hmux muxIns).
      * right. split; [done|]. exists [a]. split; [done|].
        by intros ?%list_elem_of_singleton.
    + rewrite Hnone. gear_simpl. split.
      * intros muxIns [?|Hin%list_elem_of_singleton]%elem_of_app; [by eapply Hspawn|].
        by apply (Hmux muxIns).
      * right. split; [done|]. exists (rest ++ [a]). rewrite Hlog. split; [done|].
        intros [?|?%list_elem_of_singleton]%elem_of_app; done.
  - destruct Hshape as [Hnone Hnostop]. rewrite Hnone. gear_simpl. split.
    + intros muxIns [?|Hin%list_elem_of_singleton]%elem_of_app; [by eapply Hspawn|].
      by apply (Hmux muxIns).
    + split; [done|]. intros [?|?%list_elem_of_singleton]%elem_of_app; done.
Qed.

Lemma stop_loop_tidy mux0 assigned entries : ∀ g,
  tidy mux0 g → tidy mux0 (foldl (stop_unassigned assigned) g entries).
Proof.
  induction entries as [|entry entries IH]; intros g Hg; cbn [foldl]; [done|].
  apply IH. unfold stop_unassigned.
  destruct (negb _); [|done]. by apply tidy_change.
Qed.

Lemma start_loop_tidy mux0 partitions : ∀ g,
  tidy mux0 g → tidy mux0 (foldl start_assigned g partitions).
Proof.
  induction partitions as [|p partitions IH]; intros g Hg; cbn [foldl]; [done|].
  apply IH. unfold start_assigned.
  destruct (exclusiveConsumers g.1 !! p); [done|]. by apply tidy_change.
Qed.

(** If the gear had a multiplexer and the call changes anything, stopping
    that multiplexer is the first thing the call does, and it is done once;
    a gear without multiplexer has none stopped.  A new multiplexer is
    spawned at most once, as the last thing, and wired to all exclusive
    consumers the gear then has. *)
Theorem tear_down_first (tg : topicGear) (assigned : gmap Z bool) :
  let tg' := (rewireMultiplexer tg assigned).1 in
  let log := (rewireMultiplexer tg assigned).2 in
  (is_Some (multiplexer tg) →
   (log = [] ∧ tg' = tg) ∨
   ∃ rest, log = StopMultiplexer :: rest ∧ StopMultiplexer ∉ rest) ∧
  (multiplexer tg = None → StopMultiplexer ∉ log) ∧
  (∀ muxIns, SpawnMultiplexer muxIns ∈ log →
     ∃ init, log = init ++ [SpawnMultiplexer muxIns] ∧
             (∀ muxIns', SpawnMultiplexer muxIns' ∉ init) ∧
             multiplexer tg' = Some muxIns ∧
             muxIns = (map_to_list (exclusiveConsumers tg')).*2).
Proof.
  cbv zeta. unfold rewireMultiplexer.
  assert (tidy (multiplexer tg) (tg, [])) as Htidy0.
  { split; [by intros muxIns Hin; apply elem_of_nil in Hin|].
    destruct (multiplexer tg) eqn:Hmux; gear_simpl; [by left|].
    split; [done|]. by intros Hin; apply elem_of_nil in Hin. }
  pose proof (start_loop_tidy _ (map_to_list assigned).*1 _
                (stop_loop_tidy _ assigned (map_to_list (exclusiveConsumers tg)) _ Htidy0))
    as [Hspawn Hshape].
  destruct (stop_loop_spec assigned (map_to_list (exclusiveConsumers tg)) (tg, []))
    as (_ & _ & Hmux1).
  set (g1 := foldl (stop_unassigned assigned) (tg, [])
               (map_to_list (exclusiveConsumers tg))) in *.
  destruct (start_loop_spec (map_to_list assigned).*1 g1) as (_ & _ & Hmux2).
  set (g2 := foldl start_assigned g1 (map_to_list assigned).*1) in *.
  unfold wire. split_and!.
  - intros [muxIns0 Hmux0]. rewrite Hmux0 in Hshape.
    destruct Hshape as [[Hsame Hnil]|[Hnone (rest & Hlog & Hrest)]].
    + left. rewrite decide_False by (rewrite Hsame; naive_solver).
      split; [done|].
      destruct Hmux2 as [?|Heq2]; [congruence|]. rewrite Heq2.
      destruct Hmux1 as [Hnone1|Heq1]; [|done].
      rewrite Heq2 in Hsame. congruence.
    + right. case_decide; gear_simpl.
      * exists (rest ++ [SpawnMultiplexer (map_to_list (exclusiveConsumers g2.1)).*2]).
        rewrite Hlog. split; [done|].
        intros [?|?%list_elem_of_singleton]%elem_of_app; done.
      * by exists rest.
  - intros Hnone0. rewrite Hnone0 in Hshape. destruct Hshape as [Hnone Hnostop].
    case_decide; gear_simpl; [|done].
    intros [?|?%list_elem_of_singleton]%elem_of_app; done.
  - intros muxIns. case_decide; gear_simpl; [|by intros ?%Hspawn].
    intros [?%Hspawn|[= ->]%list_elem_of_singleton]%elem_of_app; [done|].
    by exists g2.2.
Qed.

(** ** Shutting a gear down *)

(** A call with a nil assignment that runs without another call on the
    gear, on a gear that satisfies the invariant: it stops the multiplexer
    and every exclusive consumer of the gear, spawns nothing, and leaves
    the gear with neither. *)
Theorem rewire_to_nothing (tg : topicGear) :
  gear_invariant tg →
  let log := (rewireMultiplexer tg ∅).2 in
  (rewireMultiplexer tg ∅).1 = TopicGear (gear_topicConsumer tg) None ∅ ∧
  (∀ ec, StopExclusiveConsumer ec ∈ log ↔ ∃ p, exclusiveConsumers tg !! p = Some ec) ∧
  (is_Some (multiplexer tg) → StopMultiplexer ∈ log) ∧
  (∀ ec, SpawnExclusiveConsumer ec ∉ log) ∧
  (∀ muxIns, SpawnMultiplexer muxIns ∉ log).
Proof.
  intros Hinv. cbv zeta.
  destruct (rewireMultiplexer_spec tg ∅ Hinv) as (Htc & Hdom & Hinv').
  destruct (rewire_stops_and_spawns tg ∅) as (Hstops & Hspawns & _).
  { intros p b. by rewrite lookup_empty. }
  destruct (tear_down_first tg ∅) as (Hfirst & _ & Hlast).
  cbv zeta in *. rewrite dom_empty_L in Hdom. apply dom_empty_inv_L in Hdom.
  assert (multiplexer (rewireMultiplexer tg ∅).1 = None) as Hnone.
  { unfold gear_invariant in Hinv'. rewrite Hdom in Hinv'.
    destruct (multiplexer (rewireMultiplexer tg ∅).1); [by destruct Hinv'|done]. }
  split_and!.
  - destruct (rewireMultiplexer tg ∅).1. gear_simpl. congruence.
  - intros ec. rewrite Hstops. setoid_rewrite lookup_empty. naive_solver.
  - intros Hsome. destruct (Hfirst Hsome) as [[_ Heq]|(rest & -> & _)];
      [|apply list_elem_of_here].
    destruct Hsome as [muxIns Hmux]. rewrite Heq in Hnone. congruence.
  - intros ec (p & [b Hb] & _)%Hspawns. by rewrite lookup_empty in Hb.
  - intros muxIns (_ & _ & _ & Hmux & _)%Hlast. congruence.
Qed.

(** ** The gears a rebalance leaves *)

Lemma add_gear_lookup topicConsumers entries : ∀ topicGears topic,
  let topicGears' := foldl (add_gear topicConsumers) topicGears entries in
  (∀ tg, topicGears !! topic = Some tg → topicGears' !! topic = Some tg) ∧
  (topicGears !! topic = None → ∀ tg', topicGears' !! topic = Some tg' →
     ∃ assigned tc, (topic, assigned) ∈ entries ∧ topicConsumers !! topic = Some tc ∧
                    tg' = (rewireMultiplexer (new_gear tc) assigned).1) ∧
  (∀ assigned, (topic, assigned) ∈ entries → is_Some (topicConsumers !! topic) →
     is_Some (topicGears' !! topic)).
Proof.
  induction entries as [|[topic0 assigned0] entries IH]; intros topicGears topic;
    cbn [foldl].
  { split_and!; [done|congruence|]. intros assigned Hin. by apply elem_of_nil in Hin. }
  destruct (IH (add_gear topicConsumers topicGears (topic0, assigned0)) topic)
    as (Hkeep & Hnew & Hsome).
  cbv zeta. unfold add_gear in *. cbn [fst snd] in *.
  destruct (topicConsumers !! topic0) as [tc0|] eqn:Htc0.
  2:{ split_and!; [done| |].
      - intros Hnone tg' Hgear. destruct (Hnew Hnone tg' Hgear) as (a & tc & Hin & ? & ?).
        exists a, tc. split_and!; [by apply list_elem_of_further|done..].
      - intros assigned [[= -> ->]|Hin]%elem_of_cons Htc; [|by eapply Hsome].
        rewrite Htc0 in Htc. by destruct Htc. }
  destruct (topicGears !! topic0) as [tg0|] eqn:Hgear0.
  { split_and!; [done| |].
    - intros Hnone tg' Hgear. destruct (Hnew Hnone tg' Hgear) as (a & tc & Hin & ? & ?).
      exists a, tc. split_and!; [by apply list_elem_of_further|done..].
    - intros assigned [[= -> ->]|Hin]%elem_of_cons Htc; [|by eapply Hsome].
      eexists. by apply Hkeep. }
  split_and!.
  - intros tg Hgear. apply Hkeep. rewrite lookup_insert_ne; [done|]. congruence.
  - intros Hnone tg' Hgear.
    destruct (decide (topic0 = topic)) as [->|Hne].
    + exists assigned0, tc0. split_and!; [apply list_elem_of_here|done|].
      rewrite (Hkeep _ (lookup_insert_eq _ _ _)) in Hgear. congruence.
    + rewrite lookup_insert_ne in Hnew by done.
      destruct (Hnew Hnone tg' Hgear) as (a & tc & Hin & ? & ?).
      exists a, tc. split_and!; [by apply list_elem_of_further|done..].
  - intros assigned [[= -> ->]|Hin]%elem_of_cons Htc; [|by eapply Hsome].
    eexists. apply Hkeep. apply lookup_insert_eq.
Qed.

Section Rebalance.
Variable ClientID : string.
Variable Partitions : string → option (list Z).

(** After a rebalance that completes, there is a gear for a topic exactly
    when the topic has assigned partitions and either had a gear before or
    has a topic consumer in the snapshot.  A gear that existed keeps its
    topic consumer; a new gear gets the one of the snapshot. *)
Theorem rebalance_gears topicGears topicConsumers subscriptions
    assignedPartitions topicGears' :
  (∀ topic tg, topicGears !! topic = Some tg → gear_invariant tg) →
  resolvePartitions ClientID Partitions subscriptions = Resolved assignedPartitions →
  rebalance ClientID Partitions topicGears topicConsumers subscriptions
    = Rebalanced topicGears' →
  ∀ topic,
    (is_Some (topicGears' !! topic) ↔
     (is_Some (topicGears !! topic) ∨ is_Some (topicConsumers !! topic)) ∧
     default ∅ (assignedPartitions !! topic) ≠ ∅) ∧
    (∀ tg', topicGears' !! topic = Some tg' →
       Some (gear_topicConsumer tg') =
       match topicGears !! topic with
       | Some tg => Some (gear_topicConsumer tg)
       | None => topicConsumers !! topic
       end).
Proof.
  intros Hinv Hresolved. unfold rebalance. rewrite Hresolved. intros [= <-] topic.
  set (gears1 := map_imap
                   (λ topic tg,
                      Some (rewireMultiplexer tg (default ∅ (assignedPartitions !! topic))).1)
                   topicGears).
  destruct (add_gear_lookup topicConsumers (map_to_list assignedPartitions) gears1 topic)
    as (Hkeep & Hnew & Hsome).
  set (gears2 := foldl (add_gear topicConsumers) gears1 (map_to_list assignedPartitions))
    in *.
  assert (gears1 !! topic =
          (λ tg, (rewireMultiplexer tg (default ∅ (assignedPartitions !! topic))).1)
            <$> topicGears !! topic) as Hgears1.
  { unfold gears1. rewrite map_lookup_imap. by destruct (topicGears !! topic). }
  (* every gear of [gears2] is a rewired gear that satisfied the invariant *)
  assert (∀ tg2, gears2 !! topic = Some tg2 →
            ∃ tg0, gear_invariant tg0 ∧
                   tg2 = (rewireMultiplexer tg0 (default ∅ (assignedPartitions !! topic))).1 ∧
                   Some (gear_topicConsumer tg0) =
                   match topicGears !! topic with
                   | Some tg => Some (gear_topicConsumer tg)
                   | None => topicConsumers !! topic
                   end) as Hshape.
  { intros tg2 Hgear2. destruct (topicGears !! topic) as [tg|] eqn:Hgear.
    - simpl in Hgears1. rewrite (Hkeep _ Hgears1) in Hgear2. injection Hgear2 as <-.
      exists tg. split_and!; [by eapply Hinv|done..].
    - simpl in Hgears1. destruct (Hnew Hgears1 tg2 Hgear2) as (a & tc & Hin & Htc & ->).
      apply elem_of_map_to_list in Hin. exists (new_gear tc).
      rewrite Hin. split_and!; [apply new_gear_invariant|done|by rewrite Htc]. }
  assert (∀ tg0, gear_invariant tg0 →
            multiplexer (rewireMultiplexer tg0 (default ∅ (assignedPartitions !! topic))).1
              ≠ None ↔ default ∅ (assignedPartitions !! topic) ≠ ∅) as Hmux.
  { intros tg0 Hinv0.
    destruct (rewireMultiplexer_spec tg0 (default ∅ (assignedPartitions !! topic)) Hinv0)
      as (_ & Hdom & Hinv').
    pose proof (gear_invariant_multiplexer _ Hinv') as Hiff.
    rewrite <-not_eq_None_Some in Hiff. rewrite Hiff.
    split; intros Hne Hempty; apply Hne.
    - rewrite Hempty in *. rewrite dom_empty_L in Hdom.
      by apply dom_empty_inv_L in Hdom.
    - rewrite Hempty, dom_empty_L in Hdom. symmetry in Hdom.
      by apply dom_empty_inv_L in Hdom. }
  split.
  - split.
    + intros [tg' [Hgear2 Hmux']%map_lookup_filter_Some]. cbn [snd] in Hmux'.
      destruct (Hshape tg' Hgear2) as (tg0 & Hinv0 & -> & Htc).
      apply (Hmux tg0 Hinv0) in Hmux'. split; [|done].
      destruct (topicGears !! topic); [left; by eexists|right].
      rewrite <-Htc. by eexists.
    + intros [Hwhere Hassigned].
      assert (is_Some (gears2 !! topic)) as [tg2 Hgear2].
      { destruct (topicGears !! topic) as [tg|] eqn:Hgear.
        - simpl in Hgears1. eexists. by apply Hkeep.
        - destruct Hwhere as [[? ?]|Htc]; [done|].
          destruct (assignedPartitions !! topic) as [a|] eqn:Ha; [|done].
          apply (Hsome a); [by apply elem_of_map_to_list|done]. }
      exists tg2. apply map_lookup_filter_Some. split; [done|]. cbn [snd].
      destruct (Hshape tg2 Hgear2) as (tg0 & Hinv0 & -> & _). by apply Hmux.
  - intros tg' [Hgear2 _]%map_lookup_filter_Some.
    destruct (Hshape tg' Hgear2) as (tg0 & Hinv0 & -> & <-).
    destruct (rewireMultiplexer_spec tg0 (default ∅ (assignedPartitions !! topic)) Hinv0)
      as (-> & _). done.
Qed.

End Rebalance.

Lemma rewire_settled_witness :
  rewireMultiplexer
    (rewireMultiplexer (new_gear (TopicConsumer "t" 0)) {[0%Z := true]}).1 {[0%Z := true]}
  = ((rewireMultiplexer (new_gear (TopicConsumer "t" 0)) {[0%Z := true]}).1, []).
Proof.
  apply (rewire_settled (new_gear (TopicConsumer "t" 0)) {[0%Z := true]}).
  - apply new_gear_invariant.
  - intros p b Hb. by apply lookup_singleton_Some in Hb as [_ <-].
Defined.

Lemma rewire_stops_and_spawns_witness :
  SpawnExclusiveConsumer (ExclusiveConsumer "t" 0)
  ∈ (rewireMultiplexer (new_gear (TopicConsumer "t" 0)) {[0%Z := true]}).2.
Proof.
  destruct (rewire_stops_and_spawns (new_gear (TopicConsumer "t" 0)) {[0%Z := true]})
    as (_ & Hspawns & _).
  - intros p b Hb. by apply lookup_singleton_Some in Hb as [_ <-].
  - apply Hspawns. exists 0%Z. split_and!; [by eexists|done..].
Defined.

Lemma rewire_to_nothing_witness :
  (rewireMultiplexer
     (rewireMultiplexer (new_gear (TopicConsumer "t" 0)) {[0%Z := true]}).1 ∅).1
  = TopicGear (TopicConsumer "t" 0) None ∅.
Proof.
  destruct (rewire_to_nothing
              (rewireMultiplexer (new_gear (TopicConsumer "t" 0)) {[0%Z := true]}).1)
    as (Hgear & _).
  - exact (rewired_invariant (TopicConsumer "t" 0) [{[0%Z := true]}]).
  - exact Hgear.
Defined.

Lemma rebalance_gears_witness :
  is_Some (default ∅ (match rebalance "me" (λ _, Some [1; 0]%Z) ∅
                              {["t" := TopicConsumer "t" 0]} {["me" := ["t"]]} with
                      | Rebalanced topicGears' => Some topicGears'
                      | _ => None
                      end) !! "t").
Proof.
  destruct (rebalance "me" (λ _, Some [1; 0]%Z) ∅ {["t" := TopicConsumer "t" 0]}
              {["me" := ["t"]]}) as [topicGears'| |] eqn:Hrebalance;
    [|by vm_compute in Hrebalance..].
  destruct (resolvePartitions "me" (λ _, Some [1; 0]%Z) {["me" := ["t"]]})
    as [assignedPartitions| |] eqn:Hresolved; [|by vm_compute in Hresolved..].
  simpl.
  apply (rebalance_gears "me" (λ _, Some [1; 0]%Z) ∅ {["t" := TopicConsumer "t" 0]}
           {["me" := ["t"]]} assignedPartitions topicGears').
  - intros topic tg Hgear. by rewrite lookup_empty in Hgear.
  - exact Hresolved.
  - exact Hrebalance.
  - split; [right; by eexists|].
    vm_compute in Hresolved. injection Hresolved as <-. by vm_compute.
Defined.

End RewireFacts.

(** * More about the control loop of [managePartitions] *)
Module ManagePartitionsFacts.

Import GroupConsumer GroupConsumerFacts.

(** [listTopics] returns every key of the map once. *)
Lemma listTopics_spec (topicConsumers : gmap string topicConsumer) :
  NoDup (listTopics topicConsumers) ∧
  ∀ topic, topic ∈ listTopics topicConsumers ↔ is_Some (topicConsumers !! topic).
Proof.
  unfold listTopics. split; [apply NoDup_fst_map_to_list|].
  intros topic. rewrite list_elem_of_fmap. split.
  - intros ([topic' tc] & -> & Hin). apply elem_of_map_to_list in Hin. by eexists.
  - intros [tc Htc]. exists (topic, tc). split; [done|]. by apply elem_of_map_to_list.
Qed.

Section Loop.
Variable BackOffTimeout : Z.

Local Abbreviation step := (step BackOffTimeout).
Local Abbreviation reachable := (reachable BackOffTimeout).

Lemma reachable_topics w :
  reachable w → topics (vars w) = listTopics (topicConsumers (vars w)).
Proof.
  induction 1 as [|w e w' acts _ IH Hstep]; [done|].
  destruct e; loop_inv Hstep.
Qed.

(** The topic list the loop sends to the registry is always the list of the
    topics that have a topic consumer at that moment, each once; sending it
    disarms the send, which only the arrival or departure of a topic
    consumer arms again. *)
Theorem topics_sent_are_current :
  (∀ w w' acts,
     reachable w → step w TopicsSent = Some (w', acts) →
     ∃ sent, acts = [SendTopics sent] ∧ NoDup sent ∧
             (∀ topic, topic ∈ sent ↔ is_Some (topicConsumers (vars w) !! topic)) ∧
             nilOrRegistryTopicsCh (vars w') = false) ∧
  (∀ w e w' acts,
     step w e = Some (w', acts) →
     nilOrRegistryTopicsCh (vars w) = false → nilOrRegistryTopicsCh (vars w') = true →
     ∃ tc, e = AddTopicConsumer tc ∨ e = DeleteTopicConsumer tc).
Proof.
  split.
  - intros w w' acts Hw Hstep.
    pose proof (reachable_topics w Hw) as Htopics.
    destruct (listTopics_spec (topicConsumers (vars w))) as [Hnodup Hmem].
    exists (listTopics (topicConsumers (vars w))).
    loop_inv Hstep. by rewrite Htopics.
  - intros w e w' acts Hstep Hfalse Htrue.
    destruct e; loop_inv Hstep; eauto.
Qed.

(** A rebalance that is wanted is never left waiting for nothing: while
    [shouldRebalance] is set, either the loop may not rebalance and a
    rebalance is running or its result is in the channel, or the loop may
    rebalance and the retry timer is armed. *)
Theorem wanted_rebalance_has_a_wakeup (w : world) :
  reachable w → shouldRebalance (vars w) = true →
  if canRebalance (vars w)
  then nilOrRetryCh (vars w) = Armed BackOffTimeout
  else running w + length (rebalanceResultCh w) = 1.
Proof.
  intros Hw. pose proof (reachable_serialised _ _ Hw) as [Htoken _].
  assert (shouldRebalance (vars w) = true → canRebalance (vars w) = true →
          nilOrRetryCh (vars w) = Armed BackOffTimeout) as Harmed.
  { clear Htoken. induction Hw as [|w e w' acts Hw IH Hstep]; [done|].
    pose proof (reachable_serialised _ _ Hw) as [_ Hcan].
    destruct e; loop_inv Hstep;
      repeat match goal with
        | H : _ && _ = false |- _ => apply andb_false_iff in H as [H|H]
        | H : nilOrRetryCh _ = Armed _ |- _ => apply Hcan in H
        end; try congruence; auto. }
  intros Hshould. destruct (canRebalance (vars w)); [by apply Harmed|lia].
Qed.

End Loop.

Lemma topics_sent_are_current_witness :
  ∃ sent, (GroupConsumer.exec 100 init
             [AddTopicConsumer (TopicConsumer "t" 0); TopicsSent]).2 = [SendTopics sent] ∧
          NoDup sent.
Proof.
  destruct (topics_sent_are_current 100) as [Hsent _].
  destruct (Hsent (GroupConsumer.exec 100 init [AddTopicConsumer (TopicConsumer "t" 0)]).1
                  (GroupConsumer.exec 100 init
                     [AddTopicConsumer (TopicConsumer "t" 0); TopicsSent]).1
                  (GroupConsumer.exec 100 init
                     [AddTopicConsumer (TopicConsumer "t" 0); TopicsSent]).2)
    as (sent & Hacts & Hnodup & _).
  - apply loop_exec_reachable, reachable_init.
  - by vm_compute.
  - by exists sent.
Defined.

Lemma wanted_rebalance_has_a_wakeup_witness :
  nilOrRetryCh (vars (GroupConsumer.exec 5000 init
                        [MembershipChanged ∅; MembershipChanged ∅;
                         RebalanceFinished (Some "no partitions"); RebalanceResult]).1)
  = Armed 5000.
Proof.
  apply (wanted_rebalance_has_a_wakeup 5000
           (GroupConsumer.exec 5000 init
              [MembershipChanged ∅; MembershipChanged ∅;
               RebalanceFinished (Some "no partitions"); RebalanceResult]).1).
  - apply loop_exec_reachable, reachable_init.
  - reflexivity.
Defined.

End ManagePartitionsFacts.

(** * More about the topic consumer *)
Module TopicConsumerMore.

Import ExclusiveConsumer TopicConsumer TopicConsumerFacts.
Local Open Scope Z_scope.

(** Handling a request never loses a message and never sends a confused
    reply: the message taken from the messages channel, if any, is the one
    in the reply, and a reply carries either a message or an error, never
    both and never neither. *)
Theorem serve_delivers_what_it_takes (LongPollingTimeout now : Z)
    (consumeReq : consumeRequest) (sel : selected) :
  let done := serve LongPollingTimeout consumeReq now sel in
  taken done = Msg (reply done).2 ∧
  (reply done).1 = replyCh consumeReq ∧
  (is_Some (Msg (reply done).2) ↔ Err (reply done).2 = None) ∧
  (Err (reply done).2 = None ∨ Err (reply done).2 = Some ErrRequestTimeout) ∧
  (is_Some (taken done) → is_Some (timer done)).
Proof.
  cbv zeta. unfold serve. case_decide; [|destruct sel]; simpl;
    split_and!; try done; try (by right); try (by left);
    split; (done || by intros [? ?] || by eexists).
Qed.

(** With a timeout that is a non-negative duration: a request that has
    been waiting for at least [LongPollingTimeout] is answered with the
    timeout error whatever the [select] could receive, and nothing is taken
    from the messages channel; a request stamped no later than now waits at
    most [LongPollingTimeout] for a message. *)
Theorem long_poll_bounds (LongPollingTimeout now : Z) (consumeReq : consumeRequest)
    (sel : selected) :
  0 ≤ LongPollingTimeout ≤ Int64.max_int →
  (LongPollingTimeout ≤ now - timestamp consumeReq →
   serve LongPollingTimeout consumeReq now sel
   = Served (replyCh consumeReq, timeoutResult) None None) ∧
  (timestamp consumeReq ≤ now →
   ∀ ttl, timer (serve LongPollingTimeout consumeReq now sel) = Some ttl →
          0 < ttl ≤ LongPollingTimeout).
Proof.
  intros Hlpt.
  assert (timestamp consumeReq ≤ now →
          ttl_of LongPollingTimeout now consumeReq
          = LongPollingTimeout - Int64.max_int `min` (now - timestamp consumeReq)) as Httl.
  { intros Hnow. unfold ttl_of, Int64.sub, time_sub.
    rewrite Int64Facts.wrap_id; unfold Int64.in_range, Int64.max_int, Int64.min_int in *; lia. }
  split.
  - intros Hold. unfold serve. rewrite decide_True; [done|].
    rewrite Httl by lia. lia.
  - intros Hnow ttl. unfold serve. case_decide as Hcase; [done|].
    rewrite Httl in Hcase |- * by done.
    destruct sel; simpl; intros [= <-]; unfold Int64.max_int in *; lia.
Qed.

Lemma long_poll_bounds_witness :
  serve 3000 (Request 1000 "g" "t" 7) 9000 (MessageReceived (Message 4 "m"))
  = Served (7%nat, timeoutResult) None None.
Proof.
  apply (long_poll_bounds 3000 9000 (Request 1000 "g" "t" 7)
           (MessageReceived (Message 4 "m"))); simpl; unfold Int64.max_int; lia.
Defined.

End TopicConsumerMore.


(** * More about the exclusive consumer *)
Module ExclusiveConsumerMore.

Import ExclusiveConsumer ExclusiveConsumerFacts ExclusiveConsumerTrace.
Local Open Scope Z_scope.

Section Facts.
Variable managePartitionOk : bool.
Variable consumePartition : Z → option Z.
Variable firstMessageFetchedCh : bool.

Local Abbreviation step := (step consumePartition firstMessageFetchedCh).
Local Abbreviation exec := (exec consumePartition firstMessageFetchedCh).
Local Abbreviation run := (run managePartitionOk consumePartition firstMessageFetchedCh).
Local Abbreviation reachable :=
  (reachable managePartitionOk consumePartition firstMessageFetchedCh).
Local Abbreviation fetched := (fetched consumePartition firstMessageFetchedCh).

Lemma submitted_app acts acts' : submitted (acts ++ acts') = submitted acts ++ submitted acts'.
Proof. apply omap_app. Qed.

Lemma submitted_deferred s : deferred_ok s → submitted (deferred s) = [].
Proof.
  unfold deferred_ok. induction (deferred s) as [|a acts IH]; intros Hok; [done|].
  unfold submitted in *. cbn [omap].
  destruct (Hok a (list_elem_of_here _ _)) as [->|[->| ->]]; cbn;
    apply IH; intros a' Ha'; apply Hok; by apply list_elem_of_further.
Qed.

(** ** After the stop signal *)

Lemma step_after_stop s e s' acts :
  deferred_ok s → at_ s = Draining → step s e = Some (s', acts) →
  (at_ s' = Draining ∨ at_ s' = Returned) ∧ submitted acts = [] ∧
  (∀ msg, e ≠ Fetched msg) ∧
  (∀ a, a ∈ acts → (∃ offset, a = LogWaiting offset) ∨ a ∈ deferred s).
Proof.
  intros Hok Hat Hstep.
  pose proof (submitted_deferred s Hok) as Hdeferred.
  step_inv Hstep; split_and!; auto; try (intros a Ha; elem_inv; eauto).
Qed.

(** Once the consumer has received the stop signal and is waiting for the
    last commit, no schedule makes it fetch, offer or submit again: it only
    logs, and in the end runs its deferred calls. *)
Theorem nothing_after_stop (s : state) (events : list event) :
  reachable s → at_ s = Draining →
  (at_ (exec s events).1 = Draining ∨ at_ (exec s events).1 = Returned) ∧
  fetched s events = [] ∧
  submitted (exec s events).2 = [] ∧
  (∀ a, a ∈ (exec s events).2 →
        (∃ offset, a = LogWaiting offset) ∨
        a = ClosePartitionConsumer ∨ a = ClosePom ∨ a = ReleaseClaim).
Proof.
  intros Hs%reachable_deferred_ok Hat.
  assert (∀ s, deferred_ok s → at_ s = Draining ∨ at_ s = Returned →
            (at_ (exec s events).1 = Draining ∨ at_ (exec s events).1 = Returned) ∧
            fetched s events = [] ∧
            submitted (exec s events).2 = [] ∧
            (∀ a, a ∈ (exec s events).2 →
                  (∃ offset, a = LogWaiting offset) ∨
                  a = ClosePartitionConsumer ∨ a = ClosePom ∨ a = ReleaseClaim)) as Hgen;
    [|apply Hgen; auto].
  clear s Hs Hat.
  induction events as [|e events IH]; intros s Hok Hat; cbn [ExclusiveConsumer.exec fetched].
  { split_and!; [done..|]. intros a Ha. by apply elem_of_nil in Ha. }
  destruct Hat as [Hat|Hat].
  2:{ assert (step s e = None) as ->.
      { unfold ExclusiveConsumer.step. by rewrite Hat. }
      apply IH; auto. }
  destruct (step s e) as [[s' acts]|] eqn:Hstep; [|apply IH; auto].
  destruct (step_after_stop s e s' acts Hok Hat Hstep) as (Hat' & Hsub & Hfetch & Hacts).
  destruct (IH s' (step_deferred_ok _ _ _ _ _ _ Hok Hstep) Hat') as (? & ? & ? & Hacts').
  destruct (exec s' events) as [s'' acts''] eqn:Hexec. cbn [fst snd] in *.
  split_and!; [done| | |].
  - destruct e; try done. by destruct (Hfetch msg).
  - rewrite submitted_app, Hsub. done.
  - intros a [Ha|Ha]%elem_of_app; [|by apply Hacts'].
    destruct (Hacts a Ha) as [?|Hin]; [by left|]. right. by apply Hok.
Qed.

(** ** Offsets are submitted in fetch order *)

Lemma finished_quiet s events :
  deferred_ok s → at_ s = Draining ∨ at_ s = Returned ∨ at_ s = Panicked →
  fetched s events = [] ∧ submitted (exec s events).2 = [].
Proof.
  revert s. induction events as [|e events IH]; intros s Hok Hat;
    cbn [ExclusiveConsumer.exec fetched]; [done|].
  destruct (step s e) as [[s' acts]|] eqn:Hstep; [|by apply IH].
  destruct Hat as [Hat|Hat].
  2:{ unfold ExclusiveConsumer.step in Hstep. by destruct Hat as [Hat|Hat]; rewrite Hat in Hstep. }
  destruct (step_after_stop s e s' acts Hok Hat Hstep) as (Hat' & Hsub & Hfetch & _).
  destruct (IH s' (step_deferred_ok _ _ _ _ _ _ Hok Hstep)) as [Hf Hs]; [naive_solver|].
  destruct (exec s' events) as [s'' acts'']. cbn [fst snd] in *.
  rewrite submitted_app, Hsub, Hs. split; [|done].
  destruct e; try done. by destruct (Hfetch msg).
Qed.

Lemma submitted_in_fetch_order s events :
  deferred_ok s → at_ s ≠ WaitInitialOffset →
  submitted (exec s events).2
    `prefix_of` (λ msg, Int64.add (Offset msg) 1) <$> (pending s ++ fetched s events) ∧
  (length (pending s ++ fetched s events) ≤ S (length (submitted (exec s events).2)))%nat.
Proof.
  revert s. induction events as [|e events IH]; intros s Hok Hat;
    cbn [ExclusiveConsumer.exec fetched].
  { split; [apply prefix_nil|]. unfold pending. destruct (at_ s); simpl; lia. }
  destruct (step s e) as [[s' acts]|] eqn:Hstep; [|by apply IH].
  pose proof (step_deferred_ok _ _ _ _ _ _ Hok Hstep) as Hok'.
  pose proof (step_not_waiting _ _ _ _ _ _ Hstep) as Hat'.
  destruct (IH s' Hok' Hat') as [Hprefix Hlen].
  pose proof (finished_quiet s' events Hok') as Hquiet.
  pose proof (submitted_deferred s Hok) as Hdeferred.
  destruct (exec s' events) as [s'' acts''] eqn:Hexec. cbn [fst snd] in *.
  rewrite submitted_app.
  unfold pending in *.
  step_inv Hstep; cbn [at_ submitted omap app fmap list_fmap length] in *;
    rewrite ?Hdeferred; cbn [app];
    try (destruct Hquiet as [-> ->]; [by auto|]; cbn; split; [apply prefix_nil|lia]);
    try done.
  all: try (split; [by apply prefix_cons|cbn in *; lia]).
  assert (msg = msg0) as -> by congruence. done.
Qed.

(** In the fetch/offer loop the offsets are submitted in the order the
    messages were fetched: the submitted offsets are the offsets plus one
    of the fetched messages, in order and with none skipped, and at most
    one fetched message is still without its submission. *)
Theorem submissions_follow_fetches (s : state) (events : list event) :
  reachable s → at_ s = Fetching →
  submitted (exec s events).2
    `prefix_of` (λ msg, Int64.add (Offset msg) 1) <$> fetched s events ∧
  (length (fetched s events) ≤ S (length (submitted (exec s events).2)))%nat.
Proof.
  intros Hs%reachable_deferred_ok Hat.
  pose proof (submitted_in_fetch_order s events Hs) as Horder.
  unfold pending in Horder. rewrite Hat in Horder. apply Horder. congruence.
Qed.

(** ** The deferred calls *)

Lemma step_closing s e s' acts :
  reachable s → step s e = Some (s', acts) →
  if finished s'
  then ∃ body, acts = body ++ deferred s ++
                 match at_ s' with Panicked => [Panic] | _ => [] end ∧
               Forall (λ a, is_deferred_call a = false) body
  else Forall (λ a, is_deferred_call a = false) acts.
Proof.
  intros Hs Hstep. pose proof (reachable_deferred _ _ _ _ Hs) as Hdeferred.
  step_inv Hstep; unfold finished, goto, set_committed, set_submitted, defer; simpl;
    try match goal with
      | H : finished ?s = true, H' : at_ ?s = _ |- _ =>
          unfold finished in H; rewrite H' in H; done
      end;
    first [ by repeat constructor
          | exists []; split; [by rewrite ?app_nil_r|constructor]
          | eexists [_]; split; [by rewrite ?app_nil_r|by repeat constructor] ].
Qed.

Lemma exec_closing s events :
  reachable s → finished s = false →
  if finished (exec s events).1
  then ∃ body closing,
         (exec s events).2 = body ++ closing ++
           match at_ (exec s events).1 with Panicked => [Panic] | _ => [] end ∧
         Forall (λ a, is_deferred_call a = false) body ∧
         (closing = [ClosePom; ReleaseClaim] ∨
          closing = [ClosePartitionConsumer; ClosePom; ReleaseClaim])
  else Forall (λ a, is_deferred_call a = false) (exec s events).2.
Proof.
  revert s. induction events as [|e events IH]; intros s Hs Hrun;
    cbn [ExclusiveConsumer.exec].
  { cbn [fst snd]. rewrite Hrun. constructor. }
  destruct (step s e) as [[s' acts]|] eqn:Hstep; [|by apply IH].
  pose proof (step_closing s e s' acts Hs Hstep) as Hclosing.
  pose proof (reachable_step _ _ _ _ _ _ _ Hs Hstep) as Hs'.
  destruct (finished s') eqn:Hfinished.
  - rewrite exec_finished by (unfold finished in Hfinished; destruct (at_ s'); auto; done).
    cbn [fst snd]. rewrite Hfinished, app_nil_r.
    destruct Hclosing as (body & -> & Hbody). exists body, (deferred s).
    split_and!; [done..|].
    rewrite (reachable_deferred _ _ _ _ Hs).
    unfold finished in Hrun. destruct (at_ s) eqn:Hat; auto; try done.
  - specialize (IH s' Hs' Hfinished).
    destruct (exec s' events) as [s'' acts'']. cbn [fst snd] in *.
    destruct (finished s'').
    + destruct IH as (body & closing & -> & Hbody & Hcases).
      exists (acts ++ body), closing. rewrite <-app_assoc. split_and!; [done| |done].
      by apply Forall_app.
    + by apply Forall_app.
Qed.

(** However [run] ends - by a plain return or by one of its two panics - it
    ends with the calls it deferred, innermost first, and the release of the
    partition claim is the last of them.  No deferred call happens earlier,
    and none while [run] is still going. *)
Theorem deferred_calls_close_the_run (events : list event) :
  let final := run events in
  if finished final.1
  then ∃ body closing,
         final.2 = body ++ closing ++
           match at_ final.1 with Panicked => [Panic] | _ => [] end ∧
         Forall (λ a, is_deferred_call a = false) body ∧
         (closing = [ReleaseClaim] ∨ closing = [ClosePom; ReleaseClaim] ∨
          closing = [ClosePartitionConsumer; ClosePom; ReleaseClaim])
  else Forall (λ a, is_deferred_call a = false) final.2.
Proof.
  cbv zeta. unfold ExclusiveConsumer.run.
  pose proof (reachable_start managePartitionOk consumePartition firstMessageFetchedCh)
    as Hstart.
  pose proof (exec_closing (start managePartitionOk).1 events Hstart) as Hexec.
  unfold start in *. destruct managePartitionOk; cbn [panic_ fst snd defer] in *.
  - specialize (Hexec eq_refl).
    match goal with |- context [exec ?s events] => destruct (exec s events) as [s' acts'] end.
    cbn [fst snd] in *. destruct (finished s').
    + destruct Hexec as (body & closing & -> & Hbody & Hcases).
      exists ([ClaimPartition; ManagePartition] ++ body), closing.
      rewrite <-app_assoc. split_and!; [done| |tauto].
      apply Forall_app. split; [by repeat constructor|done].
    + apply Forall_app. split; [by repeat constructor|done].
  - rewrite exec_finished by (right; done). cbn.
    exists [ClaimPartition; ManagePartition], [ReleaseClaim].
    split_and!; [done| |auto]. by repeat constructor.
Qed.

(** ** The test hook *)

Lemma notifications_app acts acts' :
  notifications (acts ++ acts') = (notifications acts + notifications acts')%nat.
Proof. unfold notifications. by rewrite filter_app, length_app. Qed.

Lemma notifications_deferred s : deferred_ok s → notifications (deferred s) = 0%nat.
Proof.
  unfold deferred_ok, notifications.
  induction (deferred s) as [|a acts IH]; intros Hok; [done|].
  rewrite filter_cons.
  destruct (Hok a (list_elem_of_here _ _)) as [->|[->| ->]];
    (rewrite decide_False by done);
    apply IH; intros a' Ha'; apply Hok; by apply list_elem_of_further.
Qed.

Lemma notifications_cons a acts :
  notifications (a :: acts) =
    ((if decide (a = NotifyFirstMessage) then 1 else 0) + notifications acts)%nat.
Proof. unfold notifications. rewrite filter_cons. by case_decide. Qed.

Lemma step_notifications s e s' acts :
  deferred_ok s → step s e = Some (s', acts) →
  if firstMessageFetchedCh && negb (firstMessageFetched s) &&
     match e with Fetched _ => true | _ => false end
  then notifications acts = 1%nat ∧ firstMessageFetched s' = true
  else notifications acts = 0%nat ∧ firstMessageFetched s' = firstMessageFetched s.
Proof.
  intros Hok Hstep. pose proof (notifications_deferred s Hok) as Hdeferred.
  assert (notifications [] = 0%nat) as Hnil by done.
  destruct e as [offset|msg|offset| | | |]; rewrite ?andb_false_r, ?andb_true_r.
  2:{ step_inv Hstep; cbn [firstMessageFetched];
        destruct firstMessageFetchedCh, (firstMessageFetched _); cbn in *; done. }
  all: step_inv Hstep; cbn [firstMessageFetched];
    rewrite ?notifications_cons, ?notifications_app, ?notifications_cons,
      ?Hdeferred, ?Hnil;
    repeat case_decide; done.
Qed.

Lemma exec_notifications s events :
  deferred_ok s →
  notifications (exec s events).2 =
    if firstMessageFetchedCh && negb (firstMessageFetched s) &&
       bool_decide (fetched s events ≠ [])
    then 1%nat else 0%nat.
Proof.
  revert s. induction events as [|e events IH]; intros s Hok;
    cbn [ExclusiveConsumer.exec fetched].
  { cbn. by rewrite andb_false_r. }
  destruct (step s e) as [[s' acts]|] eqn:Hstep; [|by apply IH].
  pose proof (step_deferred_ok _ _ _ _ _ _ Hok Hstep) as Hok'.
  pose proof (step_notifications s e s' acts Hok Hstep) as Hacts.
  specialize (IH s' Hok').
  destruct (exec s' events) as [s'' acts'']. cbn [fst snd] in *.
  rewrite notifications_app, IH. clear IH.
  destruct e as [offset|msg|offset| | | |]; rewrite ?andb_false_r, ?andb_true_r in Hacts.
  2:{ rewrite (bool_decide_eq_true_2 (msg :: _ ≠ [])) by done.
      rewrite !andb_true_r in *.
      destruct (firstMessageFetchedCh && negb (firstMessageFetched s)) eqn:Hhook.
      - destruct Hacts as [-> ->]. by rewrite andb_false_r.
      - destruct Hacts as [-> ->]. by rewrite Hhook. }
  all: by destruct Hacts as [-> ->].
Qed.

(** The test hook [firstMessageFetchedCh] is signalled at most once in a
    run: once when it is set and a message is fetched, never otherwise. *)
Theorem first_message_notified_once (events : list event) :
  notifications (run events).2 =
    if firstMessageFetchedCh &&
       bool_decide (fetched (start managePartitionOk).1 events ≠ [])
    then 1%nat else 0%nat.
Proof.
  unfold ExclusiveConsumer.run.
  pose proof (exec_notifications (start managePartitionOk).1 events
                (start_deferred_ok _)) as Hexec.
  assert (notifications (start managePartitionOk).2 = 0%nat ∧
          firstMessageFetched (start managePartitionOk).1 = false) as [Hacts Hfirst].
  { unfold start. by destruct managePartitionOk. }
  destruct (start managePartitionOk) as [s acts]. cbn [fst snd] in *.
  destruct (exec s events) as [s' acts']. cbn [fst snd] in *.
  rewrite notifications_app, Hacts, Hexec, Hfirst.
  by rewrite andb_true_r.
Qed.

End Facts.

(** A run that is stopped with offset 6 submitted and nothing committed. *)
Lemma nothing_after_stop_witness :
  fetched (λ offset, Some offset) false
    (State Draining 6 0 false [ClosePartitionConsumer; ClosePom; ReleaseClaim])
    [Fetched (Message 6 "n"); Committed 5; Acked; Committed 6] = [].
Proof.
  refine (proj1 (proj2 (nothing_after_stop true (λ offset, Some offset) false
    (State Draining 6 0 false [ClosePartitionConsumer; ClosePom; ReleaseClaim])
    [Fetched (Message 6 "n"); Committed 5; Acked; Committed 6] _ eq_refl))).
  exact (exec_reachable true (λ offset, Some offset) false
           (start true).1
           [InitialOffset 5; Fetched (Message 5 "m"); Offered; Acked; Stopping]
           (reachable_start _ _ _)).
Defined.

Lemma submissions_follow_fetches_witness :
  submitted
    (exec (λ offset, Some offset) false
       (State Fetching 0 0 false [ClosePartitionConsumer; ClosePom; ReleaseClaim])
       [Fetched (Message 5 "m"); Offered; Acked; Fetched (Message 9 "n"); Acked;
        Fetched (Message 10 "o")]).2
  `prefix_of`
  (λ msg, Int64.add (Offset msg) 1) <$>
    fetched (λ offset, Some offset) false
      (State Fetching 0 0 false [ClosePartitionConsumer; ClosePom; ReleaseClaim])
      [Fetched (Message 5 "m"); Offered; Acked; Fetched (Message 9 "n"); Acked;
       Fetched (Message 10 "o")].
Proof.
  refine (proj1 (submissions_follow_fetches true (λ offset, Some offset) false
    (State Fetching 0 0 false [ClosePartitionConsumer; ClosePom; ReleaseClaim])
    [Fetched (Message 5 "m"); Offered; Acked; Fetched (Message 9 "n"); Acked;
     Fetched (Message 10 "o")] _ eq_refl)).
  exact (exec_reachable true (λ offset, Some offset) false
           (start true).1 [InitialOffset 5] (reachable_start _ _ _)).
Defined.

End ExclusiveConsumerMore.

(** * Facts about overlapping calls of [rewireMultiplexer] *)
Module OverlapFacts.

Import Assignment GroupConsumer Overlap.
Local Open Scope Z_scope.

(** A call that runs without another call on the gear is
    [rewireMultiplexer]. *)
Lemma call_alone tg assigned :
  interleave (Shared tg [] [Call assigned AtEntry]) [0; 0]%nat
  = Shared (rewireMultiplexer tg assigned).1 (rewireMultiplexer tg assigned).2
           [Call assigned AtReturn].
Proof.
  unfold rewireMultiplexer, interleave, advance, until_wait, after_wait. simpl.
  by destruct (foldl (stop_unassigned assigned) _ _).
Qed.

(** C6 fails on the code when two calls overlap on a gear.  The first
    rebalance of the group leaves the gear of topic [t] with an exclusive
    consumer for partition 0; a membership change starts a second
    rebalance, which is to rewire the gear with partitions 0 and 1; the
    stream of membership changes is closed and the loop leaves through
    [done:] with that rebalance still running, and spawns its own call on
    the gear, with a nil assignment.  The exit call stops the multiplexer
    and the exclusive consumer and waits in [wg.Wait()]; the call of the
    rebalance finds the gear empty, spawns two exclusive consumers and a
    multiplexer, and returns; the exit call goes on, finds a multiplexer
    and returns.  The gear is left with exclusive consumers for
    partitions 0 and 1 and a multiplexer after a completed call whose
    assignment was empty. *)
Theorem exit_call_overlaps_rebalance :
  let tc := TopicConsumer "t" 0 in
  let ec0 := ExclusiveConsumer "t" 0 in
  let ec1 := ExclusiveConsumer "t" 1 in
  let Partitions := λ _ : string, Some [0; 1] in
  let first : gmap string (list string) := {["me" := ["t"]; "other" := ["t"]]} in
  let second : gmap string (list string) := {["me" := ["t"]]} in
  let tg := TopicGear tc (Some [ec0]) {[0 := ec0]} in
  let w := (GroupConsumer.exec 5000 init
              [AddTopicConsumer tc; MembershipChanged first; RebalanceFinished None;
               RebalanceResult; MembershipChanged second; MembershipClosed]).1 in
  let final := interleave (Shared tg [] [exit_call; Call {[0 := true; 1 := true]} AtEntry])
                          [0; 1; 1; 0]%nat in
  (exited w = true ∧ running w = 1%nat) ∧
  rebalance "me" Partitions ∅ {["t" := tc]} first = Rebalanced {["t" := tg]} ∧
  gear_invariant tg ∧
  resolvePartitions "me" Partitions second
    = Resolved {["t" := {[0 := true; 1 := true]}]} ∧
  calls final = [Call ∅ AtReturn; Call {[0 := true; 1 := true]} AtReturn] ∧
  log final = [StopMultiplexer; StopExclusiveConsumer ec0;
               SpawnExclusiveConsumer ec1; SpawnExclusiveConsumer ec0;
               SpawnMultiplexer [ec1; ec0]] ∧
  gear final = TopicGear tc (Some [ec1; ec0]) {[0 := ec0; 1 := ec1]} ∧
  dom (exclusiveConsumers (gear final)) ≠ dom (assigned exit_call).
Proof.
  cbv zeta. split_and!; by vm_compute.
Qed.

End OverlapFacts.
